(** * A* pathfinder on a square grid: shallow embedding of [main.py]

    The development follows the source file top to bottom: the [Node]
    class (colour state and neighbour list), [heuristic], [create_grid],
    [get_clicked_pos], [reconstruct_path], [a_star_algorithm] and the
    event loop of [main].  Rendering (pygame) is reduced to what the
    search observes of it: the zero-argument [draw] callback, recorded as
    an event; what [main] reads from pygame is an input of its model.

    Modelling conventions.
    - A [Node] object is referred to by its immutable [(row, col)]
      coordinate; [grid[r][c]] is the lookup of [(r, c)] in a finite map.
      Two references to the same node are the same key, so a colour
      change made through one reference is seen through every other.
    - Python integers are [Z]; [float("inf")] is the constructor [Inf].
    - A Python exception ([KeyError] on a dictionary or set, [IndexError]
      on the grid) and an exhausted iteration budget are both [None].
    - [pygame.event.get()] is assumed to deliver no [QUIT] event.
    - For a node inside the grid the guards of [update_neighbours] keep
      every index in range, so the wrap-around of Python's negative list
      indices is never exercised there; it is modelled where [main]
      indexes the grid with a mouse position ([py_index]). *)

From stdpp Require Import gmap list fin_maps fin_sets.
From Stdlib Require Import ZArith Lia.

Local Open Scope Z_scope.

(** ** Colours and nodes *)

Inductive Color := WHITE | RED | GREEN | BLACK | PURPLE | PINK | BLUE.

Global Instance Color_eq_dec : EqDecision Color.
Proof. solve_decision. Defined.

Definition pos : Type := Z * Z.

(** The mutable part of a [Node]: [self.color] and [self.neighbours].
    The pixel fields [x], [y], [width] are only read by [Node.draw]. *)
Record Node := mkNode {
  color : Color;
  neighbours : list pos
}.

(** [total_rows] is the same number in every node of a grid built by
    [create_grid]; it is kept once, next to the cells. *)
Record Grid := mkGrid {
  total_rows : Z;
  cells : gmap pos Node
}.

Definition set_color (c : Color) (n : Node) : Node :=
  mkNode c (neighbours n).

Definition set_neighbours (l : list pos) (n : Node) : Node :=
  mkNode (color n) l.

Definition color_of (g : Grid) (p : pos) : option Color :=
  color <$> cells g !! p.

Definition neighbours_of (g : Grid) (p : pos) : option (list pos) :=
  neighbours <$> cells g !! p.

Definition is_closed (n : Node) : bool := bool_decide (color n = RED).
Definition is_open (n : Node) : bool := bool_decide (color n = GREEN).
Definition is_barrier (n : Node) : bool := bool_decide (color n = BLACK).
Definition is_start (n : Node) : bool := bool_decide (color n = PINK).
Definition is_end (n : Node) : bool := bool_decide (color n = BLUE).

(** The mutators act on the node stored under [p]. *)
Definition paint (c : Color) (p : pos) (g : Grid) : Grid :=
  mkGrid (total_rows g) (alter (set_color c) p (cells g)).

Definition reset := paint WHITE.
Definition make_start := paint PINK.
Definition make_closed := paint RED.
Definition make_barrier := paint BLACK.
Definition make_end := paint BLUE.
Definition make_path := paint PURPLE.

(** ** [Node.update_neighbours] *)

(** One of the four guarded [append]s: [inb] is the bounds test written
    in the source, [q] the position it then reads from the grid. *)
Definition try_append (g : Grid) (inb : bool) (q : pos) (acc : list pos)
  : option (list pos) :=
  if inb then
    n ← cells g !! q;
    Some (if is_barrier n then acc else acc ++ [q])
  else Some acc.

Definition compute_neighbours (g : Grid) (p : pos) : option (list pos) :=
  let '(r, c) := p in
  l1 ← try_append g (r <? total_rows g - 1) (r + 1, c) [];
  l2 ← try_append g (0 <? r) (r - 1, c) l1;
  l3 ← try_append g (c <? total_rows g - 1) (r, c + 1) l2;
  try_append g (0 <? c) (r, c - 1) l3.

Definition update_neighbours (g : Grid) (p : pos) : option Grid :=
  l ← compute_neighbours g p;
  Some (mkGrid (total_rows g) (alter (set_neighbours l) p (cells g))).

(** ** [heuristic] *)

Definition heuristic (p1 p2 : pos) : Z :=
  let '(x1, y1) := p1 in
  let '(x2, y2) := p2 in
  Z.abs (x1 - x2) + Z.abs (y1 - y2).

(** ** [create_grid] *)

Definition range (n : Z) : list Z := Z.of_nat <$> seq 0 (Z.to_nat n).

Definition all_positions (rows : Z) : list pos :=
  i ← range rows; j ← range rows; [(i, j)].

Definition create_grid (rows : Z) : Grid :=
  mkGrid rows (list_to_map ((λ p, (p, mkNode WHITE [])) <$> all_positions rows)).

(** The pass of [main] that precedes every search:
    [for row in grid: for node in row: node.update_neighbours(grid)]. *)
Fixpoint update_all (ps : list pos) (g : Grid) : option Grid :=
  match ps with
  | [] => Some g
  | p :: ps' => g' ← update_neighbours g p; update_all ps' g'
  end.

Definition recompute_neighbours (g : Grid) : option Grid :=
  update_all (all_positions (total_rows g)) g.

(** ** Scores: Python numbers that may be [float("inf")] *)

Inductive score := Fin (z : Z) | Inf.

Global Instance score_eq_dec : EqDecision score.
Proof. solve_decision. Defined.

(** [s + z] for an integer [z]: [inf + z] is [inf]. *)
Definition score_add (s : score) (z : Z) : score :=
  match s with Fin a => Fin (a + z) | Inf => Inf end.

(** [a < b]: every integer is below [inf], and [inf < inf] is false. *)
Definition score_ltb (a b : score) : bool :=
  match a, b with
  | Fin x, Fin y => x <? y
  | Fin _, Inf => true
  | Inf, _ => false
  end.

(** ** The priority queue of [(f_score, count, node)] tuples *)

Definition entry : Type := score * Z * pos.

Definition entry_node (e : entry) : pos := e.2.
Definition entry_count (e : entry) : Z := e.1.2.
Definition entry_prio (e : entry) : score := e.1.1.

(** Python's tuple order: the first components that differ decide.  When
    priority and count both agree the nodes are compared, and
    [Node.__lt__] answers [False]. *)
Definition entry_ltb (a b : entry) : bool :=
  score_ltb (entry_prio a) (entry_prio b)
  || (bool_decide (entry_prio a = entry_prio b)
      && (entry_count a <? entry_count b)).

(** [PriorityQueue] is a bag of entries from which [get] takes a least
    one.  The entries are kept in insertion order; the heap layout of the
    library is not modelled. *)
Definition pq_put (e : entry) (q : list entry) : list entry := q ++ [e].

Fixpoint pq_min (m : entry) (q : list entry) : entry :=
  match q with
  | [] => m
  | e :: q' => pq_min (if entry_ltb e m then e else m) q'
  end.

Fixpoint pq_remove (m : entry) (q : list entry) : list entry :=
  match q with
  | [] => []
  | e :: q' => if decide (e = m) then q' else e :: pq_remove m q'
  end.

Definition pq_get (q : list entry) : option (entry * list entry) :=
  match q with
  | [] => None
  | e :: q' => let m := pq_min e q' in Some (m, pq_remove m q)
  end.

(** ** Observable effects of a run *)

Inductive event :=
| EvPut (e : entry)             (* [open_set.put(e)] *)
| EvGet (n : pos)               (* [open_set.get()] returned node [n] *)
| EvMake (c : Color) (n : pos)  (* a colour mutator called on node [n] *)
| EvDraw (g : Grid).            (* [draw()] called while the grid was [g] *)

(** ** Local state of [a_star_algorithm] *)

Record SearchState := mkState {
  grid : Grid;
  count : Z;
  open_set : list entry;
  came_from : gmap pos pos;
  g_score : gmap pos score;
  f_score : gmap pos score;
  open_set_hash : gset pos;
  trace : list event
}.

Definition log (evs : list event) (st : SearchState) : SearchState :=
  mkState (grid st) (count st) (open_set st) (came_from st) (g_score st)
          (f_score st) (open_set_hash st) (trace st ++ evs).

Definition with_grid (g : Grid) (st : SearchState) : SearchState :=
  mkState g (count st) (open_set st) (came_from st) (g_score st)
          (f_score st) (open_set_hash st) (trace st).

(** [n.make_xxx()] on the grid of the state, with its event. *)
Definition mark (c : Color) (n : pos) (st : SearchState) : SearchState :=
  log [EvMake c n] (with_grid (paint c n (grid st)) st).

(** [draw()]. *)
Definition call_draw (st : SearchState) : SearchState :=
  log [EvDraw (grid st)] st.

(** The three assignments
    [came_from[n] = current; g_score[n] = g; f_score[n] = f]. *)
Definition record_scores (n current : pos) (g f : score) (st : SearchState)
  : SearchState :=
  mkState (grid st) (count st) (open_set st)
          (<[n := current]> (came_from st))
          (<[n := g]> (g_score st))
          (<[n := f]> (f_score st))
          (open_set_hash st) (trace st).

(** [count += 1; open_set.put((f, count, n)); open_set_hash.add(n)]. *)
Definition enqueue (f : score) (n : pos) (st : SearchState) : SearchState :=
  let count' := count st + 1 in
  mkState (grid st) count' (pq_put (f, count', n) (open_set st))
          (came_from st) (g_score st) (f_score st)
          ({[n]} ∪ open_set_hash st)
          (trace st ++ [EvPut (f, count', n)]).

(** Body of [for neighbour in current.neighbours]. *)
Definition relax (endp current : pos) (st : SearchState) (neighbour : pos)
  : option SearchState :=
  gc ← g_score st !! current;
  let temp_g_score := score_add gc 1 in
  gn ← g_score st !! neighbour;
  if score_ltb temp_g_score gn then
    let f := score_add temp_g_score (heuristic neighbour endp) in
    let st1 := record_scores neighbour current temp_g_score f st in
    if decide (neighbour ∈ open_set_hash st1) then Some st1
    else Some (mark GREEN neighbour (enqueue f neighbour st1))
  else Some st.

Fixpoint relax_all (endp current : pos) (st : SearchState) (ns : list pos)
  : option SearchState :=
  match ns with
  | [] => Some st
  | n :: ns' => st' ← relax endp current st n; relax_all endp current st' ns'
  end.

(** ** [reconstruct_path] *)

Fixpoint reconstruct_path (fuel : nat) (current : pos) (st : SearchState)
  : option SearchState :=
  match fuel with
  | O => None
  | S fuel' =>
      match came_from st !! current with
      | None => Some st
      | Some prev =>
          n ← cells (grid st) !! prev;
          let st1 := if is_start n then st else mark PURPLE prev st in
          reconstruct_path fuel' prev (call_draw st1)
      end
  end.

(** ** [a_star_algorithm] *)

Definition init_state (g : Grid) (start endp : pos) : SearchState :=
  let inf : gmap pos score := (λ _, Inf) <$> cells g in
  mkState g 0 (pq_put (Fin 0, 0, start) [])
          ∅
          (<[start := Fin 0]> inf)
          (<[start := Fin (heuristic start endp)]> inf)
          {[start]}
          [EvPut (Fin 0, 0, start)].

(** [current = open_set.get()[2]; open_set_hash.remove(current)]. *)
Definition pop (st : SearchState) : option (option (pos * SearchState)) :=
  match pq_get (open_set st) with
  | None => Some None
  | Some (e, q') =>
      let current := entry_node e in
      if decide (current ∈ open_set_hash st) then
        Some (Some (current,
          mkState (grid st) (count st) q' (came_from st) (g_score st)
                  (f_score st) (open_set_hash st ∖ {[current]})
                  (trace st ++ [EvGet current])))
      else None
  end.

(** The part of the loop body that follows the [current == end] test. *)
Definition expand (start endp current : pos) (st : SearchState)
  : option SearchState :=
  ns ← neighbours_of (grid st) current;
  st1 ← relax_all endp current st ns;
  let st2 := call_draw st1 in
  Some (if decide (current = start) then st2 else mark RED current st2).

Fixpoint search_loop (fuel : nat) (start endp : pos) (st : SearchState)
  : option (bool * SearchState) :=
  match fuel with
  | O => None
  | S fuel' =>
      popped ← pop st;
      match popped with
      | None => Some (false, st)
      | Some (current, st1) =>
          if decide (current = endp) then
            st2 ← reconstruct_path fuel' endp st1;
            Some (true, mark BLUE endp st2)
          else
            st2 ← expand start endp current st1;
            search_loop fuel' start endp st2
      end
  end.

Definition a_star_algorithm (fuel : nat) (g : Grid) (start endp : pos)
  : option (bool * SearchState) :=
  search_loop fuel start endp (init_state g start endp).

(** Length of the [came_from] chain from [current], the number of
    iterations [reconstruct_path] makes. *)
Fixpoint chain (fuel : nat) (cf : gmap pos pos) (current : pos)
  : option (list pos) :=
  match fuel with
  | O => None
  | S fuel' =>
      match cf !! current with
      | None => Some []
      | Some prev => (prev ::.) <$> chain fuel' cf prev
      end
  end.

(** States at the head of the [while] loop: the initial one, and the one
    left by an iteration that popped a node other than [end]. *)
Inductive loop_state (g : Grid) (start endp : pos) : SearchState → Prop :=
| loop_init : loop_state g start endp (init_state g start endp)
| loop_next st current st1 st2 :
    loop_state g start endp st →
    pop st = Some (Some (current, st1)) →
    current ≠ endp →
    expand start endp current st1 = Some st2 →
    loop_state g start endp st2.

(** ** Vocabulary of the specification *)

Definition in_bounds (g : Grid) (p : pos) : Prop :=
  0 ≤ p.1 < total_rows g ∧ 0 ≤ p.2 < total_rows g.

Global Instance in_bounds_dec g p : Decision (in_bounds g p).
Proof. unfold in_bounds. apply _. Defined.

(** Down, up, right, left: the order of [update_neighbours]. *)
Definition orthogonal (p : pos) : list pos :=
  [(p.1 + 1, p.2); (p.1 - 1, p.2); (p.1, p.2 + 1); (p.1, p.2 - 1)].

Definition adjacent (a b : pos) : Prop := b ∈ orthogonal a.

Definition barrier_at (g : Grid) (p : pos) : Prop := color_of g p = Some BLACK.

Global Instance barrier_at_dec g p : Decision (barrier_at g p).
Proof. unfold barrier_at. apply _. Defined.

(** The grid has a cell at exactly the positions [0 ≤ r, c < total_rows],
    as [create_grid] builds it. *)
Definition wf_grid (g : Grid) : Prop :=
  ∀ p, is_Some (cells g !! p) ↔ in_bounds g p.

(** Every neighbour list is what [update_neighbours] would compute now. *)
Definition neighbours_up_to_date (g : Grid) : Prop :=
  ∀ p n, cells g !! p = Some n → compute_neighbours g p = Some (neighbours n).

(** One move of a 4-directional walk on the grid: to an orthogonally
    adjacent cell inside the grid that is not a barrier. *)
Definition passable_step (g : Grid) (a b : pos) : Prop :=
  adjacent a b ∧ in_bounds g b ∧ ¬ barrier_at g b.

(** [walk step a l b]: the cells [l] visited after [a], one [step] each,
    end in [b]; [length l] is the number of moves. *)
Fixpoint walk (step : pos → pos → Prop) (a : pos) (l : list pos) (b : pos)
  : Prop :=
  match l with
  | [] => a = b
  | x :: l' => step a x ∧ walk step x l' b
  end.

Definition grid_path (g : Grid) := walk (passable_step g).

(** A move along a stored neighbour list. *)
Definition neighbour_step (g : Grid) (a b : pos) : Prop :=
  ∃ ns, neighbours_of g a = Some ns ∧ b ∈ ns.

(** The neighbour list in the words of the specification: the four
    orthogonal positions, kept when inside the grid and not a barrier. *)
Definition passable_neighbours (g : Grid) (p : pos) : list pos :=
  filter (λ q, in_bounds g q ∧ ¬ barrier_at g q) (orthogonal p).

(** Breadth-first search over the passable moves, one distance layer per
    round.  It is the reference the specification compares the search
    with; the source has no such function. *)
Fixpoint bfs_layers (fuel : nat) (g : Grid) (endp : pos)
    (visited : gset pos) (layer : list pos) (d : nat) : option nat :=
  match fuel with
  | O => None
  | S fuel' =>
      if decide (endp ∈ layer) then Some d
      else match layer with
           | [] => None
           | _ =>
               let next :=
                 remove_dups
                   (filter (λ q, q ∉ visited) (layer ≫= passable_neighbours g)) in
               bfs_layers fuel' g endp (visited ∪ list_to_set next) next (S d)
           end
  end.

Definition bfs_distance (g : Grid) (start endp : pos) : option nat :=
  bfs_layers (size (cells g) + 1) g endp {[start]} [start] 0.

(** Events of a trace, by kind. *)
Definition is_make_of (p : pos) (e : event) : Prop :=
  match e with EvMake _ n => n = p | _ => False end.

Definition is_put_of (p : pos) (e : event) : Prop :=
  match e with EvPut en => entry_node en = p | _ => False end.

Definition is_make_path (e : event) : Prop :=
  match e with EvMake PURPLE _ => True | _ => False end.

Definition is_draw (e : event) : bool :=
  match e with EvDraw _ => true | _ => false end.

Definition is_get (e : event) : bool :=
  match e with EvGet _ => true | _ => false end.

(** Sequence numbers of the [put]s of a trace, in the order they happened,
    and the nodes returned by [get], in the order they were expanded. *)
Definition put_counts (tr : list event) : list Z :=
  omap (λ e, match e with EvPut en => Some (entry_count en) | _ => None end) tr.

Definition expansion_order (tr : list event) : list pos :=
  omap (λ e, match e with EvGet n => Some n | _ => None end) tr.

(** The events of inserting the entries [es]: each [put] is followed at
    once by [make_open] on the node it queued. *)
Definition insertions (es : list entry) : list event :=
  e ← es; [EvPut e; EvMake GREEN (entry_node e)].

(** No [put] and no colour mutator of the trace concerns [p]. *)
Definition untouched (p : pos) (tr : list event) : Prop :=
  Forall (λ ev, ¬ is_put_of p ev ∧ ¬ is_make_of p ev) tr.

(** [p] is the node of some frontier entry. *)
Definition queued (p : pos) (st : SearchState) : Prop :=
  ∃ e, e ∈ open_set st ∧ entry_node e = p.

(** The end cell is either waiting in the frontier or as it was before
    the run. *)
Definition end_inv (g : Grid) (endp : pos) (st : SearchState) : Prop :=
  queued endp st
  ∨ (untouched endp (trace st) ∧ color_of (grid st) endp = color_of g endp).

Global Instance is_put_of_dec p e : Decision (is_put_of p e).
Proof. destruct e; simpl; apply _. Defined.

Global Instance is_make_of_dec p e : Decision (is_make_of p e).
Proof. destruct e; simpl; apply _. Defined.

(** What the loop keeps true of the start cell: score 0, no predecessor,
    queued once (the initial [put]), never the target of a mutator. *)
Definition start_inv (g : Grid) (start : pos) (st : SearchState) : Prop :=
  g_score st !! start = Some (Fin 0)
  ∧ (∀ p z, g_score st !! p = Some (Fin z) → 0 ≤ z)
  ∧ came_from st !! start = None
  ∧ filter (is_put_of start) (trace st) = [EvPut (Fin 0, 0, start)]
  ∧ Forall (λ ev, ¬ is_make_of start ev) (trace st)
  ∧ color_of (grid st) start = color_of g start.

(** The counter numbers the [put]s 0, 1, 2, ...; every frontier entry
    carries the number of the [put] that queued it, no two the same. *)
Definition count_inv (st : SearchState) : Prop :=
  0 ≤ count st
  ∧ put_counts (trace st) = seqZ 0 (count st + 1)
  ∧ Forall (λ e, 0 ≤ entry_count e ≤ count st ∧ EvPut e ∈ trace st)
           (open_set st)
  ∧ NoDup (entry_count <$> open_set st).

(** [p] can be reached from [start] along stored neighbour lists. *)
Definition reachable (g : Grid) (start p : pos) : Prop :=
  ∃ l, walk (neighbour_step g) start l p.

(** [open_set_hash] holds the nodes of the frontier entries, one entry
    per node. *)
Definition hash_inv (st : SearchState) : Prop :=
  open_set_hash st = list_to_set (entry_node <$> open_set st)
  ∧ NoDup (entry_node <$> open_set st).

(** [reconstruct_path] has not run: nothing was painted purple. *)
Definition no_path_marks (g : Grid) (st : SearchState) : Prop :=
  Forall (λ ev, ¬ is_make_path ev) (trace st)
  ∧ (∀ p, color_of (grid st) p = Some PURPLE → color_of g p = Some PURPLE).

Global Instance adjacent_dec a b : Decision (adjacent a b).
Proof. unfold adjacent. apply _. Defined.

Global Instance passable_step_dec g a b : Decision (passable_step g a b).
Proof. unfold passable_step. apply _. Defined.

Global Instance walk_dec (step : pos → pos → Prop)
    `{!∀ a b, Decision (step a b)} a l b : Decision (walk step a l b).
Proof. revert a. induction l as [|x l IH]; intros a; simpl; apply _. Defined.

(** ** Termination measure of the search loop *)

Definition inf_weight (s : score) : nat :=
  match s with Inf => 1%nat | Fin _ => 0%nat end.

Definition fin_weight (s : score) : nat :=
  match s with Inf => 0%nat | Fin z => Z.to_nat z end.

Definition total_weight (w : score → nat) (m : gmap pos score) : nat :=
  sum_list_with (λ kv, w kv.2) (map_to_list m).

(** Number of cells still at [inf], then the sum of the finite gScores
    plus the size of the frontier: an iteration of the loop lowers this
    pair in the lexicographic order. *)
Definition measure (st : SearchState) : nat * nat :=
  (total_weight inf_weight (g_score st),
   (total_weight fin_weight (g_score st) + length (open_set st))%nat).

Definition lex_le (x y : nat * nat) : Prop :=
  (x.1 < y.1 ∨ (x.1 = y.1 ∧ x.2 ≤ y.2))%nat.

Definition lex_lt (x y : nat * nat) : Prop :=
  (x.1 < y.1 ∨ (x.1 = y.1 ∧ x.2 < y.2))%nat.

Definition nonneg_scores (st : SearchState) : Prop :=
  ∀ p z, g_score st !! p = Some (Fin z) → 0 ≤ z.

(** ** Example grids *)

Definition barriers_from (g : Grid) (bs : list pos) : Grid :=
  foldr make_barrier g bs.

(** The 50 by 50 grid of [main] with a walled-off block in its top left
    corner; [#] barrier, [S] start, [E] end.  Rows 0 to 8, columns 0 to 4:
<<
      # . S . #
      # . # . #
      . . . . #
      . # . . #
      . # # . #
      . . . . #
      # # . # #
      E . . # #
      # # # # #
>> *)
Definition detour_barriers : list pos :=
  [(0,0); (1,0); (1,2); (3,1); (4,1); (4,2); (6,0); (6,1); (6,3); (7,3)]
  ++ ((λ i, (i, 4)) <$> range 9) ++ ((λ j, (8, j)) <$> range 4).

Definition detour_grid_painted : Grid :=
  barriers_from (make_end (7,0) (make_start (0,2) (create_grid 50)))
                detour_barriers.

Definition detour_short_path : list pos :=
  [(0,3); (1,3); (2,3); (3,3); (4,3); (5,3); (5,2); (6,2); (7,2); (7,1); (7,0)].

(** The grid as [main] hands it to the search: after the neighbour pass. *)
Definition ready (g : Grid) : Grid := default g (recompute_neighbours g).

(** A 3 by 3 grid whose start corner [(0,0)] is walled in. *)
Definition enclosed_grid_painted : Grid :=
  barriers_from (make_end (2,2) (make_start (0,0) (create_grid 3)))
                [(0,1); (1,0)].

(** A 3 by 3 grid without barriers. *)
Definition open_grid_painted : Grid :=
  make_end (2,2) (make_start (0,0) (create_grid 3)).

(** What the loop keeps true of the frontier: a cell that has a gScore
    is the start or a cell of the grid, and every queued cell other than
    the start is green. *)
Definition frontier_open (start : pos) (st : SearchState) : Prop :=
  (∀ p, is_Some (g_score st !! p) →
        p = start ∨ is_Some (cells (grid st) !! p))
  ∧ (∀ e, e ∈ open_set st → entry_node e ≠ start →
          color_of (grid st) (entry_node e) = Some GREEN).

(** ** Further invariants of the search state *)


(** The gScore of [p] is an integer. *)
Definition finite_at (gs : gmap pos score) (p : pos) : Prop :=
  ∃ z, gs !! p = Some (Fin z).



(** The predecessor map is a tree rooted at [start] along the neighbour
    lists: every finite gScore is the length of a walk from [start], a
    predecessor has the cell in its neighbour list and a gScore lower by
    at least 1, and every cell with a finite gScore other than [start]
    has a predecessor. *)
Definition tree_inv (g : Grid) (start : pos) (st : SearchState) : Prop :=
  (∀ n z, g_score st !! n = Some (Fin z) →
      ∃ l, walk (neighbour_step g) start l n ∧ Z.of_nat (length l) = z)
  ∧ (∀ n p, came_from st !! n = Some p →
      neighbour_step g p n
      ∧ ∃ zp zn, g_score st !! p = Some (Fin zp)
                 ∧ g_score st !! n = Some (Fin zn) ∧ zp + 1 ≤ zn)
  ∧ (∀ n z, g_score st !! n = Some (Fin z) →
      n = start ∨ is_Some (came_from st !! n)).

(** Colours left by [reconstruct_path] when it walks the cells [l]: a
    cell of [l] becomes purple unless it is pink, other cells keep their
    colour. *)
Definition path_colours (l : list pos) (g : Grid) (p : pos) : option Color :=
  if decide (p ∈ l) then
    match color_of g p with
    | Some PINK => Some PINK
    | Some _ => Some PURPLE
    | None => None
    end
  else color_of g p.

(** A walk read backwards: [l] lists the cells after [a], each having the
    previous one in its neighbour list. *)
Definition back_step (g : Grid) (a b : pos) : Prop := neighbour_step g b a.

(** The cells from [start] to [endp] in walking order, given the
    predecessor chain [l] read from [endp] back to [start]. *)
Definition forward_path (endp : pos) (l : list pos) : list pos :=
  tail (reverse (endp :: l)).

(** A cell that has a predecessor has been painted by the search: it is
    green or red; and every node of [open_set_hash] except the start has
    a predecessor. *)
Definition discovered_inv (start : pos) (st : SearchState) : Prop :=
  (∀ n c, is_Some (came_from st !! n) → color_of (grid st) n = Some c →
          c = GREEN ∨ c = RED)
  ∧ (∀ m, m ∈ open_set_hash st → m = start ∨ is_Some (came_from st !! m)).

(** The loop repaints cells green or red only. *)
Definition painted_inv (g : Grid) (st : SearchState) : Prop :=
  ∀ p c, color_of (grid st) p = Some c →
         color_of g p = Some c ∨ c = GREEN ∨ c = RED.

(** The loop paints no barrier and no cell outside the neighbour lists:
    the barriers stay where they were. *)
Definition barrier_inv (g : Grid) (start : pos) (st : SearchState) : Prop :=
  total_rows (grid st) = total_rows g
  ∧ (∀ p, barrier_at (grid st) p ↔ barrier_at g p)
  ∧ Forall (λ e, entry_node e = start ∨ ¬ barrier_at g (entry_node e))
           (open_set st).

(** ** Pixels and cells *)

(** Python's [a // b]: the floor of the quotient, [ZeroDivisionError]
    when [b] is [0]. *)
Definition floordiv (a b : Z) : option Z :=
  if decide (b = 0) then None else Some (Z.div a b).

(** [get_clicked_pos(pos, rows, width)]. *)
Definition get_clicked_pos (pos : Z * Z) (rows width : Z) : option (Z * Z) :=
  gap ← floordiv width rows;
  let '(y, x) := pos in
  row ← floordiv y gap;
  col ← floordiv x gap;
  Some (row, col).

(** The pixel fields [Node.__init__] computes from the gap that
    [create_grid] passes as [width], and the square
    [(x, y, width, width)] that [Node.draw] fills. *)
Definition node_x (gap : Z) (p : pos) : Z := p.1 * gap.
Definition node_y (gap : Z) (p : pos) : Z := p.2 * gap.

Definition in_node_rect (gap : Z) (p : pos) (px : Z * Z) : Prop :=
  node_x gap p ≤ px.1 < node_x gap p + gap
  ∧ node_y gap p ≤ px.2 < node_y gap p + gap.

(** [create_grid(rows, width)] with its division [gap = width // rows];
    the gap only reaches the pixel fields of the nodes, which are
    [node_x] and [node_y] above. *)
Definition create_grid_w (rows width : Z) : option Grid :=
  _ ← floordiv width rows;
  Some (create_grid rows).

(** ** The event loop of [main] *)

(** [lst[i]] for a list of length [n]: Python counts a negative index
    from the end and raises [IndexError] outside [[-n, n)].  In [main]
    the indices come from the mouse, so the wrap-around is modelled. *)
Definition py_index (n i : Z) : option Z :=
  if decide (0 ≤ i < n) then Some i
  else if decide (- n ≤ i < 0) then Some (i + n)
  else None.

(** [grid[row][col]]. *)
Definition node_at (g : Grid) (row col : Z) : option pos :=
  r ← py_index (total_rows g) row;
  c ← py_index (total_rows g) col;
  _ ← cells g !! (r, c);
  Some (r, c).

Inductive Key := K_SPACE | K_r | K_other.

Inductive EventType :=
| QUIT
| KEYDOWN (key : Key)
| MOUSEBUTTONDOWN (button : Z)
| OTHER.

(** What one iteration of [for event in pygame.event.get()] reads from
    pygame: the event, element [0] of the first
    [pygame.mouse.get_pressed()] and element [2] of the second, and the
    results of [pygame.mouse.get_pos()] in the click branches and in the
    button branch. *)
Record Input := mkInput {
  ev_type : EventType;
  pressed_left : bool;
  pressed_right : bool;
  click_pos : Z * Z;
  button_pos : Z * Z
}.

(** The local variables of [main]. *)
Record App := mkApp {
  app_grid : Grid;
  start_node : option pos;
  end_node : option pos;
  run : bool;
  started : bool;
  path_found : bool
}.

(** [rows = 50]. *)
Definition main_rows : Z := 50.

(** The three assignments that follow [grid = create_grid(rows, width)]
    in both reset branches. *)
Definition restart (width : Z) (a : App) : option App :=
  g ← create_grid_w main_rows width;
  Some (mkApp g None None (run a) false false).

(** The branch [if pygame.mouse.get_pressed()[0]]. *)
Definition left_click (width : Z) (mpos : Z * Z) (a : App) : option App :=
  rc ← get_clicked_pos mpos main_rows width;
  node ← node_at (app_grid a) rc.1 rc.2;
  if decide (start_node a = None ∧ Some node ≠ end_node a) then
    Some (mkApp (make_start node (app_grid a)) (Some node) (end_node a)
                (run a) (started a) (path_found a))
  else if decide (end_node a = None ∧ Some node ≠ start_node a) then
    Some (mkApp (make_end node (app_grid a)) (start_node a) (Some node)
                (run a) (started a) (path_found a))
  else if decide (Some node ≠ end_node a ∧ Some node ≠ start_node a) then
    Some (mkApp (make_barrier node (app_grid a)) (start_node a) (end_node a)
                (run a) (started a) (path_found a))
  else Some a.

(** The branch [elif pygame.mouse.get_pressed()[2]]. *)
Definition right_click (width : Z) (mpos : Z * Z) (a : App) : option App :=
  rc ← get_clicked_pos mpos main_rows width;
  node ← node_at (app_grid a) rc.1 rc.2;
  let g := reset node (app_grid a) in
  if decide (Some node = start_node a) then
    Some (mkApp g None (end_node a) (run a) (started a) (path_found a))
  else if decide (Some node = end_node a) then
    Some (mkApp g (start_node a) None (run a) (started a) (path_found a))
  else
    Some (mkApp g (start_node a) (end_node a) (run a) (started a)
                (path_found a)).

(** The branch [if event.type == pygame.KEYDOWN]. *)
Definition on_keydown (fuel : nat) (width : Z) (key : Key) (a : App)
  : option App :=
  match key with
  | K_SPACE =>
      match start_node a, end_node a with
      | Some s, Some e =>
          g ← recompute_neighbours (app_grid a);
          r ← a_star_algorithm fuel g s e;
          Some (mkApp (grid r.2) (Some s) (Some e) (run a) true r.1)
      | _, _ => Some a
      end
  | K_r => restart width a
  | K_other => Some a
  end.

(** The two buttons drawn once a path has been found. *)
Definition on_button (width : Z) (mpos : Z * Z) (a : App) : option App :=
  if decide (240 ≤ mpos.1 ≤ 360 ∧ 570 ≤ mpos.2 ≤ 630) then restart width a
  else if decide (440 ≤ mpos.1 ≤ 560 ∧ 570 ≤ mpos.2 ≤ 630) then
    Some (mkApp (app_grid a) (start_node a) (end_node a) false (started a)
                (path_found a))
  else Some a.

(** The body of [for event in pygame.event.get()]. *)
Definition handle_event (fuel : nat) (width : Z) (i : Input) (a : App)
  : option App :=
  let a0 := match ev_type i with
            | QUIT => mkApp (app_grid a) (start_node a) (end_node a) false
                            (started a) (path_found a)
            | _ => a
            end in
  if started a0 && negb (path_found a0) then Some a0
  else
    a1 ← (if pressed_left i then left_click width (click_pos i) a0
          else if pressed_right i then right_click width (click_pos i) a0
          else Some a0);
    a2 ← match ev_type i with
         | KEYDOWN key => on_keydown fuel width key a1
         | _ => Some a1
         end;
    if path_found a2 then
      match ev_type i with
      | MOUSEBUTTONDOWN button =>
          if decide (button = 1) then on_button width (button_pos i) a2
          else Some a2
      | _ => Some a2
      end
    else Some a2.

Fixpoint handle_events (fuel : nat) (width : Z) (evs : list Input) (a : App)
  : option App :=
  match evs with
  | [] => Some a
  | i :: evs' => a' ← handle_event fuel width i a;
                 handle_events fuel width evs' a'
  end.

(** [while run:] over the successive results of [pygame.event.get()],
    up to the last batch given. *)
Fixpoint main_loop (fuel : nat) (width : Z) (batches : list (list Input))
    (a : App) : option App :=
  match batches with
  | [] => Some a
  | evs :: batches' =>
      if run a then
        a' ← handle_events fuel width evs a;
        main_loop fuel width batches' a'
      else Some a
  end.

Definition main (fuel : nat) (width : Z) (batches : list (list Input))
  : option App :=
  g ← create_grid_w main_rows width;
  main_loop fuel width batches (mkApp g None None true false false).

(** What [main] keeps true of its variables: the grid has its 50 by 50
    cells, the pink cell is [start_node], the blue cell is [end_node],
    and [path_found] is only set once [started] is. *)
Definition app_inv (a : App) : Prop :=
  wf_grid (app_grid a)
  ∧ total_rows (app_grid a) = main_rows
  ∧ (∀ p, color_of (app_grid a) p = Some PINK ↔ start_node a = Some p)
  ∧ (∀ p, color_of (app_grid a) p = Some BLUE ↔ end_node a = Some p)
  ∧ (path_found a = true → started a = true).

(** A mouse position over the grid: both coordinates in
    [[0, gap * rows)]. *)
Definition over_grid (width : Z) (mpos : Z * Z) : Prop :=
  0 ≤ mpos.1 < Z.div width main_rows * main_rows
  ∧ 0 ≤ mpos.2 < Z.div width main_rows * main_rows.

(** When the event reads the mouse position for a click, the position is
    over the grid. *)
Definition clicks_over_grid (width : Z) (i : Input) : Prop :=
  pressed_left i || pressed_right i = true → over_grid width (click_pos i).

(** [main] ignores every event but [QUIT]: a search has run and found
    nothing. *)
Definition frozen (a : App) : Prop :=
  started a = true ∧ path_found a = false.

(** * Properties *)

(** ** The heuristic *)

Lemma heuristic_step a b x : adjacent a x → heuristic a b ≤ 1 + heuristic x b.
Proof.
  destruct a as [r c], b as [r2 c2], x as [r1 c1].
  unfold adjacent, orthogonal; simpl.
  rewrite !elem_of_cons, elem_of_nil.
  intros [H|[H|[H|[H|[]]]]]; inversion H; subst; lia.
Qed.

(** C5: [heuristic] is the Manhattan distance of its two arguments, and
    no 4-directional walk between two cells, barriers aside, is shorter
    than it. *)
Theorem heuristic_manhattan_admissible :
  (∀ r1 c1 r2 c2 : Z,
      heuristic (r1, c1) (r2, c2) = Z.abs (r1 - r2) + Z.abs (c1 - c2))
  ∧ (∀ (a b : pos) (l : list pos),
        walk adjacent a l b → heuristic a b ≤ Z.of_nat (length l)).
Proof.
  split; [reflexivity|].
  intros a b l; revert a.
  induction l as [|x l IH]; intros a; simpl.
  - intros <-. destruct a as [r c]; simpl; lia.
  - intros [Hax Hw]. specialize (IH _ Hw).
    pose proof (heuristic_step a b x Hax). lia.
Qed.

Lemma heuristic_manhattan_admissible_witness :
  walk adjacent (0,0) [(0,1); (1,1); (1,2)] (1,2)
  ∧ heuristic (0,0) (1,2) ≤ Z.of_nat (length [(0,1); (1,1); (1,2)]).
Proof.
  assert (Hw : walk adjacent (0,0) [(0,1); (1,1); (1,2)] (1,2)).
  { simpl; unfold adjacent, orthogonal; simpl.
    repeat split; rewrite !elem_of_cons; auto 10. }
  split; [exact Hw|].
  exact (proj2 heuristic_manhattan_admissible _ _ _ Hw).
Defined.

(** ** Neighbour lists *)

Lemma try_append_wf g inb q acc :
  wf_grid g →
  (inb = true ↔ in_bounds g q) →
  try_append g inb q acc =
    Some (acc ++ filter (λ q, in_bounds g q ∧ ¬ barrier_at g q) [q]).
Proof.
  intros Hwf Hinb. unfold try_append.
  destruct inb.
  - assert (Hb : in_bounds g q) by (apply Hinb; reflexivity).
    destruct (proj2 (Hwf q) Hb) as [n Hn]. rewrite Hn; simpl.
    assert (Hbar : barrier_at g q ↔ color n = BLACK).
    { unfold barrier_at, color_of. rewrite Hn; simpl.
      split; [by intros [= ->]|by intros ->]. }
    unfold is_barrier. rewrite filter_cons, filter_nil.
    destruct (decide (color n = BLACK)) as [e|ne].
    + rewrite bool_decide_eq_true_2 by done.
      rewrite decide_False; [by rewrite app_nil_r|]. tauto.
    + rewrite bool_decide_eq_false_2 by done.
      rewrite decide_True; [done|]. tauto.
  - rewrite filter_cons, filter_nil.
    rewrite decide_False; [by rewrite app_nil_r|].
    intros [Hb _]. apply Hinb in Hb. discriminate.
Qed.

Lemma compute_neighbours_wf g p :
  wf_grid g → in_bounds g p →
  compute_neighbours g p = Some (passable_neighbours g p).
Proof.
  intros Hwf Hp. destruct p as [r c].
  unfold in_bounds in Hp; simpl in Hp.
  unfold compute_neighbours, passable_neighbours, orthogonal; simpl.
  rewrite (try_append_wf g _ (r + 1, c) []); [simpl|done|]; cycle 1.
  { rewrite Z.ltb_lt. unfold in_bounds; simpl. lia. }
  rewrite (try_append_wf g _ (r - 1, c)); [simpl|done|]; cycle 1.
  { rewrite Z.ltb_lt. unfold in_bounds; simpl. lia. }
  rewrite (try_append_wf g _ (r, c + 1)); [simpl|done|]; cycle 1.
  { rewrite Z.ltb_lt. unfold in_bounds; simpl. lia. }
  rewrite (try_append_wf g _ (r, c - 1)); [|done|]; cycle 1.
  { rewrite Z.ltb_lt. unfold in_bounds; simpl. lia. }
  f_equal.
  change [(r + 1, c); (r - 1, c); (r, c + 1); (r, c - 1)]
    with ([(r + 1, c)] ++ [(r - 1, c)] ++ [(r, c + 1)] ++ [(r, c - 1)]).
  rewrite !filter_app, !app_assoc. reflexivity.
Qed.

Lemma color_of_set_neighbours g l p q :
  color_of (mkGrid (total_rows g) (alter (set_neighbours l) p (cells g))) q
  = color_of g q.
Proof.
  unfold color_of; simpl.
  destruct (decide (p = q)) as [->|Hne].
  - rewrite lookup_alter_eq. by destruct (cells g !! q).
  - by rewrite lookup_alter_ne.
Qed.

Lemma neighbours_of_set_neighbours g l p :
  is_Some (cells g !! p) →
  neighbours_of (mkGrid (total_rows g) (alter (set_neighbours l) p (cells g))) p
  = Some l.
Proof.
  intros [n Hn]. unfold neighbours_of; simpl.
  rewrite lookup_alter_eq, Hn. reflexivity.
Qed.

(** C7: on a cell of a well-formed grid, [update_neighbours] succeeds and
    leaves as neighbour list exactly the orthogonally adjacent positions,
    in the order down, up, right, left, that lie inside the grid and are
    not barriers: at most four, none outside the grid, none a barrier. *)
Theorem update_neighbours_exact (g : Grid) (p : pos) :
  wf_grid g → in_bounds g p →
  ∃ g', update_neighbours g p = Some g'
    ∧ neighbours_of g' p = Some (passable_neighbours g p)
    ∧ (∀ q, q ∈ passable_neighbours g p
            ↔ adjacent p q ∧ in_bounds g q ∧ ¬ barrier_at g q)
    ∧ (length (passable_neighbours g p) ≤ 4)%nat
    ∧ (∀ q, color_of g' q = color_of g q).
Proof.
  intros Hwf Hp.
  unfold update_neighbours. rewrite (compute_neighbours_wf g p Hwf Hp); simpl.
  eexists; split; [reflexivity|].
  split; [apply neighbours_of_set_neighbours, Hwf, Hp|].
  split; [|split].
  - intros q. unfold passable_neighbours, adjacent.
    rewrite list_elem_of_filter. tauto.
  - unfold passable_neighbours.
    etransitivity; [apply length_filter|]. reflexivity.
  - intros q. apply color_of_set_neighbours.
Qed.

(** Grids built by [create_grid] and edited by the colour mutators. *)

Lemma elem_of_range n i : i ∈ range n ↔ 0 ≤ i < n.
Proof.
  unfold range. rewrite list_elem_of_fmap. split.
  - intros (k & -> & Hk). apply elem_of_seq in Hk. lia.
  - intros Hi. exists (Z.to_nat i). split; [lia|].
    apply elem_of_seq. lia.
Qed.

Lemma elem_of_all_positions rows p :
  p ∈ all_positions rows ↔ 0 ≤ p.1 < rows ∧ 0 ≤ p.2 < rows.
Proof.
  unfold all_positions. rewrite list_elem_of_bind. split.
  - intros (i & Hp & Hi). apply list_elem_of_bind in Hp as (j & Hp & Hj).
    apply list_elem_of_singleton in Hp as ->.
    apply elem_of_range in Hi, Hj. done.
  - intros [H1 H2]. exists p.1. split; [|by apply elem_of_range].
    apply list_elem_of_bind. exists p.2. split; [|by apply elem_of_range].
    destruct p; simpl. apply list_elem_of_singleton. done.
Qed.

Lemma wf_create_grid rows : wf_grid (create_grid rows).
Proof.
  intros p. unfold in_bounds, create_grid; simpl.
  rewrite <- elem_of_all_positions.
  rewrite <- not_eq_None_Some, <- not_elem_of_list_to_map.
  rewrite <- list_fmap_compose.
  replace (fst ∘ (λ p0 : pos, (p0, mkNode WHITE []))) with (@id pos) by done.
  rewrite list_fmap_id.
  split; [apply dec_stable|]. tauto.
Qed.

Lemma wf_paint c p g : wf_grid g → wf_grid (paint c p g).
Proof.
  intros Hwf q. unfold in_bounds, paint; simpl.
  rewrite <- (Hwf q).
  destruct (decide (p = q)) as [->|Hne].
  - rewrite lookup_alter_eq. rewrite fmap_is_Some. done.
  - rewrite lookup_alter_ne by done. done.
Qed.

Lemma wf_barriers_from g bs : wf_grid g → wf_grid (barriers_from g bs).
Proof.
  intros Hwf. induction bs as [|b bs IH]; simpl; [done|].
  by apply wf_paint.
Qed.

Lemma update_neighbours_Some g p g' :
  update_neighbours g p = Some g' →
  ∃ l, compute_neighbours g p = Some l
        ∧ g' = mkGrid (total_rows g) (alter (set_neighbours l) p (cells g)).
Proof.
  unfold update_neighbours. destruct (compute_neighbours g p) as [l|]; simpl.
  - intros [= <-]. eauto.
  - discriminate.
Qed.

Lemma wf_update_neighbours g p g' :
  wf_grid g → update_neighbours g p = Some g' → wf_grid g'.
Proof.
  intros Hwf (l & _ & ->)%update_neighbours_Some q.
  unfold in_bounds; simpl. rewrite <- (Hwf q).
  destruct (decide (p = q)) as [->|Hne].
  - rewrite lookup_alter_eq. rewrite fmap_is_Some. done.
  - rewrite lookup_alter_ne by done. done.
Qed.

Lemma update_neighbours_exact_witness :
  wf_grid enclosed_grid_painted ∧ in_bounds enclosed_grid_painted (1,1)
  ∧ ∃ g', update_neighbours enclosed_grid_painted (1,1) = Some g'
    ∧ neighbours_of g' (1,1) = Some [(2,1); (1,2)].
Proof.
  assert (Hwf : wf_grid enclosed_grid_painted).
  { apply wf_barriers_from, wf_paint, wf_paint, wf_create_grid. }
  assert (Hin : in_bounds enclosed_grid_painted (1,1)).
  { unfold in_bounds; simpl; lia. }
  split; [exact Hwf|]. split; [exact Hin|].
  destruct (update_neighbours_exact _ _ Hwf Hin) as (g' & Hu & Hn & _).
  exists g'. split; [exact Hu|]. exact Hn.
Defined.

(** [compute_neighbours] reads the size of the grid and the colours only. *)
Lemma try_append_ext g g' inb q acc :
  color_of g' q = color_of g q →
  try_append g' inb q acc = try_append g inb q acc.
Proof.
  unfold try_append, color_of, is_barrier. intros Hc.
  destruct inb; [|done].
  destruct (cells g' !! q) as [n'|], (cells g !! q) as [n|];
    simpl in *; try done.
  by injection Hc as ->.
Qed.

Lemma compute_neighbours_ext g g' p :
  total_rows g' = total_rows g →
  (∀ q, color_of g' q = color_of g q) →
  compute_neighbours g' p = compute_neighbours g p.
Proof.
  intros Ht Hc. destruct p as [r c]. unfold compute_neighbours.
  rewrite Ht.
  rewrite (try_append_ext g g' _ (r + 1, c)) by apply Hc.
  destruct (try_append g _ (r + 1, c) []) as [l1|]; simpl; [|done].
  rewrite (try_append_ext g g' _ (r - 1, c)) by apply Hc.
  destruct (try_append g _ (r - 1, c) l1) as [l2|]; simpl; [|done].
  rewrite (try_append_ext g g' _ (r, c + 1)) by apply Hc.
  destruct (try_append g _ (r, c + 1) l2) as [l3|]; simpl; [|done].
  apply try_append_ext, Hc.
Qed.

(** C8: calling [update_neighbours] a second time on a cell, nothing
    having been edited in between, changes nothing: the second call
    returns the grid the first one produced, neighbour list included. *)
Theorem update_neighbours_idempotent (g g1 : Grid) (p : pos) :
  update_neighbours g p = Some g1 →
  update_neighbours g1 p = Some g1
  ∧ (∀ g2, update_neighbours g1 p = Some g2 →
           neighbours_of g2 p = neighbours_of g1 p).
Proof.
  intros (l & Hl & ->)%update_neighbours_Some.
  assert (Hsame : update_neighbours
            (mkGrid (total_rows g) (alter (set_neighbours l) p (cells g))) p
          = Some (mkGrid (total_rows g) (alter (set_neighbours l) p (cells g)))).
  { unfold update_neighbours.
    rewrite (compute_neighbours_ext g); [|done|apply color_of_set_neighbours].
    rewrite Hl; simpl. do 2 f_equal.
    rewrite alter_alter_eq. apply alter_ext. by intros [??] _. }
  split; [exact Hsame|].
  intros g2 H2. rewrite Hsame in H2. by injection H2 as <-.
Qed.

Lemma update_neighbours_idempotent_witness :
  ∃ g1, update_neighbours open_grid_painted (1,1) = Some g1
        ∧ update_neighbours g1 (1,1) = Some g1.
Proof.
  destruct (update_neighbours open_grid_painted (1,1)) as [g1|] eqn:H1;
    [|vm_compute in H1; discriminate].
  exists g1. split; [reflexivity|].
  exact (proj1 (update_neighbours_idempotent _ _ _ H1)).
Defined.

(** ** One relaxation *)



(** ** Shape of the loop body *)

Lemma relax_inv endp current st neighbour st' :
  relax endp current st neighbour = Some st' →
  ∃ gc gn, g_score st !! current = Some gc
    ∧ g_score st !! neighbour = Some gn
    ∧ ((score_ltb (score_add gc 1) gn = false ∧ st' = st)
       ∨ (score_ltb (score_add gc 1) gn = true
          ∧ neighbour ∈ open_set_hash st
          ∧ st' = record_scores neighbour current (score_add gc 1)
                    (score_add (score_add gc 1) (heuristic neighbour endp)) st)
       ∨ (score_ltb (score_add gc 1) gn = true
          ∧ (neighbour ∉ open_set_hash st)
          ∧ st' = mark GREEN neighbour
                    (enqueue (score_add (score_add gc 1)
                                        (heuristic neighbour endp)) neighbour
                       (record_scores neighbour current (score_add gc 1)
                          (score_add (score_add gc 1)
                                     (heuristic neighbour endp)) st)))).
Proof.
  unfold relax.
  destruct (g_score st !! current) as [gc|]; simpl; [|discriminate].
  destruct (g_score st !! neighbour) as [gn|]; simpl; [|discriminate].
  intros H. exists gc, gn. split; [done|]. split; [done|].
  destruct (score_ltb (score_add gc 1) gn).
  - destruct (decide _) as [Hin|Hnin]; injection H as <-.
    + right; left. done.
    + right; right. done.
  - injection H as <-. by left.
Qed.

Lemma relax_all_preserves (P : SearchState → Prop) endp current ns :
  (∀ st n st', n ∈ ns → P st → relax endp current st n = Some st' → P st') →
  ∀ st st', P st → relax_all endp current st ns = Some st' → P st'.
Proof.
  induction ns as [|n ns IH]; intros Hstep st st' HP; simpl.
  - by intros [= <-].
  - destruct (relax endp current st n) as [st1|] eqn:Hr; simpl; [|discriminate].
    apply IH.
    + intros ???? ; apply Hstep. by right.
    + eapply Hstep; [by left|done|done].
Qed.

Lemma pop_Some st current st1 :
  pop st = Some (Some (current, st1)) →
  ∃ e q', pq_get (open_set st) = Some (e, q')
    ∧ current = entry_node e
    ∧ current ∈ open_set_hash st
    ∧ st1 = mkState (grid st) (count st) q' (came_from st) (g_score st)
                    (f_score st) (open_set_hash st ∖ {[current]})
                    (trace st ++ [EvGet current]).
Proof.
  unfold pop. destruct (pq_get (open_set st)) as [[e q']|]; [|discriminate].
  destruct (decide _) as [Hin|]; [|discriminate].
  intros [= <- <-]. exists e, q'. done.
Qed.

Lemma pop_None st :
  pop st = Some None → open_set st = [].
Proof.
  unfold pop, pq_get. destruct (open_set st) as [|e q]; [done|].
  destruct (decide _); discriminate.
Qed.

Lemma expand_Some start endp current st st2 :
  expand start endp current st = Some st2 →
  ∃ ns st', neighbours_of (grid st) current = Some ns
    ∧ relax_all endp current st ns = Some st'
    ∧ st2 = if decide (current = start) then call_draw st'
            else mark RED current (call_draw st').
Proof.
  unfold expand.
  destruct (neighbours_of (grid st) current) as [ns|]; simpl; [|discriminate].
  destruct (relax_all endp current st ns) as [st'|] eqn:Hrel; simpl;
    [|discriminate].
  intros [= <-]. exists ns, st'. done.
Qed.

Lemma insertions_app es1 es2 :
  insertions (es1 ++ es2) = insertions es1 ++ insertions es2.
Proof. unfold insertions. apply bind_app. Qed.

Lemma relax_all_insertions endp current ns st st' :
  relax_all endp current st ns = Some st' →
  ∃ es, trace st' = trace st ++ insertions es
        ∧ open_set st' = open_set st ++ es.
Proof.
  apply (relax_all_preserves
    (λ s, ∃ es, trace s = trace st ++ insertions es
                ∧ open_set s = open_set st ++ es)).
  - intros s n s' _ (es & Htr & Hq) (gc & gn & _ & _ & Hcase)%relax_inv.
    destruct Hcase as [[_ ->]|[(_ & _ & ->)|(_ & _ & ->)]].
    + eauto.
    + exists es. done.
    + exists (es ++ [(score_add (score_add gc 1) (heuristic n endp),
                      count s + 1, n)]).
      simpl. rewrite Htr, Hq, insertions_app. unfold pq_put.
      rewrite <- !app_assoc. split; reflexivity.
  - exists []. simpl. by rewrite !app_nil_r.
Qed.

Lemma filter_insertions (P : event → bool) es :
  (∀ e c n, P (EvPut e) = false ∧ P (EvMake c n) = false) →
  filter P (insertions es) = [].
Proof.
  intros HP. induction es as [|e es IH]; [done|].
  change (insertions (e :: es))
    with ([EvPut e; EvMake GREEN (entry_node e)] ++ insertions es).
  rewrite filter_app, IH, app_nil_r.
  rewrite filter_cons, decide_False; cycle 1.
  { destruct (HP e GREEN (entry_node e)) as [H _]. rewrite H. intros []. }
  rewrite filter_cons, decide_False; [done|].
  destruct (HP e GREEN (entry_node e)) as [_ H]. rewrite H. intros [].
Qed.

Lemma expansion_trace start endp st current st1 st2 :
  pop st = Some (Some (current, st1)) →
  expand start endp current st1 = Some st2 →
  ∃ ns st' es,
    neighbours_of (grid st) current = Some ns
    ∧ relax_all endp current st1 ns = Some st'
    ∧ open_set st2 = open_set st1 ++ es
    ∧ trace st2 = trace st ++ [EvGet current] ++ insertions es
                  ++ [EvDraw (grid st')]
                  ++ (if decide (current = start) then []
                      else [EvMake RED current])
    ∧ grid st2 = (if decide (current = start) then grid st'
                  else make_closed current (grid st')).
Proof.
  intros (e & q' & _ & _ & _ & Hst1)%pop_Some
         (ns & st' & Hns & Hrel & ->)%expand_Some.
  destruct (relax_all_insertions _ _ _ _ _ Hrel) as (es & Htr & Hq).
  exists ns, st', es.
  split; [by rewrite Hst1 in Hns|]. split; [done|].
  destruct (decide (current = start)); simpl; rewrite Htr, Hq;
    rewrite Hst1; simpl; rewrite <- !app_assoc; simpl; done.
Qed.

Lemma loop_state_draws_gets g start endp st :
  loop_state g start endp st →
  length (filter is_draw (trace st)) = length (filter is_get (trace st)).
Proof.
  induction 1 as [|st current st1 st2 _ IH Hpop _ Hexp]; [done|].
  destruct (expansion_trace _ _ _ _ _ _ Hpop Hexp)
    as (ns & st' & es & _ & _ & _ & -> & _).
  rewrite !filter_app, !length_app.
  rewrite !filter_insertions by done.
  destruct (decide (current = start)); simpl; lia.
Qed.

(** ** The priority queue *)

Lemma score_ltb_irrefl a : score_ltb a a = false.
Proof. destruct a; simpl; [apply Z.ltb_irrefl|done]. Qed.

Lemma score_ltb_trans a b c :
  score_ltb a b = true → score_ltb b c = true → score_ltb a c = true.
Proof.
  destruct a, b, c; simpl; try done.
  rewrite !Z.ltb_lt. lia.
Qed.

Lemma entry_ltb_irrefl e : entry_ltb e e = false.
Proof.
  unfold entry_ltb. rewrite score_ltb_irrefl, Z.ltb_irrefl.
  by rewrite andb_false_r.
Qed.

Lemma entry_ltb_trans a b c :
  entry_ltb a b = true → entry_ltb b c = true → entry_ltb a c = true.
Proof.
  unfold entry_ltb.
  rewrite !orb_true_iff, !andb_true_iff, !bool_decide_eq_true, !Z.ltb_lt.
  intros [Hab|[Hab Hab']] [Hbc|[Hbc Hbc']].
  - left. eauto using score_ltb_trans.
  - left. by rewrite <- Hbc.
  - left. by rewrite Hab.
  - right. split; [congruence|lia].
Qed.

Lemma pq_min_elem m q : pq_min m q ∈ m :: q.
Proof.
  revert m. induction q as [|e q IH]; intros m; simpl; [by left|].
  specialize (IH (if entry_ltb e m then e else m)).
  apply elem_of_cons in IH as [->|IH].
  - destruct (entry_ltb e m); [right; left|left].
  - by do 2 right.
Qed.

Lemma pq_min_least m q e :
  e ∈ m :: q → entry_ltb e (pq_min m q) = false.
Proof.
  revert m.
  assert (Hstart : ∀ q m, entry_ltb (pq_min m q) m = true ∨ pq_min m q = m).
  { clear. induction q as [|x q IH]; intros m; simpl; [by right|].
    destruct (entry_ltb x m) eqn:Hxm.
    - destruct (IH x) as [Hlt| ->]; left; eauto using entry_ltb_trans.
    - apply IH. }
  assert (Hbelow : ∀ q m x, entry_ltb x m = false →
                     entry_ltb x (pq_min m q) = false).
  { intros q' m x Hx. destruct (Hstart q' m) as [Hlt| ->]; [|done].
    destruct (entry_ltb x (pq_min m q')) eqn:Hc; [|done].
    rewrite (entry_ltb_trans _ _ _ Hc Hlt) in Hx. done. }
  induction q as [|x q IH]; intros m He; simpl.
  - apply list_elem_of_singleton in He as ->. apply entry_ltb_irrefl.
  - apply elem_of_cons in He as [->|He].
    + destruct (entry_ltb x m) eqn:Hxm.
      * apply Hbelow. destruct (entry_ltb m x) eqn:Hmx; [|done].
        pose proof (entry_ltb_trans _ _ _ Hxm Hmx) as Hxx.
        by rewrite entry_ltb_irrefl in Hxx.
      * apply Hbelow, entry_ltb_irrefl.
    + apply elem_of_cons in He as [->|He].
      * destruct (entry_ltb x m) eqn:Hxm.
        -- apply Hbelow, entry_ltb_irrefl.
        -- by apply Hbelow.
      * apply IH. by right.
Qed.

Lemma pq_remove_split m q :
  m ∈ q → ∃ q1 q2, q = q1 ++ m :: q2 ∧ pq_remove m q = q1 ++ q2.
Proof.
  induction q as [|e q IH]; [by intros ?%elem_of_nil|].
  intros Hin. simpl. destruct (decide (e = m)) as [->|Hne].
  - by exists [], q.
  - apply elem_of_cons in Hin as [->|Hin]; [done|].
    destruct (IH Hin) as (q1 & q2 & -> & ->).
    by exists (e :: q1), q2.
Qed.

Lemma pq_get_Some q e q' :
  pq_get q = Some (e, q') →
  (∀ e', e' ∈ q → entry_ltb e' e = false)
  ∧ ∃ q1 q2, q = q1 ++ e :: q2 ∧ q' = q1 ++ q2.
Proof.
  destruct q as [|x q]; [discriminate|].
  unfold pq_get. intros [= <- <-]. split.
  - intros e'. apply pq_min_least.
  - apply pq_remove_split, pq_min_elem.
Qed.

(** ** Runs and loop states *)

Lemma search_loop_result g start endp fuel st b st' :
  loop_state g start endp st →
  search_loop fuel start endp st = Some (b, st') →
  ∃ stl, loop_state g start endp stl
    ∧ if b then
        ∃ st1 st2 fuel', pop stl = Some (Some (endp, st1))
          ∧ reconstruct_path fuel' endp st1 = Some st2
          ∧ st' = mark BLUE endp st2
      else pop stl = Some None ∧ st' = stl.
Proof.
  revert st. induction fuel as [|fuel IH]; intros st Hls; [discriminate|].
  simpl. destruct (pop st) as [[[current st1]|]|] eqn:Hpop; simpl;
    [|intros [= <- <-]; by exists st|discriminate].
  destruct (decide (current = endp)) as [->|Hne].
  - destruct (reconstruct_path fuel endp st1) as [st2|] eqn:Hrec; simpl;
      [|discriminate].
    intros [= <- <-]. exists st. split; [done|]. by exists st1, st2, fuel.
  - destruct (expand start endp current st1) as [st2|] eqn:Hexp; simpl;
      [|discriminate].
    apply IH. by eapply loop_next.
Qed.

(** Invariants of the loop are proved along one iteration: the [pop], each
    relaxation, then [draw] and the closing of the popped node. *)
Lemma loop_state_invariant g start endp
    (P : SearchState → Prop) (R : pos → list pos → SearchState → Prop) :
  P (init_state g start endp) →
  (∀ st current st1 ns,
     loop_state g start endp st → P st →
     pop st = Some (Some (current, st1)) → current ≠ endp →
     neighbours_of (grid st1) current = Some ns →
     R current ns st1) →
  (∀ current ns st n st',
     R current ns st → n ∈ ns →
     relax endp current st n = Some st' → R current ns st') →
  (∀ current ns st,
     R current ns st →
     P (if decide (current = start) then call_draw st
        else mark RED current (call_draw st))) →
  ∀ st, loop_state g start endp st → P st.
Proof.
  intros Hinit Hpop Hrelax Hclose st.
  induction 1 as [|st current st1 st2 Hls IH Hp Hne Hexp]; [done|].
  apply expand_Some in Hexp as (ns & st' & Hns & Hrel & ->).
  apply (Hclose current ns).
  revert Hrel. apply relax_all_preserves.
  - intros s n s' Hn HR Hr. by eapply Hrelax.
  - by eapply Hpop.
Qed.

(** ** Colours under the mutators *)

Lemma color_of_paint_ne c p g q :
  p ≠ q → color_of (paint c p g) q = color_of g q.
Proof. intros Hne. unfold color_of, paint; simpl. by rewrite lookup_alter_ne. Qed.

Lemma color_of_paint_eq c p g :
  color_of (paint c p g) p = (λ _, c) <$> color_of g p.
Proof.
  unfold color_of, paint; simpl. rewrite lookup_alter_eq.
  by destruct (cells g !! p).
Qed.

Lemma neighbours_of_paint c p g q :
  neighbours_of (paint c p g) q = neighbours_of g q.
Proof.
  unfold neighbours_of, paint; simpl.
  destruct (decide (p = q)) as [->|Hne].
  - rewrite lookup_alter_eq. by destruct (cells g !! q).
  - by rewrite lookup_alter_ne.
Qed.

(** ** The end cell on a failed run *)

Lemma end_queued_or_untouched g start endp st :
  loop_state g start endp st → end_inv g endp st.
Proof.
  revert st.
  apply (loop_state_invariant g start endp (end_inv g endp)
    (λ current _ s, current ≠ endp ∧ end_inv g endp s)); unfold end_inv.
  - destruct (decide (start = endp)) as [->|Hne].
    + left. exists (Fin 0, 0, endp). split; [|done]. simpl. by left.
    + right. split; [|done]. simpl. apply Forall_singleton. simpl. tauto.
  - intros st current st1 ns _ HJ Hpop Hne _. split; [done|].
    apply pop_Some in Hpop as (e & q' & Hget & -> & _ & ->).
    apply pq_get_Some in Hget as (_ & q1 & q2 & Hq & ->).
    destruct HJ as [(x & Hx & Hxn)|[Hun Hcol]].
    + left. exists x. simpl. split; [|done].
      rewrite Hq in Hx. rewrite elem_of_app, elem_of_cons in Hx.
      rewrite elem_of_app. destruct Hx as [?|[->|?]]; auto. congruence.
    + right. simpl. split; [|done].
      apply Forall_app. split; [done|]. apply Forall_singleton. simpl. tauto.
  - intros current ns st n st' [Hne HJ] _ (gc & gn & _ & _ & Hcase)%relax_inv.
    split; [done|].
    destruct Hcase as [[_ ->]|[(_ & _ & ->)|(_ & _ & ->)]]; [done|done|].
    destruct (decide (n = endp)) as [->|Hn].
    { left.
      exists (score_add (score_add gc 1) (heuristic endp endp),
              count st + 1, endp).
      simpl. unfold pq_put. split; [|reflexivity].
      apply elem_of_app. right. by left. }
    destruct HJ as [(x & Hx & Hxn)|[Hun Hcol]].
    + left. exists x. simpl. unfold pq_put. split; [|done].
      apply elem_of_app. by left.
    + right. simpl. split.
      * unfold untouched. rewrite <- app_assoc. apply Forall_app. split; [done|].
        repeat constructor; simpl; tauto.
      * by rewrite color_of_paint_ne.
  - intros current ns st [Hne HJ].
    destruct HJ as [(x & Hx & Hxn)|[Hun Hcol]].
    + left. exists x. by destruct (decide (current = start)).
    + right. destruct (decide (current = start)); simpl.
      * split; [|done]. apply Forall_app. split; [done|].
        apply Forall_singleton. simpl. tauto.
      * split; [|by rewrite color_of_paint_ne].
        unfold untouched. rewrite <- app_assoc. apply Forall_app. split; [done|].
        repeat constructor; simpl; tauto.
Qed.

(** C10: a run that returns [False] has never queued the end cell nor
    called a colour mutator on it, and the end cell has the colour it
    had before the run, blue if it was blue; for, in every state of the
    loop, an end cell that has been queued is still in the frontier. *)
Theorem failure_leaves_end_untouched (g : Grid) (start endp : pos) :
  (∀ st, loop_state g start endp st →
         Exists (is_put_of endp) (trace st) → queued endp st)
  ∧ (∀ fuel st,
       a_star_algorithm fuel g start endp = Some (false, st) →
       untouched endp (trace st)
       ∧ color_of (grid st) endp = color_of g endp
       ∧ (color_of g endp = Some BLUE → color_of (grid st) endp = Some BLUE)).
Proof.
  split.
  - intros st Hls Hput.
    destruct (end_queued_or_untouched _ _ _ _ Hls) as [Hq|[Hun _]]; [done|].
    apply Exists_exists in Hput as (ev & Hev & Hp).
    unfold untouched in Hun. rewrite Forall_forall in Hun.
    destruct (Hun ev Hev) as [Hnp _]. done.
  - intros fuel st Hrun.
    destruct (search_loop_result g start endp _ _ _ _ (loop_init _ _ _) Hrun)
      as (stl & Hls & Hpop & ->).
    apply pop_None in Hpop.
    destruct (end_queued_or_untouched _ _ _ _ Hls)
      as [(x & Hx & _)|[Hun Hcol]].
    + rewrite Hpop in Hx. by apply elem_of_nil in Hx.
    + split; [done|]. split; [done|]. by rewrite Hcol.
Qed.

(** ** The start cell *)

(** Goals about a trace extended by a few events. *)
Ltac events_forall :=
  rewrite <- ?app_assoc; apply Forall_app; split;
  [done | repeat constructor; simpl; (tauto || congruence)].

Ltac events_filter H :=
  rewrite <- ?app_assoc, filter_app, H;
  repeat match goal with
         | |- context [ [?a] ++ ?l ] => change ([a] ++ l) with (a :: l)
         end;
  repeat (rewrite filter_cons, decide_False by (simpl; (tauto || congruence)));
  rewrite ?filter_nil; reflexivity.

Lemma score_add_Fin_inv s a z : score_add s a = Fin z → s = Fin (z - a).
Proof. destruct s; simpl; [|done]. intros [= <-]. f_equal. lia. Qed.

Lemma score_ltb_true_Fin a b :
  score_ltb a b = true → ∃ z, a = Fin z.
Proof. destruct a; [eauto|done]. Qed.

Lemma start_inv_loop g start endp st :
  loop_state g start endp st → start_inv g start st.
Proof.
  revert st.
  apply (loop_state_invariant g start endp (start_inv g start)
    (λ _ _ s, start_inv g start s)); unfold start_inv.
  - simpl. rewrite lookup_insert_eq. split; [done|]. split.
    { intros p z. rewrite lookup_insert. case_decide; [by intros [= <-]|].
      rewrite lookup_fmap. by destruct (cells g !! p). }
    split; [done|]. split; [|split; [|done]].
    + rewrite filter_cons, decide_True by done. done.
    + apply Forall_singleton. simpl. tauto.
  - intros st current st1 ns _ HK Hpop _ _.
    apply pop_Some in Hpop as (e & q' & _ & _ & _ & ->). simpl.
    destruct HK as (H0 & Hnn & Hcf & Hput & Htr & Hcol).
    repeat split; try done.
    + events_filter Hput.
    + events_forall.
  - intros current ns st n st' HK _ (gc & gn & Hgc & Hgn & Hcase)%relax_inv.
    destruct Hcase as [[_ ->]|Hcase]; [done|].
    destruct HK as (H0 & Hnn & Hcf & Hput & Htr & Hcol).
    assert (Hlt : score_ltb (score_add gc 1) gn = true) by (by destruct Hcase as [[? _]|[? _]]).
    destruct (score_ltb_true_Fin _ _ Hlt) as [t Ht].
    pose proof (score_add_Fin_inv _ _ _ Ht) as Hgc'. subst gc.
    pose proof (Hnn _ _ Hgc) as Ht0.
    assert (Hn : n ≠ start).
    { intros ->. rewrite H0 in Hgn. injection Hgn as <-.
      rewrite Ht in Hlt. simpl in Hlt. apply Z.ltb_lt in Hlt. lia. }
    assert (Hnn' : ∀ p z,
      <[n := score_add (Fin (t - 1)) 1]> (g_score st) !! p = Some (Fin z) → 0 ≤ z).
    { intros p z. rewrite lookup_insert. case_decide; [|apply Hnn].
      rewrite Ht. intros [= <-]. lia. }
    destruct Hcase as [(_ & _ & ->)|(_ & _ & ->)]; simpl;
      rewrite !lookup_insert_ne by done.
    + done.
    + repeat split; try done.
      * events_filter Hput.
      * events_forall.
      * by rewrite color_of_paint_ne.
  - intros current ns st (H0 & Hnn & Hcf & Hput & Htr & Hcol).
    destruct (decide (current = start)) as [->|Hne]; simpl.
    + repeat split; try done.
      * events_filter Hput.
      * events_forall.
    + repeat split; try done.
      * events_filter Hput.
      * events_forall.
      * by rewrite color_of_paint_ne.
Qed.

Lemma reconstruct_path_start g start fuel current st st' :
  color_of g start = Some PINK →
  start_inv g start st →
  reconstruct_path fuel current st = Some st' →
  start_inv g start st'.
Proof.
  intros Hpink. revert current st.
  induction fuel as [|fuel IH]; intros current st HK; [discriminate|].
  simpl. destruct (came_from st !! current) as [prev|]; [|by intros [= <-]].
  destruct (cells (grid st) !! prev) as [n|] eqn:Hn; simpl; [|discriminate].
  apply IH.
  destruct HK as (H0 & Hnn & Hcf & Hput & Htr & Hcol).
  unfold start_inv.
  destruct (is_start n) eqn:Hs; simpl.
  - repeat split; try done.
    + events_filter Hput.
    + events_forall.
  - assert (Hne : prev ≠ start).
    { intros ->. rewrite Hpink in Hcol. unfold color_of in Hcol.
      rewrite Hn in Hcol. simpl in Hcol. injection Hcol as Hc.
      unfold is_start in Hs. by rewrite bool_decide_eq_true_2 in Hs. }
    repeat split; try done.
    + events_filter Hput.
    + events_forall.
    + by rewrite color_of_paint_ne.
Qed.

(** C9: when the start cell is pink and differs from the end cell, no
    state of the loop and no finished run has a colour mutator called on
    the start cell: its colour stays pink, its only [put] is the initial
    one (which paints nothing), its gScore stays 0 and it gets no
    predecessor. *)
Theorem start_never_recoloured (g : Grid) (start endp : pos) :
  start ≠ endp →
  color_of g start = Some PINK →
  (∀ st, loop_state g start endp st → start_inv g start st)
  ∧ (∀ fuel b st,
       a_star_algorithm fuel g start endp = Some (b, st) →
       Forall (λ ev, ¬ is_make_of start ev) (trace st)
       ∧ filter (is_put_of start) (trace st) = [EvPut (Fin 0, 0, start)]
       ∧ g_score st !! start = Some (Fin 0)
       ∧ came_from st !! start = None
       ∧ color_of (grid st) start = Some PINK).
Proof.
  intros Hse Hpink. split; [apply start_inv_loop|].
  intros fuel b st Hrun.
  destruct (search_loop_result g start endp _ _ _ _ (loop_init _ _ _) Hrun)
    as (stl & Hls & Hfin).
  apply start_inv_loop in Hls.
  assert (HK : start_inv g start st).
  { destruct b.
    - destruct Hfin as (st1 & st2 & fuel' & Hpop & Hrec & ->).
      apply pop_Some in Hpop as (e & q' & _ & _ & _ & ->).
      assert (H1 : start_inv g start st2).
      { eapply reconstruct_path_start; [done| |exact Hrec].
        destruct Hls as (H0 & Hnn & Hcf & Hput & Htr & Hcol).
        unfold start_inv; simpl. repeat split; try done.
        + events_filter Hput.
        + events_forall. }
      destruct H1 as (H0 & Hnn & Hcf & Hput & Htr & Hcol).
      unfold start_inv; simpl. repeat split; try done.
      + events_filter Hput.
      + events_forall.
      + by rewrite color_of_paint_ne.
    - by destruct Hfin as [_ ->]. }
  destruct HK as (H0 & Hnn & Hcf & Hput & Htr & Hcol).
  rewrite Hcol. done.
Qed.

(** ** Sequence numbers and the order of expansion *)

Lemma put_counts_app tr1 tr2 :
  put_counts (tr1 ++ tr2) = put_counts tr1 ++ put_counts tr2.
Proof. apply omap_app. Qed.

Lemma queue_entries_weaken (c c' : Z) (tr tr' : list event) (q : list entry) :
  c ≤ c' →
  Forall (λ e, 0 ≤ entry_count e ≤ c ∧ EvPut e ∈ tr) q →
  Forall (λ e, 0 ≤ entry_count e ≤ c' ∧ EvPut e ∈ tr ++ tr') q.
Proof.
  intros Hc H. eapply Forall_impl; [exact H|].
  intros e [Hb Hin]. simpl. split; [lia|].
  apply elem_of_app. by left.
Qed.

Lemma count_inv_loop g start endp st :
  loop_state g start endp st → count_inv st.
Proof.
  revert st.
  apply (loop_state_invariant g start endp count_inv (λ _ _ s, count_inv s));
    unfold count_inv.
  - simpl. split; [done|]. split; [done|]. split.
    + apply Forall_singleton. simpl. split; [done|]. by left.
    + apply NoDup_singleton.
  - intros st current st1 ns _ (H0 & Hpc & Hq & Hnd) Hpop _ _.
    apply pop_Some in Hpop as (e & q' & Hget & _ & _ & ->).
    apply pq_get_Some in Hget as (_ & q1 & q2 & Hq12 & ->). simpl.
    rewrite Hq12 in Hq, Hnd.
    split; [done|]. split; [|split].
    + by rewrite put_counts_app, app_nil_r.
    + apply (queue_entries_weaken _ _ _ _ _ (Z.le_refl _)).
      apply Forall_app in Hq as [Hq1 Hq2]. apply Forall_cons in Hq2 as [_ Hq2].
      by apply Forall_app.
    + rewrite fmap_app, fmap_cons in Hnd. rewrite fmap_app.
      apply NoDup_app in Hnd as (Hn1 & Hn12 & Hn2).
      apply NoDup_cons in Hn2 as [_ Hn2].
      apply NoDup_app. split; [done|]. split; [|done].
      intros x Hx1 Hx2. apply (Hn12 x Hx1). by right.
  - intros current ns st n st' (H0 & Hpc & Hq & Hnd) _
           (gc & gn & _ & _ & Hcase)%relax_inv.
    destruct Hcase as [[_ ->]|[(_ & _ & ->)|(_ & _ & ->)]]; [done|done|].
    simpl. split; [lia|]. split; [|split].
    + rewrite <- app_assoc, put_counts_app, Hpc. simpl.
      replace (count st + 1 + 1) with ((count st + 1) + 1) by lia.
      rewrite (seqZ_app 0 (count st + 1) 1) by lia.
      f_equal.
    + unfold pq_put. apply Forall_app. split.
      * rewrite <- app_assoc.
        apply (queue_entries_weaken (count st)); [lia|done].
      * apply Forall_singleton. unfold entry_count. simpl. split; [lia|].
        rewrite <- app_assoc. apply elem_of_app. right. by left.
    + unfold pq_put. rewrite fmap_app. apply NoDup_app.
      split; [done|]. split; [|apply NoDup_singleton].
      intros x Hx ->%list_elem_of_singleton.
      apply list_elem_of_fmap in Hx as (e & He & Hin).
      rewrite Forall_forall in Hq. destruct (Hq e Hin) as [Hb _].
      simpl in He. unfold entry_count in *. simpl in *. lia.
  - intros current ns st (H0 & Hpc & Hq & Hnd).
    destruct (decide (current = start)); simpl.
    + split; [done|]. split; [|split; [|done]].
      * by rewrite put_counts_app, app_nil_r.
      * by apply (queue_entries_weaken _ _ _ _ _ (Z.le_refl _)).
    + split; [done|]. split; [|split; [|done]].
      * by rewrite <- app_assoc, put_counts_app, app_nil_r.
      * rewrite <- app_assoc.
        by apply (queue_entries_weaken _ _ _ _ _ (Z.le_refl _)).
Qed.

Lemma popped_is_first_among_equals g start endp st current st1 :
  loop_state g start endp st →
  pop st = Some (Some (current, st1)) →
  ∃ e, e ∈ open_set st ∧ entry_node e = current ∧ EvPut e ∈ trace st
    ∧ (∀ e', e' ∈ open_set st → entry_ltb e' e = false)
    ∧ (∀ e', e' ∈ open_set st → e' ≠ e →
             entry_prio e' = entry_prio e → entry_count e < entry_count e').
Proof.
  intros (_ & _ & Hq & Hnd)%count_inv_loop
         (e & q' & Hget & -> & _ & _)%pop_Some.
  apply pq_get_Some in Hget as (Hleast & q1 & q2 & Hq12 & _).
  assert (Hin : e ∈ open_set st).
  { rewrite Hq12. apply elem_of_app. right. by left. }
  exists e. split; [done|]. split; [done|]. split.
  { rewrite Forall_forall in Hq. by destruct (Hq e Hin). }
  split; [done|].
  intros e' Hin' Hne Hprio.
  pose proof (Hleast e' Hin') as Hlt. unfold entry_ltb in Hlt.
  rewrite Hprio, score_ltb_irrefl, bool_decide_eq_true_2 in Hlt by done.
  simpl in Hlt. apply Z.ltb_ge in Hlt.
  assert (entry_count e' ≠ entry_count e); [|lia].
  rewrite Hq12 in Hnd, Hin'.
  rewrite fmap_app, fmap_cons in Hnd.
  apply NoDup_app in Hnd as (_ & Hn12 & Hn2).
  apply NoDup_cons in Hn2 as [Hn2 _].
  apply elem_of_app in Hin' as [Hin'|Hin'].
  - intros Heq. apply (Hn12 (entry_count e')).
    + apply list_elem_of_fmap. eauto.
    + rewrite Heq. by left.
  - apply elem_of_cons in Hin' as [->|Hin']; [done|].
    intros Heq. apply Hn2. rewrite <- Heq.
    apply list_elem_of_fmap. eauto.
Qed.

(** More iterations than a run needs do not change its result. *)
Lemma reconstruct_path_mono fuel fuel' current st st' :
  reconstruct_path fuel current st = Some st' →
  (fuel ≤ fuel')%nat →
  reconstruct_path fuel' current st = Some st'.
Proof.
  revert fuel' current st.
  induction fuel as [|fuel IH]; intros fuel' current st; [discriminate|].
  intros H Hle. destruct fuel' as [|fuel']; [lia|].
  simpl in *. destruct (came_from st !! current) as [prev|]; [|done].
  destruct (cells (grid st) !! prev) as [n|]; simpl in *; [|done].
  apply IH; [done|lia].
Qed.

Lemma search_loop_mono fuel fuel' start endp st r :
  search_loop fuel start endp st = Some r →
  (fuel ≤ fuel')%nat →
  search_loop fuel' start endp st = Some r.
Proof.
  revert fuel' st.
  induction fuel as [|fuel IH]; intros fuel' st; [discriminate|].
  intros H Hle. destruct fuel' as [|fuel']; [lia|].
  simpl in *. destruct (pop st) as [[[current st1]|]|]; simpl in *; try done.
  destruct (decide (current = endp)).
  - destruct (reconstruct_path fuel endp st1) as [st2|] eqn:Hrec;
      simpl in *; [|done].
    rewrite (reconstruct_path_mono _ fuel' _ _ _ Hrec) by lia. done.
  - destruct (expand start endp current st1) as [st2|]; simpl in *; [|done].
    apply IH; [done|lia].
Qed.

(** C3: two finished runs on the same grid, start and end give the same
    result and final state, hence the same expansion order and the same
    predecessor map; the [put]s of a run are numbered 0, 1, 2, ... in the
    order they happen; and [get] returns an entry that no frontier entry
    precedes in the order on (priority, number), so among entries of equal
    priority the one with the least number, the one queued first. *)
Theorem search_deterministic_fifo (g : Grid) (start endp : pos) :
  (∀ fuel1 fuel2 r1 r2,
     a_star_algorithm fuel1 g start endp = Some r1 →
     a_star_algorithm fuel2 g start endp = Some r2 →
     r1 = r2
     ∧ expansion_order (trace r1.2) = expansion_order (trace r2.2)
     ∧ came_from r1.2 = came_from r2.2)
  ∧ (∀ st, loop_state g start endp st →
       put_counts (trace st) = seqZ 0 (count st + 1))
  ∧ (∀ st current st1,
       loop_state g start endp st →
       pop st = Some (Some (current, st1)) →
       ∃ e, e ∈ open_set st ∧ entry_node e = current ∧ EvPut e ∈ trace st
         ∧ (∀ e', e' ∈ open_set st → entry_ltb e' e = false)
         ∧ (∀ e', e' ∈ open_set st → e' ≠ e →
              entry_prio e' = entry_prio e →
              entry_count e < entry_count e')).
Proof.
  split; [|split].
  - intros fuel1 fuel2 r1 r2 H1 H2.
    unfold a_star_algorithm in *.
    apply (search_loop_mono _ (fuel1 + fuel2)) in H1; [|lia].
    apply (search_loop_mono _ (fuel1 + fuel2)) in H2; [|lia].
    assert (r1 = r2) as -> by congruence. done.
  - intros st Hls. by destruct (count_inv_loop _ _ _ _ Hls) as (_ & ? & _).
  - apply popped_is_first_among_equals.
Qed.

(** ** Further invariants of the loop *)

Lemma grid_inv_loop g start endp st :
  loop_state g start endp st →
  ∀ p, neighbours_of (grid st) p = neighbours_of g p.
Proof.
  revert st.
  apply (loop_state_invariant g start endp
    (λ s, ∀ p, neighbours_of (grid s) p = neighbours_of g p)
    (λ _ _ s, ∀ p, neighbours_of (grid s) p = neighbours_of g p)).
  - done.
  - intros st current st1 ns _ HP Hpop _ _.
    by apply pop_Some in Hpop as (e & q' & _ & _ & _ & ->).
  - intros current ns st n st' HP _ (gc & gn & _ & _ & Hcase)%relax_inv.
    destruct Hcase as [[_ ->]|[(_ & _ & ->)|(_ & _ & ->)]]; [done|done|].
    intros p. simpl. by rewrite neighbours_of_paint.
  - intros current ns st HP p.
    destruct (decide (current = start)); simpl; [done|].
    by rewrite neighbours_of_paint.
Qed.

Lemma hash_inv_loop g start endp st :
  loop_state g start endp st → hash_inv st.
Proof.
  revert st.
  apply (loop_state_invariant g start endp hash_inv (λ _ _ s, hash_inv s));
    unfold hash_inv.
  - simpl. split; [by rewrite union_empty_r_L|apply NoDup_singleton].
  - intros st current st1 ns _ [Hh Hnd] Hpop _ _.
    apply pop_Some in Hpop as (e & q' & Hget & -> & _ & ->).
    apply pq_get_Some in Hget as (_ & q1 & q2 & Hq12 & ->). simpl.
    rewrite Hh, Hq12. rewrite Hq12 in Hnd.
    rewrite fmap_app, fmap_cons in Hnd. rewrite !fmap_app, fmap_cons.
    apply NoDup_app in Hnd as (Hn1 & Hn12 & Hn2).
    apply NoDup_cons in Hn2 as [Hn2' Hn2].
    split.
    + apply set_eq. intros x.
      rewrite elem_of_difference, !elem_of_list_to_set, !elem_of_app,
        elem_of_cons, elem_of_singleton.
      split.
      * intros [[?|[?|?]] ?]; tauto.
      * intros [Hx|Hx]; (split; [tauto|]); intros ->.
        -- apply (Hn12 _ Hx). by left.
        -- done.
    + apply NoDup_app. split; [done|]. split; [|done].
      intros x Hx1 Hx2. apply (Hn12 x Hx1). by right.
  - intros current ns st n st' [Hh Hnd] _ (gc & gn & _ & _ & Hcase)%relax_inv.
    destruct Hcase as [[_ ->]|[(_ & _ & ->)|(_ & Hnin & ->)]]; [done|done|].
    simpl. unfold pq_put. rewrite fmap_app. simpl. split.
    + rewrite list_to_set_snoc_L, Hh. apply union_comm_L.
    + apply NoDup_app. split; [done|]. split; [|apply NoDup_singleton].
      intros x Hx ->%list_elem_of_singleton. apply Hnin.
      rewrite Hh. by apply elem_of_list_to_set.
  - intros current ns st HP. by destruct (decide (current = start)).
Qed.

Lemma no_path_marks_loop g start endp st :
  loop_state g start endp st → no_path_marks g st.
Proof.
  revert st.
  apply (loop_state_invariant g start endp (no_path_marks g)
    (λ _ _ s, no_path_marks g s)); unfold no_path_marks.
  - simpl. split; [|done]. apply Forall_singleton. simpl. tauto.
  - intros st current st1 ns _ [Htr Hcol] Hpop _ _.
    apply pop_Some in Hpop as (e & q' & _ & _ & _ & ->). simpl.
    split; [events_forall|done].
  - intros current ns st n st' [Htr Hcol] _ (gc & gn & _ & _ & Hcase)%relax_inv.
    destruct Hcase as [[_ ->]|[(_ & _ & ->)|(_ & _ & ->)]]; [done|done|].
    simpl. split; [events_forall|].
    intros p. destruct (decide (n = p)) as [->|Hne].
    + rewrite color_of_paint_eq. by destruct (color_of (grid st) p).
    + rewrite color_of_paint_ne by done. apply Hcol.
  - intros current ns st [Htr Hcol].
    destruct (decide (current = start)); simpl.
    + split; [events_forall|done].
    + split; [events_forall|].
      intros p. destruct (decide (current = p)) as [->|Hne].
      * rewrite color_of_paint_eq. by destruct (color_of (grid st) p).
      * rewrite color_of_paint_ne by done. apply Hcol.
Qed.

Lemma walk_snoc step a l b c :
  walk step a l b → step b c → walk step a (l ++ [c]) c.
Proof.
  revert a. induction l as [|x l IH]; intros a; simpl.
  - intros -> ?. done.
  - intros [? ?] ?. split; [done|]. by apply IH.
Qed.

Lemma walk_impl (step step' : pos → pos → Prop) a l b :
  (∀ x y, step x y → step' x y) → walk step a l b → walk step' a l b.
Proof.
  intros Himpl. revert a. induction l as [|x l IH]; intros a; simpl; [done|].
  intros [? ?]. split; [by apply Himpl|by apply IH].
Qed.

Lemma reach_inv_loop g start endp st :
  loop_state g start endp st →
  Forall (λ e, reachable g start (entry_node e)) (open_set st).
Proof.
  revert st.
  apply (loop_state_invariant g start endp
    (λ s, Forall (λ e, reachable g start (entry_node e)) (open_set s))
    (λ current ns s,
       reachable g start current ∧ neighbours_of g current = Some ns
       ∧ Forall (λ e, reachable g start (entry_node e)) (open_set s))).
  - simpl. apply Forall_singleton. by exists [].
  - intros st current st1 ns Hls HP Hpop _ Hns.
    pose proof (grid_inv_loop _ _ _ _ Hls current) as Hg.
    apply pop_Some in Hpop as (e & q' & Hget & -> & _ & ->).
    apply pq_get_Some in Hget as (_ & q1 & q2 & Hq12 & ->). simpl in *.
    rewrite Hq12 in HP.
    apply Forall_app in HP as [H1 H2]. apply Forall_cons in H2 as [He H2].
    split; [done|]. split; [congruence|]. by apply Forall_app.
  - intros current ns st n st' (Hc & Hns & HP) Hn
           (gc & gn & _ & _ & Hcase)%relax_inv.
    split; [done|]. split; [done|].
    destruct Hcase as [[_ ->]|[(_ & _ & ->)|(_ & _ & ->)]]; [done|done|].
    simpl. unfold pq_put. apply Forall_app. split; [done|].
    apply Forall_singleton. simpl.
    destruct Hc as [l Hl]. exists (l ++ [n]).
    eapply walk_snoc; [done|]. by exists ns.
  - intros current ns st (_ & _ & HP).
    by destruct (decide (current = start)).
Qed.

(** ** Termination *)

Lemma total_weight_insert (w : score → nat) (m : gmap pos score) k old v :
  m !! k = Some old →
  (total_weight w (<[k:=v]> m) + w old = total_weight w m + w v)%nat.
Proof.
  intros Hk. unfold total_weight.
  rewrite <- (insert_delete_eq m k v).
  rewrite map_to_list_insert by apply lookup_delete_eq.
  rewrite <- (map_to_list_delete m k old Hk). simpl. lia.
Qed.

Lemma insert_is_Some_same (m : gmap pos score) k v p :
  is_Some (m !! k) → is_Some (<[k:=v]> m !! p) ↔ is_Some (m !! p).
Proof.
  intros Hk. rewrite lookup_insert. case_decide; [subst|done].
  split; [done|]. intros _. by eexists.
Qed.

Lemma relax_progress endp current st n :
  nonneg_scores st →
  is_Some (g_score st !! current) →
  is_Some (g_score st !! n) →
  ∃ st', relax endp current st n = Some st'
    ∧ nonneg_scores st'
    ∧ (∀ p, is_Some (g_score st' !! p) ↔ is_Some (g_score st !! p))
    ∧ lex_le (measure st') (measure st).
Proof.
  intros Hnn [gc Hgc] [gn Hgn]. unfold relax. rewrite Hgc, Hgn. simpl.
  destruct (score_ltb (score_add gc 1) gn) eqn:Hlt; cycle 1.
  { exists st. split; [done|]. split; [done|]. split; [done|].
    unfold lex_le. lia. }
  destruct (score_ltb_true_Fin _ _ Hlt) as [t Ht].
  pose proof (score_add_Fin_inv _ _ _ Ht) as ->.
  pose proof (Hnn _ _ Hgc) as Ht0.
  rewrite Ht in *.
  pose proof (total_weight_insert inf_weight _ n gn (Fin t) Hgn) as Hwi.
  pose proof (total_weight_insert fin_weight _ n gn (Fin t) Hgn) as Hwf.
  assert (Hnn' : ∀ p z, <[n := Fin t]> (g_score st) !! p = Some (Fin z) → 0 ≤ z).
  { intros p z. rewrite lookup_insert. case_decide; [|apply Hnn].
    intros [= <-]. lia. }
  assert (Hdom : ∀ p, is_Some (<[n := Fin t]> (g_score st) !! p)
                      ↔ is_Some (g_score st !! p)).
  { intros p. apply insert_is_Some_same. by eexists. }
  assert (Hw : (total_weight inf_weight (<[n := Fin t]> (g_score st))
                < total_weight inf_weight (g_score st))%nat
               ∨ (total_weight inf_weight (<[n := Fin t]> (g_score st))
                  = total_weight inf_weight (g_score st)
                  ∧ total_weight fin_weight (<[n := Fin t]> (g_score st)) + 1
                    ≤ total_weight fin_weight (g_score st))%nat).
  { destruct gn as [z|]; simpl in *.
    - right. apply Z.ltb_lt in Hlt. lia.
    - left. lia. }
  destruct (decide (n ∈ open_set_hash _)) as [Hin|Hnin]; simpl.
  - eexists. split; [reflexivity|]. split; [done|]. split; [done|].
    unfold lex_le, measure. simpl. lia.
  - eexists. split; [reflexivity|]. split; [done|]. split; [done|].
    unfold lex_le, measure. simpl. unfold pq_put. rewrite length_app.
    simpl. lia.
Qed.

Lemma relax_all_progress endp current ns st :
  nonneg_scores st →
  is_Some (g_score st !! current) →
  Forall (λ n, is_Some (g_score st !! n)) ns →
  ∃ st', relax_all endp current st ns = Some st'
    ∧ lex_le (measure st') (measure st).
Proof.
  revert st. induction ns as [|n ns IH]; intros st Hnn Hc Hns; simpl.
  - exists st. split; [done|]. unfold lex_le. lia.
  - apply Forall_cons in Hns as [Hn Hns].
    destruct (relax_progress endp current st n Hnn Hc Hn)
      as (st1 & -> & Hnn1 & Hdom & Hle1). simpl.
    destruct (IH st1 Hnn1) as (st' & Hrel & Hle).
    + by apply Hdom.
    + eapply Forall_impl; [exact Hns|]. intros p Hp. by apply Hdom.
    + exists st'. split; [done|]. unfold lex_le in *. lia.
Qed.

Section termination.
Variables (g : Grid) (start endp : pos).
Hypothesis neighbours_are_cells :
  ∀ p ns q, neighbours_of g p = Some ns → q ∈ ns → is_Some (cells g !! q).
Hypothesis start_is_cell : is_Some (cells g !! start).
Hypothesis end_unreachable : ¬ reachable g start endp.

Lemma walk_ends_in_cell l a p :
  is_Some (cells g !! a) → walk (neighbour_step g) a l p →
  is_Some (cells g !! p).
Proof.
  revert a. induction l as [|x l IH]; intros a Ha; simpl.
  - by intros <-.
  - intros [(ns & Hns & Hx) Hw]. apply (IH x); [|done].
    by eapply neighbours_are_cells.
Qed.

Lemma dom_inv_loop st :
  loop_state g start endp st →
  ∀ p, is_Some (g_score st !! p) ↔ is_Some (cells g !! p).
Proof.
  revert st.
  apply (loop_state_invariant g start endp
    (λ s, ∀ p, is_Some (g_score s !! p) ↔ is_Some (cells g !! p))
    (λ _ _ s, ∀ p, is_Some (g_score s !! p) ↔ is_Some (cells g !! p))).
  - intros p. simpl. rewrite lookup_insert. case_decide.
    + subst. split; [done|]. intros _. by eexists.
    + rewrite lookup_fmap. by rewrite fmap_is_Some.
  - intros st current st1 ns _ HP Hpop _ _.
    by apply pop_Some in Hpop as (e & q' & _ & _ & _ & ->).
  - intros current ns st n st' HP _ (gc & gn & _ & Hgn & Hcase)%relax_inv.
    destruct Hcase as [[_ ->]|[(_ & _ & ->)|(_ & _ & ->)]]; [done|..];
      intros p; simpl; rewrite <- HP; apply insert_is_Some_same; by eexists.
  - intros current ns st HP. by destruct (decide (current = start)).
Qed.

Lemma loop_progress st :
  loop_state g start endp st →
  pop st = Some None
  ∨ ∃ current st1 st2,
      pop st = Some (Some (current, st1))
      ∧ current ≠ endp
      ∧ expand start endp current st1 = Some st2
      ∧ lex_lt (measure st2) (measure st).
Proof.
  intros Hls.
  destruct (hash_inv_loop _ _ _ _ Hls) as [Hh _].
  pose proof (reach_inv_loop _ _ _ _ Hls) as Hreach.
  destruct (start_inv_loop _ _ _ _ Hls) as (_ & Hnn & _).
  pose proof (dom_inv_loop _ Hls) as Hdom.
  pose proof (grid_inv_loop _ _ _ _ Hls) as Hgrid.
  destruct (pq_get (open_set st)) as [[e q']|] eqn:Hget; cycle 1.
  { left. unfold pop. by rewrite Hget. }
  right.
  destruct (pq_get_Some _ _ _ Hget) as (_ & q1 & q2 & Hq12 & ->).
  assert (Hin : e ∈ open_set st).
  { rewrite Hq12. apply elem_of_app. right. by left. }
  assert (Hr : reachable g start (entry_node e)).
  { rewrite Forall_forall in Hreach. by apply Hreach. }
  assert (Hcell : is_Some (cells g !! entry_node e)).
  { destruct Hr as [l Hl]. by eapply walk_ends_in_cell. }
  assert (Hns : ∃ ns, neighbours_of g (entry_node e) = Some ns).
  { destruct Hcell as [c Hc]. exists (neighbours c).
    unfold neighbours_of. by rewrite Hc. }
  destruct Hns as [ns Hns].
  set (st1 := mkState (grid st) (count st) (q1 ++ q2) (came_from st)
                (g_score st) (f_score st)
                (open_set_hash st ∖ {[entry_node e]})
                (trace st ++ [EvGet (entry_node e)])).
  destruct (relax_all_progress endp (entry_node e) ns st1)
    as (st' & Hrel & Hle).
  { exact Hnn. }
  { by apply Hdom. }
  { apply Forall_forall. intros q Hq. apply Hdom.
    by eapply neighbours_are_cells. }
  exists (entry_node e), st1,
    (if decide (entry_node e = start) then call_draw st'
     else mark RED (entry_node e) (call_draw st')).
  split; [|split; [|split]].
  - unfold pop. rewrite Hget. rewrite decide_True; [done|].
    rewrite Hh. apply elem_of_list_to_set, list_elem_of_fmap. eauto.
  - intros Heq. apply end_unreachable. by rewrite <- Heq.
  - unfold expand. simpl. rewrite Hgrid, Hns. simpl. rewrite Hrel. done.
  - assert (Hm : measure (if decide (entry_node e = start) then call_draw st'
                          else mark RED (entry_node e) (call_draw st'))
                 = measure st') by (by destruct (decide _)).
    rewrite Hm. unfold lex_le, lex_lt, measure in *. simpl in *.
    rewrite Hq12. rewrite !length_app in *. simpl. lia.
Qed.

Lemma search_terminates_aux :
  ∀ a b st, loop_state g start endp st →
    (measure st).1 = a → (measure st).2 = b →
    ∃ fuel st', search_loop fuel start endp st = Some (false, st').
Proof.
  induction a as [a IHa] using lt_wf_ind.
  induction b as [b IHb] using lt_wf_ind.
  intros st Hls Ha Hb.
  destruct (loop_progress st Hls)
    as [Hnone|(current & st1 & st2 & Hpop & Hne & Hexp & Hlt)].
  - exists 1%nat, st. simpl. by rewrite Hnone.
  - assert (Hls2 : loop_state g start endp st2) by (by eapply loop_next).
    assert (Hrun : ∃ fuel st', search_loop fuel start endp st2
                               = Some (false, st')).
    { destruct Hlt as [Hlt|[Heq Hlt]].
      - apply (IHa (measure st2).1 ltac:(lia) (measure st2).2 st2); done.
      - apply (IHb (measure st2).2 ltac:(lia) st2); [done|lia|done]. }
    destruct Hrun as (fuel & st' & Hrun).
    exists (S fuel), st'. simpl. rewrite Hpop. simpl.
    rewrite decide_False by done. rewrite Hexp. done.
Qed.

Lemma search_terminates :
  ∃ fuel st, a_star_algorithm fuel g start endp = Some (false, st)
             ∧ no_path_marks g st.
Proof.
  destruct (search_terminates_aux _ _ _ (loop_init g start endp)
              eq_refl eq_refl) as (fuel & st & Hrun).
  exists fuel, st. split; [done|].
  destruct (search_loop_result g start endp _ _ _ _ (loop_init _ _ _) Hrun)
    as (stl & Hls & _ & ->).
  by eapply no_path_marks_loop.
Qed.
End termination.

(** ** The neighbour pass of [main] *)

Lemma update_all_spec ps g g' :
  update_all ps g = Some g' →
  total_rows g' = total_rows g
  ∧ (∀ q, color_of g' q = color_of g q)
  ∧ (∀ q, is_Some (cells g' !! q) ↔ is_Some (cells g !! q))
  ∧ (∀ p n, p ∈ ps → cells g' !! p = Some n →
            compute_neighbours g p = Some (neighbours n))
  ∧ (∀ p, p ∉ ps → neighbours_of g' p = neighbours_of g p).
Proof.
  revert g. induction ps as [|p ps IH]; intros g; simpl.
  - intros [= <-]. repeat split; try done. by intros p n ?%elem_of_nil.
  - destruct (update_neighbours g p) as [g1|] eqn:Hup; simpl; [|discriminate].
    intros Hall. destruct (IH g1 Hall) as (Ht & Hc & Hd & Hin & Hout).
    apply update_neighbours_Some in Hup as (l & Hl & ->).
    assert (Hext : ∀ q, compute_neighbours
        (mkGrid (total_rows g) (alter (set_neighbours l) p (cells g))) q
        = compute_neighbours g q).
    { intros q. apply compute_neighbours_ext; [done|].
      apply color_of_set_neighbours. }
    assert (Hd' : ∀ q, is_Some (cells g' !! q) ↔ is_Some (cells g !! q)).
    { intros q. rewrite Hd. simpl.
      destruct (decide (p = q)) as [->|Hne].
      * rewrite lookup_alter_eq. by rewrite fmap_is_Some.
      * by rewrite lookup_alter_ne. }
    split; [done|]. split; [|split; [done|split]].
    + intros q. rewrite Hc. apply color_of_set_neighbours.
    + intros q n Hq Hn. destruct (decide (q ∈ ps)) as [Hqps|Hqps].
      * rewrite <- Hext. by apply Hin.
      * apply elem_of_cons in Hq as [->|Hq]; [|done].
        specialize (Hout p Hqps).
        rewrite neighbours_of_set_neighbours in Hout; cycle 1.
        { apply Hd'. rewrite Hn. by eexists. }
        unfold neighbours_of in Hout. rewrite Hn in Hout. simpl in Hout.
        injection Hout as ->. done.
    + intros q Hq. apply not_elem_of_cons in Hq as [Hne Hq].
      rewrite (Hout q Hq). unfold neighbours_of. simpl.
      by rewrite lookup_alter_ne.
Qed.

Lemma recompute_neighbours_up_to_date g g' :
  wf_grid g → recompute_neighbours g = Some g' →
  wf_grid g' ∧ neighbours_up_to_date g' ∧ (∀ q, color_of g' q = color_of g q).
Proof.
  intros Hwf (Ht & Hc & Hd & Hin & _)%update_all_spec.
  split; [|split; [|done]].
  - intros p. rewrite Hd, (Hwf p). unfold in_bounds. by rewrite Ht.
  - intros p n Hn.
    rewrite (compute_neighbours_ext g g' p Ht Hc).
    apply Hin; [|done]. apply elem_of_all_positions.
    apply Hwf, Hd. rewrite Hn. by eexists.
Qed.

Lemma ready_up_to_date g :
  wf_grid g → (λ _, ()) <$> recompute_neighbours g = Some () →
  wf_grid (ready g) ∧ neighbours_up_to_date (ready g)
  ∧ (∀ q, color_of (ready g) q = color_of g q).
Proof.
  intros Hwf Hg. unfold ready.
  destruct (recompute_neighbours g) as [g'|] eqn:Hg'; [|discriminate].
  simpl. by apply recompute_neighbours_up_to_date.
Qed.

(** ** Up-to-date neighbour lists and walks on the grid *)

Lemma up_to_date_neighbours g p ns :
  wf_grid g → neighbours_up_to_date g →
  neighbours_of g p = Some ns → ns = passable_neighbours g p.
Proof.
  intros Hwf Hup Hns. unfold neighbours_of in Hns.
  destruct (cells g !! p) as [n|] eqn:Hn; simpl in Hns; [|discriminate].
  injection Hns as <-.
  specialize (Hup p n Hn).
  rewrite compute_neighbours_wf in Hup; [by injection Hup|done|].
  apply Hwf. rewrite Hn. by eexists.
Qed.

Lemma neighbour_step_passable g a b :
  wf_grid g → neighbours_up_to_date g →
  neighbour_step g a b → passable_step g a b.
Proof.
  intros Hwf Hup (ns & Hns & Hb).
  rewrite (up_to_date_neighbours g a ns Hwf Hup Hns) in Hb.
  unfold passable_neighbours in Hb. apply list_elem_of_filter in Hb.
  unfold passable_step, adjacent. tauto.
Qed.

Lemma enclosed_no_path g start endp :
  start ≠ endp →
  (∀ q, adjacent start q → in_bounds g q → barrier_at g q) →
  ¬ ∃ l, grid_path g start l endp.
Proof.
  intros Hne Hencl [[|x l] Hl]; simpl in Hl; [done|].
  destruct Hl as [(Hadj & Hin & Hnb) _]. apply Hnb. by apply Hencl.
Qed.

Lemma end_not_popped_loop g start endp st :
  loop_state g start endp st → endp ∉ expansion_order (trace st).
Proof.
  induction 1 as [|st current st1 st2 _ IH Hpop Hne Hexp]; simpl.
  - apply not_elem_of_nil.
  - destruct (expansion_trace _ _ _ _ _ _ Hpop Hexp)
      as (ns & st' & es & _ & _ & _ & -> & _).
    unfold expansion_order in *. rewrite !omap_app.
    assert (Hins : omap (λ e, match e with EvGet n => Some n | _ => None end)
                        (insertions es) = []).
    { clear. induction es as [|e es IHes]; [done|]. simpl. exact IHes. }
    rewrite Hins. simpl.
    destruct (decide (current = start)); simpl;
      rewrite elem_of_app, list_elem_of_singleton; intros [?|?]; congruence.
Qed.

(** C4: on a well-formed grid with up-to-date neighbour lists, if no
    barrier-free 4-directional walk leads from the start cell to the end
    cell, then with enough iterations the search returns [False], its
    frontier empty and the end cell never popped; no [make_path] is
    called and no cell becomes purple.  A start cell whose in-grid
    orthogonal neighbours are all barriers has no such walk to any other
    cell. *)
Theorem no_path_returns_false (g : Grid) (start endp : pos) :
  wf_grid g → neighbours_up_to_date g → in_bounds g start →
  ((¬ ∃ l, grid_path g start l endp) →
     ∃ fuel st,
       (∀ fuel', (fuel ≤ fuel')%nat →
                 a_star_algorithm fuel' g start endp = Some (false, st))
       ∧ open_set st = []
       ∧ (endp ∉ expansion_order (trace st))
       ∧ Forall (λ ev, ¬ is_make_path ev) (trace st)
       ∧ (∀ p, color_of (grid st) p = Some PURPLE →
               color_of g p = Some PURPLE))
  ∧ (start ≠ endp →
     (∀ q, adjacent start q → in_bounds g q → barrier_at g q) →
     ¬ ∃ l, grid_path g start l endp).
Proof.
  intros Hwf Hup Hstart. split; [|apply enclosed_no_path].
  intros Hnopath.
  destruct (search_terminates g start endp) as (fuel & st & Hrun & Hmarks).
  - intros p ns q Hns Hq.
    rewrite (up_to_date_neighbours g p ns Hwf Hup Hns) in Hq.
    unfold passable_neighbours in Hq. apply list_elem_of_filter in Hq.
    apply Hwf. tauto.
  - by apply Hwf.
  - intros [l Hl]. apply Hnopath. exists l.
    eapply walk_impl; [|exact Hl].
    intros x y. by apply neighbour_step_passable.
  - exists fuel, st.
    destruct (search_loop_result g start endp _ _ _ _ (loop_init _ _ _) Hrun)
      as (stl & Hls & Hpop & ->).
    split; [|split; [|split]].
    + intros fuel' Hle. unfold a_star_algorithm in *.
      by eapply search_loop_mono.
    + by apply pop_None.
    + by eapply end_not_popped_loop.
    + exact Hmarks.
Qed.

(** ** The example grids *)

Lemma enclosed_grid_ready :
  wf_grid (ready enclosed_grid_painted)
  ∧ neighbours_up_to_date (ready enclosed_grid_painted)
  ∧ (∀ q, color_of (ready enclosed_grid_painted) q
          = color_of enclosed_grid_painted q).
Proof.
  apply ready_up_to_date.
  - apply wf_barriers_from, wf_paint, wf_paint, wf_create_grid.
  - vm_compute. reflexivity.
Qed.

Lemma enclosed_grid_start_walled q :
  adjacent (0,0) q → in_bounds (ready enclosed_grid_painted) q →
  barrier_at (ready enclosed_grid_painted) q.
Proof.
  intros Hq Hb. unfold barrier_at.
  destruct enclosed_grid_ready as (_ & _ & ->).
  assert (Ht : total_rows (ready enclosed_grid_painted) = 3)
    by (vm_compute; reflexivity).
  unfold in_bounds in Hb. rewrite Ht in Hb.
  unfold adjacent, orthogonal in Hq. cbn [fst snd] in Hq.
  rewrite !elem_of_cons, elem_of_nil in Hq.
  destruct Hq as [->|[->|[->|[->|[]]]]]; cbn [fst snd] in Hb;
    first [lia | vm_compute; reflexivity].
Qed.

Lemma no_path_returns_false_witness :
  ∃ fuel st,
    a_star_algorithm fuel (ready enclosed_grid_painted) (0,0) (2,2)
    = Some (false, st)
    ∧ Forall (λ ev, ¬ is_make_path ev) (trace st).
Proof.
  destruct enclosed_grid_ready as (Hwf & Hup & _).
  assert (Hin : in_bounds (ready enclosed_grid_painted) (0,0)).
  { unfold in_bounds. vm_compute. intuition discriminate. }
  destruct (no_path_returns_false _ (0,0) (2,2) Hwf Hup Hin) as [Hrun Hencl].
  assert (Hnp : ¬ ∃ l, grid_path (ready enclosed_grid_painted) (0,0) l (2,2)).
  { apply Hencl; [discriminate|]. apply enclosed_grid_start_walled. }
  destruct (Hrun Hnp) as (fuel & st & Hf & _ & _ & Hmarks & _).
  exists fuel, st. split; [apply Hf; reflexivity|exact Hmarks].
Defined.

Lemma open_grid_ready :
  wf_grid (ready open_grid_painted)
  ∧ neighbours_up_to_date (ready open_grid_painted)
  ∧ (∀ q, color_of (ready open_grid_painted) q
          = color_of open_grid_painted q).
Proof.
  apply ready_up_to_date.
  - apply wf_paint, wf_paint, wf_create_grid.
  - vm_compute. reflexivity.
Qed.

Lemma detour_grid_ready :
  wf_grid (ready detour_grid_painted)
  ∧ neighbours_up_to_date (ready detour_grid_painted)
  ∧ (∀ q, color_of (ready detour_grid_painted) q
          = color_of detour_grid_painted q).
Proof.
  apply ready_up_to_date.
  - apply wf_barriers_from, wf_paint, wf_paint, wf_create_grid.
  - vm_compute. reflexivity.
Qed.

Lemma run_with_result {A B} (o : option (A * B)) (a : A) :
  fst <$> o = Some a → ∃ b, o = Some (a, b).
Proof. destruct o as [[a' b]|]; simpl; [|done]. intros [= ->]. eauto. Qed.

Lemma failure_leaves_end_untouched_witness :
  ∃ st, a_star_algorithm 5 (ready enclosed_grid_painted) (0,0) (2,2)
        = Some (false, st)
        ∧ untouched (2,2) (trace st)
        ∧ color_of (grid st) (2,2) = Some BLUE.
Proof.
  assert (Hres : fst <$> a_star_algorithm 5 (ready enclosed_grid_painted)
                           (0,0) (2,2) = Some false)
    by (vm_compute; reflexivity).
  destruct (run_with_result _ _ Hres) as [st Hrun].
  exists st. split; [exact Hrun|].
  destruct (proj2 (failure_leaves_end_untouched _ _ _) _ _ Hrun)
    as (Hun & _ & Hblue).
  split; [exact Hun|]. apply Hblue. vm_compute. reflexivity.
Defined.

Lemma start_never_recoloured_witness :
  ∃ st, a_star_algorithm 20 (ready open_grid_painted) (0,0) (2,2)
        = Some (true, st)
        ∧ color_of (grid st) (0,0) = Some PINK
        ∧ Forall (λ ev, ¬ is_make_of (0,0) ev) (trace st).
Proof.
  assert (Hres : fst <$> a_star_algorithm 20 (ready open_grid_painted)
                           (0,0) (2,2) = Some true)
    by (vm_compute; reflexivity).
  destruct (run_with_result _ _ Hres) as [st Hrun].
  exists st. split; [exact Hrun|].
  assert (Hne : ((0,0) : pos) ≠ (2,2)) by discriminate.
  assert (Hpink : color_of (ready open_grid_painted) (0,0) = Some PINK)
    by (vm_compute; reflexivity).
  destruct (proj2 (start_never_recoloured _ _ _ Hne Hpink) _ _ _ Hrun)
    as (Htr & _ & _ & _ & Hcol).
  split; [exact Hcol|exact Htr].
Defined.

Lemma search_deterministic_fifo_witness :
  ∃ st, a_star_algorithm 20 (ready open_grid_painted) (0,0) (2,2)
        = Some (true, st)
        ∧ a_star_algorithm 30 (ready open_grid_painted) (0,0) (2,2)
          = Some (true, st).
Proof.
  assert (H1 : fst <$> a_star_algorithm 20 (ready open_grid_painted)
                         (0,0) (2,2) = Some true)
    by (vm_compute; reflexivity).
  assert (H2 : fst <$> a_star_algorithm 30 (ready open_grid_painted)
                         (0,0) (2,2) = Some true)
    by (vm_compute; reflexivity).
  destruct (run_with_result _ _ H1) as [st1 Hr1].
  destruct (run_with_result _ _ H2) as [st2 Hr2].
  destruct (proj1 (search_deterministic_fifo _ _ _) _ _ _ _ Hr1 Hr2)
    as (Heq & _).
  exists st1. split; [exact Hr1|]. rewrite Heq. exact Hr2.
Defined.

Lemma pop_init g start endp :
  pop (init_state g start endp)
  = Some (Some (start,
       mkState g 0 [] ∅ (g_score (init_state g start endp))
               (f_score (init_state g start endp)) ({[start]} ∖ {[start]})
               [EvPut (Fin 0, 0, start); EvGet start])).
Proof.
  unfold pop. simpl.
  destruct (decide (start ∈ ({[start]} : gset pos))) as [_|Hn]; cycle 1.
  { destruct Hn. by apply elem_of_singleton. }
  simpl. rewrite decide_True by reflexivity. reflexivity.
Qed.

(** ** Colours of one expansion *)

Lemma score_ltb_add_1 a : score_ltb (score_add a 1) a = false.
Proof. destruct a; simpl; [apply Z.ltb_ge; lia|done]. Qed.

Lemma relax_insert_not_current endp current st n st' :
  relax endp current st n = Some st' →
  st' = st ∨ (n ≠ current ∧ is_Some (g_score st !! n)).
Proof.
  intros (gc & gn & Hgc & Hgn & Hcase)%relax_inv.
  destruct Hcase as [[_ ->]|[(Hlt & _)|(Hlt & _)]]; [by left|right..];
    (split; [|by eexists]); intros ->;
    rewrite Hgc in Hgn; injection Hgn as <-;
    by rewrite score_ltb_add_1 in Hlt.
Qed.

Lemma is_Some_alter_color (c : Color) (p q : pos) (m : gmap pos Node) :
  is_Some (alter (set_color c) p m !! q) ↔ is_Some (m !! q).
Proof.
  destruct (decide (p = q)) as [->|Hne].
  - rewrite lookup_alter_eq. by rewrite fmap_is_Some.
  - by rewrite lookup_alter_ne.
Qed.

Lemma color_of_paint_cell c p g :
  is_Some (cells g !! p) → color_of (paint c p g) p = Some c.
Proof.
  intros [n Hn]. rewrite color_of_paint_eq. unfold color_of. by rewrite Hn.
Qed.

Lemma frontier_open_loop g start endp st :
  loop_state g start endp st → frontier_open start st.
Proof.
  revert st.
  apply (loop_state_invariant g start endp (frontier_open start)
    (λ current _ s, frontier_open start s
                    ∧ current ∉ entry_node <$> open_set s));
    unfold frontier_open.
  - simpl. split.
    + intros p. rewrite lookup_insert. case_decide; [by left|].
      rewrite lookup_fmap, fmap_is_Some. by right.
    + intros e He%list_elem_of_singleton Hne. by subst e.
  - intros st current st1 ns Hls [Hdom Hgreen] Hpop _ _.
    destruct (hash_inv_loop _ _ _ _ Hls) as [_ Hnd].
    apply pop_Some in Hpop as (e & q' & Hget & -> & _ & ->).
    apply pq_get_Some in Hget as (_ & q1 & q2 & Hq12 & ->). simpl.
    rewrite Hq12 in Hnd, Hgreen.
    split; [split; [done|]|].
    + intros e' He'. apply Hgreen. rewrite elem_of_app in He'.
      rewrite elem_of_app, elem_of_cons. tauto.
    + rewrite fmap_app, fmap_cons in Hnd. rewrite fmap_app.
      apply NoDup_app in Hnd as (_ & Hn12 & Hn2).
      apply NoDup_cons in Hn2 as [Hn2 _].
      rewrite elem_of_app. intros [Hin|Hin]; [|done].
      apply (Hn12 _ Hin). by left.
  - intros current ns st n st' [[Hdom Hgreen] Hcur] _ Hrel.
    pose proof (relax_insert_not_current _ _ _ _ _ Hrel) as Hnc.
    apply relax_inv in Hrel as (gc & gn & _ & Hgn & Hcase).
    destruct Hcase as [[_ ->]|[(_ & _ & ->)|(_ & _ & ->)]]; [done|..];
      destruct Hnc as [Heq|[Hne _]].
    + simpl. split; [split; [|done]|done].
      intros p Hp. apply Hdom. revert Hp. apply insert_is_Some_same.
      by eexists.
    + simpl. split; [split; [|done]|done].
      intros p Hp. apply Hdom. revert Hp. apply insert_is_Some_same.
      by eexists.
    + exfalso. apply (f_equal count) in Heq. simpl in Heq. lia.
    + assert (Hcell : n ≠ start → is_Some (cells (grid st) !! n)).
      { intros Hns. destruct (Hdom n) as [?|?]; [by eexists|done..]. }
      simpl. split; [split|].
      * intros p Hp. rewrite is_Some_alter_color. apply Hdom. revert Hp.
        apply insert_is_Some_same. by eexists.
      * intros e He Hes. unfold pq_put in He.
        destruct (decide (entry_node e = n)) as [Hen|Hen].
        -- rewrite Hen. apply color_of_paint_cell, Hcell. by rewrite <- Hen.
        -- rewrite color_of_paint_ne by done. apply Hgreen; [|done].
           apply elem_of_app in He as [He|He%list_elem_of_singleton]; [done|].
           by subst e.
      * unfold pq_put. rewrite fmap_app, elem_of_app. simpl.
        intros [?|Hin%list_elem_of_singleton]; [done|]. by apply Hne.
  - intros current ns st [[Hdom Hgreen] Hcur].
    destruct (decide (current = start)); simpl; [done|]. split.
    + intros p Hp. rewrite is_Some_alter_color. by apply Hdom.
    + intros e He Hes. rewrite color_of_paint_ne; [by apply Hgreen|].
      intros Heq. apply Hcur. rewrite Heq. by apply list_elem_of_fmap_2.
Qed.

Lemma relax_all_keeps_current endp current ns st st' :
  relax_all endp current st ns = Some st' →
  color_of (grid st') current = color_of (grid st) current.
Proof.
  apply (relax_all_preserves
    (λ s, color_of (grid s) current = color_of (grid st) current)); [|done].
  intros s n s' _ Hs Hrel.
  pose proof (relax_insert_not_current _ _ _ _ _ Hrel) as Hnc.
  apply relax_inv in Hrel as (gc & gn & _ & _ & Hcase).
  destruct Hcase as [[_ ->]|[(_ & _ & ->)|(_ & _ & ->)]]; [done|done|].
  destruct Hnc as [Heq|[Hne _]].
  - exfalso. apply (f_equal count) in Heq. simpl in Heq. lia.
  - simpl. by rewrite color_of_paint_ne.
Qed.

Lemma expansion_colours g start endp st current st1 st2 :
  loop_state g start endp st →
  pop st = Some (Some (current, st1)) →
  current ≠ endp →
  expand start endp current st1 = Some st2 →
  ∃ ns st' es,
    neighbours_of (grid st) current = Some ns
    ∧ relax_all endp current st1 ns = Some st'
    ∧ open_set st2 = open_set st1 ++ es
    ∧ trace st2 = trace st ++ [EvGet current] ++ insertions es
                  ++ [EvDraw (grid st')]
                  ++ (if decide (current = start) then []
                      else [EvMake RED current])
    ∧ grid st2 = (if decide (current = start) then grid st'
                  else make_closed current (grid st'))
    ∧ (∀ e, e ∈ es → color_of (grid st') (entry_node e) = Some GREEN)
    ∧ (current ≠ start →
       color_of (grid st') current = Some GREEN
       ∧ color_of (grid st2) current = Some RED).
Proof.
  intros Hls Hpop Hne Hexp.
  destruct (expansion_trace _ _ _ _ _ _ Hpop Hexp)
    as (ns & st' & es & Hns & Hrel & Hq & Htr & Hgrid).
  exists ns, st', es. do 5 (split; [done|]).
  assert (Hls2 : loop_state g start endp st2) by (by eapply loop_next).
  destruct (frontier_open_loop _ _ _ _ Hls) as [_ Hgreen].
  destruct (frontier_open_loop _ _ _ _ Hls2) as [_ Hgreen2].
  destruct (start_inv_loop _ _ _ _ Hls2) as (_ & _ & _ & _ & Hmk & _).
  pose proof (relax_all_keeps_current _ _ _ _ _ Hrel) as Hkeep.
  apply pop_Some in Hpop as (e0 & q' & Hget & -> & _ & ->).
  apply pq_get_Some in Hget as (_ & q1 & q2 & Hq12 & ->). simpl in *.
  assert (Hcur : entry_node e0 ≠ start →
            color_of (grid st') (entry_node e0) = Some GREEN
            ∧ color_of (grid st2) (entry_node e0) = Some RED).
  { intros Hns'. assert (Hg : color_of (grid st') (entry_node e0) = Some GREEN).
    { rewrite Hkeep. apply Hgreen; [|done]. rewrite Hq12.
      rewrite elem_of_app, elem_of_cons. tauto. }
    split; [done|]. rewrite Hgrid, decide_False by done.
    unfold make_closed. by rewrite color_of_paint_eq, Hg. }
  split; [|done].
  intros e He.
  assert (Hes : entry_node e ≠ start).
  { intros Heq.
    assert (Hin : EvMake GREEN (entry_node e) ∈ insertions es).
    { unfold insertions. apply list_elem_of_bind. exists e. split; [|done].
      right. by left. }
    rewrite Forall_forall in Hmk.
    apply (Hmk (EvMake GREEN (entry_node e))); [|done].
    rewrite Htr. repeat first [rewrite elem_of_app | rewrite elem_of_cons].
    tauto. }
  assert (Hg2 : color_of (grid st2) (entry_node e) = Some GREEN).
  { apply Hgreen2; [|done]. rewrite Hq. apply elem_of_app. by right. }
  rewrite Hgrid in Hg2. destruct (decide (entry_node e0 = start)); [done|].
  destruct (decide (entry_node e0 = entry_node e)) as [Heq|Hneq].
  - destruct (Hcur ltac:(done)) as [_ Hred].
    rewrite Hgrid, Heq in Hred. rewrite Heq in Hg2. congruence.
  - unfold make_closed in Hg2. by rewrite color_of_paint_ne in Hg2.
Qed.

(** The second iteration of the search on the open 3 by 3 grid pops
    [(1,0)], the first cell the start inserted. *)
Lemma open_grid_second_pop :
  ∃ st st1 st2,
    loop_state (ready open_grid_painted) (0,0) (2,2) st
    ∧ pop st = Some (Some ((1,0), st1))
    ∧ expand (0,0) (2,2) (1,0) st1 = Some st2.
Proof.
  pose proof (pop_init (ready open_grid_painted) (0,0) (2,2)) as Hpop0.
  assert (Hall :
    (st ← expand (0,0) (2,2) (0,0)
           (mkState (ready open_grid_painted) 0 [] ∅
              (g_score (init_state (ready open_grid_painted) (0,0) (2,2)))
              (f_score (init_state (ready open_grid_painted) (0,0) (2,2)))
              ({[(0,0)]} ∖ {[(0,0)]})
              [EvPut (Fin 0, 0, (0,0)); EvGet (0,0)]);
     r ← pop st;
     match r with
     | Some (c, st1) => _ ← expand (0,0) (2,2) c st1; Some c
     | None => None
     end) = Some (1,0)) by (vm_compute; reflexivity).
  destruct (expand (0,0) (2,2) (0,0) _) as [st|] eqn:Hexp0;
    [|discriminate Hall].
  cbn [mbind option_bind] in Hall.
  destruct (pop st) as [[[c st1]|]|] eqn:Hpop;
    cbn [mbind option_bind] in Hall; [|discriminate Hall..].
  destruct (expand (0,0) (2,2) c st1) as [st2|] eqn:Hexp;
    cbn [mbind option_bind] in Hall; [|discriminate Hall].
  injection Hall as ->.
  exists st, st1, st2. split; [|by split].
  eapply loop_next; [apply loop_init|exact Hpop0|discriminate|exact Hexp0].
Qed.

(** C6: an iteration that pops a cell other than [end] adds to the trace,
    in this order, the [get], the insertions of its relaxation (each [put]
    followed at once by [make_open] on the queued cell), one call of
    [draw] on the grid as the relaxations left it, and then [make_closed]
    on the popped cell unless it is the start.  In the grid given to
    [draw] every cell inserted in this iteration is green and the popped
    cell, unless it is the start, is still green; it is red once the
    iteration is over.  Over the iterations of a run there are as many
    [draw]s as [get]s. *)
Theorem expansion_step_events (g : Grid) (start endp : pos) :
  (∀ st current st1 st2,
     loop_state g start endp st →
     pop st = Some (Some (current, st1)) →
     current ≠ endp →
     expand start endp current st1 = Some st2 →
     ∃ ns st' es,
       neighbours_of (grid st) current = Some ns
       ∧ relax_all endp current st1 ns = Some st'
       ∧ open_set st2 = open_set st1 ++ es
       ∧ trace st2 = trace st ++ [EvGet current] ++ insertions es
                     ++ [EvDraw (grid st')]
                     ++ (if decide (current = start) then []
                         else [EvMake RED current])
       ∧ grid st2 = (if decide (current = start) then grid st'
                     else make_closed current (grid st'))
       ∧ (∀ e, e ∈ es → color_of (grid st') (entry_node e) = Some GREEN)
       ∧ (current ≠ start →
          color_of (grid st') current = Some GREEN
          ∧ color_of (grid st2) current = Some RED))
  ∧ (∀ st, loop_state g start endp st →
       length (filter is_draw (trace st)) = length (filter is_get (trace st))).
Proof.
  split.
  - apply expansion_colours.
  - apply loop_state_draws_gets.
Qed.

Lemma expansion_step_events_witness :
  ∃ st st1 st2,
    loop_state (ready open_grid_painted) (0,0) (2,2) st
    ∧ pop st = Some (Some ((1,0), st1))
    ∧ expand (0,0) (2,2) (1,0) st1 = Some st2
    ∧ (∃ es g', trace st2
                = trace st ++ [EvGet (1,0)] ++ insertions es
                  ++ [EvDraw g'; EvMake RED (1,0)])
    ∧ color_of (grid st2) (1,0) = Some RED.
Proof.
  destruct open_grid_second_pop as (st & st1 & st2 & Hls & Hpop & Hexp).
  exists st, st1, st2. do 3 (split; [assumption|]).
  assert (Hne : ((1,0) : pos) ≠ (2,2)) by discriminate.
  assert (Hns : ((1,0) : pos) ≠ (0,0)) by discriminate.
  destruct (proj1 (expansion_step_events (ready open_grid_painted)
                     (0,0) (2,2)) _ _ _ _ Hls Hpop Hne Hexp)
    as (ns & st' & es & _ & _ & _ & Htr & _ & _ & Hcol).
  split.
  - exists es, (grid st'). rewrite Htr.
    rewrite decide_False by exact Hns. reflexivity.
  - exact (proj2 (Hcol Hns)).
Defined.

(** C6 (counterexample): on the open 3 by 3 grid the second iteration
    pops [(1,0)]; when its [draw] runs, after the neighbours of [(1,0)]
    have been processed, [(1,0)] is still green in the grid drawn, and
    [make_closed] on it is the next event. *)
Lemma expanded_cell_open_when_drawn :
  ∃ st st1 st2 pre g',
    loop_state (ready open_grid_painted) (0,0) (2,2) st
    ∧ pop st = Some (Some ((1,0), st1))
    ∧ expand (0,0) (2,2) (1,0) st1 = Some st2
    ∧ trace st2 = pre ++ [EvDraw g'; EvMake RED (1,0)]
    ∧ color_of g' (1,0) = Some GREEN
    ∧ color_of g' (1,0) ≠ Some RED.
Proof.
  destruct open_grid_second_pop as (st & st1 & st2 & Hls & Hpop & Hexp).
  assert (Hne : ((1,0) : pos) ≠ (2,2)) by discriminate.
  assert (Hns : ((1,0) : pos) ≠ (0,0)) by discriminate.
  destruct (expansion_colours _ _ _ _ _ _ _ Hls Hpop Hne Hexp)
    as (ns & st' & es & _ & _ & _ & Htr & _ & _ & Hcol).
  destruct (Hcol Hns) as [Hgreen _].
  exists st, st1, st2, (trace st ++ [EvGet (1,0)] ++ insertions es), (grid st').
  do 3 (split; [assumption|]). split.
  - rewrite Htr, decide_False by exact Hns. by rewrite <- !app_assoc.
  - split; [exact Hgreen|]. rewrite Hgreen. discriminate.
Qed.

(** ** A run that misses the shortest path *)

(** C1 (evaluation at the failing input): on the 50 by 50 grid
    [detour_grid_painted] after the neighbour pass, a barrier-free walk of
    11 moves leads from the start [(0,2)] to the end [(7,0)] and
    breadth-first search finds distance 11, but the search returns [True]
    with a predecessor chain of 13 moves.  The cells [(3,3)] and [(5,3)]
    are first queued with a gScore 2 too large; the later improvement
    rewrites [g_score] and [f_score] but, the cell being in
    [open_set_hash], puts no new entry, so they wait under the old
    priority while the longer route reaches the end. *)
Theorem a_star_detour_not_shortest :
  let g := ready detour_grid_painted in
  wf_grid g ∧ neighbours_up_to_date g
  ∧ grid_path g (0,2) detour_short_path (7,0)
  ∧ length detour_short_path = 11%nat
  ∧ bfs_distance g (0,2) (7,0) = Some 11%nat
  ∧ ∃ st, a_star_algorithm 60 g (0,2) (7,0) = Some (true, st)
          ∧ length <$> chain 30 (came_from st) (7,0) = Some 13%nat.
Proof.
  intros g. destruct detour_grid_ready as (Hwf & Hup & _).
  split; [exact Hwf|]. split; [exact Hup|].
  split; [|split; [reflexivity|split]].
  - apply (bool_decide_unpack _). vm_compute. reflexivity.
  - vm_compute. reflexivity.
  - assert (Hres : (r ← a_star_algorithm 60 g (0,2) (7,0);
                    l ← chain 30 (came_from r.2) (7,0);
                    Some (r.1, length l)) = Some (true, 13%nat))
      by (vm_compute; reflexivity).
    destruct (a_star_algorithm 60 g (0,2) (7,0)) as [[b st]|];
      [|discriminate]. cbn [mbind option_bind fst snd] in Hres.
    destruct (chain 30 (came_from st) (7,0)) as [l|] eqn:Hch;
      [|discriminate].
    cbn [mbind option_bind] in Hres.
    injection Hres as -> Hlen. exists st. split; [reflexivity|].
    rewrite Hch. change (Some (length l) = Some 13%nat). by rewrite Hlen.
Qed.

(** ** Scores, priorities and the predecessor tree *)







Lemma relax_nonneg endp current st n st' :
  nonneg_scores st → relax endp current st n = Some st' → nonneg_scores st'.
Proof.
  intros Hnn Hrel.
  pose proof (relax_inv _ _ _ _ _ Hrel) as (gc & gn & Hgc & Hgn & _).
  destruct (relax_progress endp current st n Hnn) as (st'' & Hrel' & Hnn' & _);
    [by eexists..|].
  rewrite Hrel in Hrel'. by injection Hrel' as <-.
Qed.

Lemma tree_inv_loop g start endp st :
  loop_state g start endp st → tree_inv g start st.
Proof.
  revert st.
  apply (loop_state_invariant g start endp (tree_inv g start)
    (λ current ns s, tree_inv g start s
                     ∧ neighbours_of g current = Some ns
                     ∧ nonneg_scores s)); unfold tree_inv.
  - simpl. split; [|split].
    + intros n z. rewrite lookup_insert. case_decide as Hn.
      * intros [= <-]. subst. by exists [].
      * rewrite lookup_fmap. by destruct (cells g !! n).
    + intros n p. by rewrite lookup_empty.
    + intros n z. rewrite lookup_insert. case_decide as Hn; [by left|].
      rewrite lookup_fmap. by destruct (cells g !! n).
  - intros st current st1 ns Hls HP Hpop _ Hns.
    pose proof (grid_inv_loop _ _ _ _ Hls current) as Hg.
    destruct (start_inv_loop _ _ _ _ Hls) as (_ & Hnn & _).
    apply pop_Some in Hpop as (e & q' & _ & -> & _ & ->). simpl in *.
    split; [done|]. split; [congruence|done].
  - intros current ns st n st' (HP & Hns & Hnn) Hn Hrel.
    split; [|split; [done|by eapply relax_nonneg]].
    apply relax_inv in Hrel as (gc & gn & Hgc & Hgn & Hcase).
    destruct Hcase as [[_ ->]|Hcase]; [done|].
    assert (Hlt : score_ltb (score_add gc 1) gn = true)
      by (by destruct Hcase as [[? _]|[? _]]).
    destruct (score_ltb_true_Fin _ _ Hlt) as [t Ht].
    pose proof (score_add_Fin_inv _ _ _ Ht) as ->.
    rewrite Ht in *.
    assert (Hne : n ≠ current).
    { intros ->. rewrite Hgc in Hgn. injection Hgn as <-.
      simpl in Hlt. apply Z.ltb_lt in Hlt. lia. }
    destruct HP as (Hwalk & Hcf & Hroot).
    assert (HP' :
      (∀ m z, <[n := Fin t]> (g_score st) !! m = Some (Fin z) →
         ∃ l, walk (neighbour_step g) start l m ∧ Z.of_nat (length l) = z)
      ∧ (∀ m p, <[n := current]> (came_from st) !! m = Some p →
           neighbour_step g p m
           ∧ ∃ zp zn, <[n := Fin t]> (g_score st) !! p = Some (Fin zp)
                      ∧ <[n := Fin t]> (g_score st) !! m = Some (Fin zn)
                      ∧ zp + 1 ≤ zn)
      ∧ (∀ m z, <[n := Fin t]> (g_score st) !! m = Some (Fin z) →
           m = start ∨ is_Some (<[n := current]> (came_from st) !! m))).
    { split; [|split].
      - intros m z. rewrite lookup_insert. case_decide as Hm; [|apply Hwalk].
        intros [= <-]. subst m.
        destruct (Hwalk _ _ Hgc) as (l & Hl & Hlen).
        exists (l ++ [n]). split.
        + eapply walk_snoc; [done|]. by exists ns.
        + rewrite length_app. simpl. lia.
      - intros m p. rewrite lookup_insert. case_decide as Hm.
        + intros [= <-]. subst m. split; [by exists ns|].
          exists (t - 1), t. rewrite lookup_insert_ne by done.
          rewrite lookup_insert_eq. split; [done|]. split; [done|lia].
        + intros Hmp. destruct (Hcf _ _ Hmp) as (Hstep & zp & zn & Hp & Hm' & Hle).
          split; [done|].
          rewrite (lookup_insert_ne _ n m) by done.
          destruct (decide (n = p)) as [->|Hnp].
          * exists t, zn. rewrite lookup_insert_eq.
            split; [done|]. split; [done|].
            rewrite Hgn in Hp. injection Hp as ->.
            simpl in Hlt. apply Z.ltb_lt in Hlt. lia.
          * exists zp, zn. by rewrite lookup_insert_ne.
      - intros m z. rewrite !lookup_insert. case_decide as Hm.
        + intros _. right. by eexists.
        + apply Hroot. }
    by destruct Hcase as [(_ & _ & ->)|(_ & _ & ->)].
  - intros current ns st (HP & _ & _).
    by destruct (decide (current = start)).
Qed.

(** ** Walking the predecessor map *)

Lemma chain_of_tree (g : Grid) (start : pos) (cf : gmap pos pos)
    (gs : gmap pos score) :
  (∀ p z, gs !! p = Some (Fin z) → 0 ≤ z) →
  (∀ n p, cf !! n = Some p →
      neighbour_step g p n
      ∧ ∃ zp zn, gs !! p = Some (Fin zp) ∧ gs !! n = Some (Fin zn)
                 ∧ zp + 1 ≤ zn) →
  (∀ n z, gs !! n = Some (Fin z) → n = start ∨ is_Some (cf !! n)) →
  cf !! start = None →
  ∀ (k : nat) n z, gs !! n = Some (Fin z) → z ≤ Z.of_nat k →
    ∃ l, chain (S k) cf n = Some l
         ∧ walk (back_step g) n l start
         ∧ Z.of_nat (length l) ≤ z
         ∧ Forall (λ p, ∃ zp, gs !! p = Some (Fin zp) ∧ zp < z) l.
Proof.
  intros Hnn Hcf Hroot Hstart.
  induction k as [|k IH]; intros n z Hn Hz.
  - pose proof (Hnn _ _ Hn) as Hz0. assert (z = 0) as -> by lia.
    simpl. destruct (cf !! n) as [p|] eqn:Hp.
    + destruct (Hcf _ _ Hp) as (_ & zp & zn & Hgp & Hgn & Hle).
      rewrite Hn in Hgn. injection Hgn as <-.
      pose proof (Hnn _ _ Hgp). lia.
    + exists []. split; [done|]. split; [|split; [simpl; lia|constructor]].
      simpl. destruct (Hroot _ _ Hn) as [->|[? ?]]; [done|congruence].
  - change (chain (S (S k)) cf n)
      with (match cf !! n with
            | None => Some []
            | Some prev => (prev ::.) <$> chain (S k) cf prev
            end).
    destruct (cf !! n) as [p|] eqn:Hp.
    + destruct (Hcf _ _ Hp) as (Hstep & zp & zn & Hgp & Hgn & Hle).
      rewrite Hn in Hgn. injection Hgn as <-.
      destruct (IH p zp Hgp) as (l & Hl & Hw & Hlen & Hall); [lia|].
      exists (p :: l). rewrite Hl. split; [done|]. split; [done|].
      split; [simpl; lia|].
      constructor; [exists zp; split; [done|lia]|].
      eapply Forall_impl; [exact Hall|].
      intros q (zq & Hq & Hlt). exists zq. split; [done|lia].
    + pose proof (Hnn _ _ Hn) as Hz0.
      exists []. split; [done|]. split; [|split; [simpl; lia|constructor]].
      simpl. destruct (Hroot _ _ Hn) as [->|[? ?]]; [done|congruence].
Qed.

Lemma chain_mono (fuel fuel' : nat) (cf : gmap pos pos) (n : pos) l :
  chain fuel cf n = Some l → (fuel ≤ fuel')%nat → chain fuel' cf n = Some l.
Proof.
  revert fuel' n l. induction fuel as [|fuel IH]; intros fuel' n l;
    [discriminate|].
  intros H Hle. destruct fuel' as [|fuel']; [lia|].
  simpl in *. destruct (cf !! n) as [p|]; [|done].
  destruct (chain fuel cf p) as [l'|] eqn:Hc; simpl in H; [|discriminate].
  rewrite (IH fuel' p l' Hc) by lia. done.
Qed.

Lemma color_of_is_Some g p : is_Some (color_of g p) ↔ is_Some (cells g !! p).
Proof. unfold color_of. by rewrite fmap_is_Some. Qed.

Lemma cells_paint_is_Some c p g q :
  is_Some (cells (paint c p g) !! q) ↔ is_Some (cells g !! q).
Proof.
  unfold paint; simpl. destruct (decide (p = q)) as [->|Hne].
  - rewrite lookup_alter_eq. by rewrite fmap_is_Some.
  - by rewrite lookup_alter_ne.
Qed.

Lemma reconstruct_path_spec fuel (l : list pos) :
  ∀ n st,
    chain fuel (came_from st) n = Some l →
    (∀ p, p ∈ l → is_Some (cells (grid st) !! p)) →
    ∃ st', reconstruct_path fuel n st = Some st'
      ∧ (∀ p, color_of (grid st') p = path_colours l (grid st) p)
      ∧ came_from st' = came_from st
      ∧ g_score st' = g_score st
      ∧ f_score st' = f_score st
      ∧ open_set st' = open_set st
      ∧ count st' = count st
      ∧ (∃ evs, trace st' = trace st ++ evs
                ∧ length (filter is_draw evs) = length l
                ∧ Forall (λ ev, match ev with
                                | EvMake c q => c = PURPLE ∧ q ∈ l
                                | EvDraw _ => True
                                | _ => False
                                end) evs).
Proof.
  revert l. induction fuel as [|fuel IH]; intros l n st; [discriminate|].
  simpl. destruct (came_from st !! n) as [prev|] eqn:Hprev; cycle 1.
  { intros [= <-] _. exists st. split; [done|]. split.
    - intros p. unfold path_colours. rewrite decide_False; [done|].
      apply not_elem_of_nil.
    - repeat split; try done. exists []. by rewrite app_nil_r. }
  destruct (chain fuel (came_from st) prev) as [l'|] eqn:Hch; simpl;
    [|discriminate].
  intros [= <-] Hcells.
  destruct (Hcells prev) as [nd Hnd]; [by left|]. rewrite Hnd. simpl.
  set (st1 := if is_start nd then st else mark PURPLE prev st).
  assert (Hcf1 : came_from (call_draw st1) = came_from st)
    by (unfold st1; by destruct (is_start nd)).
  destruct (IH l' prev (call_draw st1)) as (st' & Hrec & Hcol & Hcf & Hrest).
  { by rewrite Hcf1. }
  { intros p Hp. unfold st1. destruct (is_start nd); simpl.
    - apply Hcells. by right.
    - apply cells_paint_is_Some, Hcells. by right. }
  exists st'. split; [done|]. split; [|split; [congruence|]].
  - intros p. rewrite Hcol. unfold path_colours.
    assert (Hnd' : color_of (grid st) prev = Some (color nd))
      by (unfold color_of; by rewrite Hnd).
    destruct (decide (p = prev)) as [->|Hne].
    + rewrite (decide_True (P := prev ∈ prev :: l')) by (by left).
      rewrite Hnd'. unfold st1, is_start.
      destruct (decide (color nd = PINK)) as [Hc|Hc].
      * rewrite bool_decide_eq_true_2 by done. simpl. rewrite Hnd', Hc.
        by destruct (decide (prev ∈ l')).
      * rewrite bool_decide_eq_false_2 by done. simpl.
        rewrite color_of_paint_eq, Hnd'. simpl.
        destruct (decide (prev ∈ l')); by destruct (color nd).
    + assert (Hsame : color_of (grid (call_draw st1)) p = color_of (grid st) p).
      { unfold st1. destruct (is_start nd); simpl; [done|].
        by rewrite color_of_paint_ne. }
      rewrite Hsame.
      destruct (decide (p ∈ l')) as [Hin|Hnin].
      * rewrite decide_True by (by right). done.
      * rewrite decide_False; [done|].
        intros [?|?]%elem_of_cons; done.
  - destruct Hrest as (Hg & Hf & Hq & Hc & evs & Htr & Hlen & Hall).
    assert (Hsame : g_score (call_draw st1) = g_score st
                    ∧ f_score (call_draw st1) = f_score st
                    ∧ open_set (call_draw st1) = open_set st
                    ∧ count (call_draw st1) = count st)
      by (unfold st1; by destruct (is_start nd)).
    destruct Hsame as (Hg1 & Hf1 & Hq1 & Hc1).
    split; [congruence|]. split; [congruence|]. split; [congruence|].
    split; [congruence|].
    assert (Hall' : Forall (λ ev, match ev with
                                  | EvMake c q => c = PURPLE ∧ q ∈ prev :: l'
                                  | EvDraw _ => True
                                  | _ => False
                                  end) evs).
    { eapply Forall_impl; [exact Hall|].
      intros [| |c q|] H; try done. destruct H. split; [done|by right]. }
    unfold st1 in Htr. destruct (is_start nd); simpl in Htr.
    + exists ([EvDraw (grid st)] ++ evs). rewrite Htr, <- app_assoc.
      split; [done|]. split.
      * rewrite filter_app, length_app. simpl. by rewrite Hlen.
      * apply Forall_app. split; [|done]. by repeat constructor.
    + exists ([EvMake PURPLE prev; EvDraw (paint PURPLE prev (grid st))] ++ evs).
      rewrite Htr, <- !app_assoc. split; [done|]. split.
      * rewrite filter_app, length_app. simpl. by rewrite Hlen.
      * apply Forall_app. split; [|done].
        repeat constructor.
Qed.

(** ** What the search has explored *)

Lemma relax_finite_mono endp current st n st' p :
  finite_at (g_score st) p → relax endp current st n = Some st' →
  finite_at (g_score st') p.
Proof.
  intros [z Hz] (gc & gn & _ & _ & Hcase)%relax_inv.
  destruct Hcase as [[_ ->]|Hcase]; [by exists z|].
  assert (Hlt : score_ltb (score_add gc 1) gn = true)
    by (by destruct Hcase as [[? _]|[? _]]).
  destruct (score_ltb_true_Fin _ _ Hlt) as [t Ht].
  assert (Hg : finite_at (<[n := score_add gc 1]> (g_score st)) p).
  { unfold finite_at. rewrite lookup_insert. case_decide; [|by exists z].
    rewrite Ht. by exists t. }
  by destruct Hcase as [(_ & _ & ->)|(_ & _ & ->)].
Qed.

Lemma relax_all_finite_mono endp current ns st st' p :
  finite_at (g_score st) p → relax_all endp current st ns = Some st' →
  finite_at (g_score st') p.
Proof.
  intros Hp. apply (relax_all_preserves (λ s, finite_at (g_score s) p));
    [|done].
  intros s n s' _ Hs Hrel. by eapply relax_finite_mono.
Qed.

Lemma relax_all_finite endp current ns st st' :
  finite_at (g_score st) current →
  relax_all endp current st ns = Some st' →
  ∀ n, n ∈ ns → finite_at (g_score st') n.
Proof.
  revert st. induction ns as [|m ns IH]; intros st Hc Hrel n Hn.
  { by apply elem_of_nil in Hn. }
  simpl in Hrel.
  destruct (relax endp current st m) as [s1|] eqn:Hr; simpl in Hrel;
    [|discriminate].
  assert (Hm : finite_at (g_score s1) m).
  { destruct Hc as [zc Hzc].
    apply relax_inv in Hr as (gc & gn & Hgc & Hgn & Hcase).
    rewrite Hzc in Hgc. injection Hgc as <-.
    destruct Hcase as [[Hlt ->]|[(_ & _ & ->)|(_ & _ & ->)]]; simpl.
    - destruct gn as [z|]; [by exists z|done].
    - unfold finite_at. rewrite lookup_insert_eq. by eexists.
    - unfold finite_at. rewrite lookup_insert_eq. by eexists. }
  apply elem_of_cons in Hn as [->|Hn].
  - by eapply relax_all_finite_mono.
  - eapply IH; [|done..]. by eapply relax_finite_mono.
Qed.

Lemma queued_finite_loop g start endp st :
  loop_state g start endp st →
  Forall (λ e, finite_at (g_score st) (entry_node e)) (open_set st).
Proof.
  revert st.
  apply (loop_state_invariant g start endp
    (λ s, Forall (λ e, finite_at (g_score s) (entry_node e)) (open_set s))
    (λ _ _ s, Forall (λ e, finite_at (g_score s) (entry_node e))
                     (open_set s))).
  - simpl. apply Forall_singleton. simpl. exists 0.
    by rewrite lookup_insert_eq.
  - intros st current st1 ns _ HP Hpop _ _.
    apply pop_Some in Hpop as (e & q' & Hget & _ & _ & ->).
    apply pq_get_Some in Hget as (_ & q1 & q2 & Hq12 & ->). simpl.
    rewrite Hq12 in HP.
    apply Forall_app in HP as [H1 H2]. apply Forall_cons in H2 as [_ H2].
    by apply Forall_app.
  - intros current ns st n st' HP _ Hrel.
    assert (Hmono : Forall (λ e, finite_at (g_score st') (entry_node e))
                           (open_set st)).
    { eapply Forall_impl; [exact HP|]. intros e He. simpl in He.
      eapply relax_finite_mono; [exact He|exact Hrel]. }
    apply relax_inv in Hrel as (gc & gn & _ & _ & Hcase).
    destruct Hcase as [[_ ->]|[(_ & _ & ->)|(Hlt & _ & ->)]]; [done|done|].
    simpl in *. unfold pq_put. apply Forall_app. split; [done|].
    apply Forall_singleton. simpl.
    destruct (score_ltb_true_Fin _ _ Hlt) as [t Ht]. exists t.
    by rewrite lookup_insert_eq, Ht.
  - intros current ns st HP. by destruct (decide (current = start)).
Qed.

(** A cell with a finite gScore is in the frontier or has been expanded,
    and then all cells of its neighbour list have finite gScores too. *)
Lemma expanded_inv_loop g start endp st :
  loop_state g start endp st →
  ∀ p, finite_at (g_score st) p →
    p ∈ open_set_hash st
    ∨ ∀ ns q, neighbours_of g p = Some ns → q ∈ ns →
              finite_at (g_score st) q.
Proof.
  induction 1 as [|st current st1 st2 Hls IH Hpop Hne Hexp].
  - intros p [z Hz]. left. simpl in *.
    rewrite lookup_insert in Hz. case_decide as Hp.
    + subst. by apply elem_of_singleton.
    + rewrite lookup_fmap in Hz. by destruct (cells g !! p).
  - pose proof (grid_inv_loop _ _ _ _ Hls current) as Hg.
    pose proof (queued_finite_loop _ _ _ _ Hls) as Hqf.
    apply expand_Some in Hexp as (ns & st' & Hns & Hrel & ->).
    apply pop_Some in Hpop as (e & q' & Hget & -> & Hin & ->).
    apply pq_get_Some in Hget as (_ & q1 & q2 & Hq12 & ->).
    simpl in Hns. rewrite Hg in Hns.
    set (st1 := mkState (grid st) (count st) (q1 ++ q2) (came_from st)
                  (g_score st) (f_score st)
                  (open_set_hash st ∖ {[entry_node e]})
                  (trace st ++ [EvGet (entry_node e)])) in *.
    assert (Hcur : finite_at (g_score st1) (entry_node e)).
    { rewrite Forall_forall in Hqf. apply Hqf. rewrite Hq12.
      apply elem_of_app. right. by left. }
    assert (Hmid : ∀ p, finite_at (g_score st') p →
      p ∈ open_set_hash st' ∨ p = entry_node e
      ∨ ∀ ns q, neighbours_of g p = Some ns → q ∈ ns →
                finite_at (g_score st') q).
    { revert Hrel.
      apply (relax_all_preserves (λ s, ∀ p, finite_at (g_score s) p →
        p ∈ open_set_hash s ∨ p = entry_node e
        ∨ ∀ ns q, neighbours_of g p = Some ns → q ∈ ns →
                  finite_at (g_score s) q)).
      - intros s n s' _ Hs Hr p Hp.
        pose proof (relax_inv _ _ _ _ _ Hr) as (gc & gn & _ & Hgn & Hcase).
        destruct Hcase as [[_ ->]|Hcase]; [by apply Hs|].
        destruct (decide (p = n)) as [->|Hpn].
        + left. destruct Hcase as [(_ & ? & ->)|(_ & _ & ->)]; simpl; [done|].
          apply elem_of_union. left. by apply elem_of_singleton.
        + assert (Hp' : finite_at (g_score s) p).
          { destruct Hp as [z Hz]. exists z.
            destruct Hcase as [(_ & _ & ->)|(_ & _ & ->)]; simpl in Hz;
              by rewrite lookup_insert_ne in Hz. }
          destruct (Hs p Hp') as [Hh|[->|Hnb]].
          * left. destruct Hcase as [(_ & _ & ->)|(_ & _ & ->)]; simpl;
              [done|]. apply elem_of_union. by right.
          * right. by left.
          * right. right. intros ns' q Hns' Hq.
            eapply relax_finite_mono; [|exact Hr]. by eapply Hnb.
      - intros p Hp. destruct (IH p Hp) as [Hh|Hnb].
        + destruct (decide (p = entry_node e)) as [->|Hpe]; [by right; left|].
          left. simpl. apply elem_of_difference. split; [done|].
          by intros ?%elem_of_singleton.
        + by do 2 right. }
    assert (Hfin : ∀ p,
      finite_at (g_score st') p →
      p ∈ open_set_hash st'
      ∨ ∀ ns q, neighbours_of g p = Some ns → q ∈ ns →
                finite_at (g_score st') q).
    { intros p Hp. destruct (Hmid p Hp) as [?|[->|?]]; [by left| |by right].
      right. intros ns' q Hns' Hq. rewrite Hns in Hns'. injection Hns' as <-.
      exact (relax_all_finite _ _ _ _ _ Hcur Hrel q Hq). }
    by destruct (decide (entry_node e = start)).
Qed.

Lemma end_finite_queued_loop g start endp st :
  loop_state g start endp st →
  finite_at (g_score st) endp → endp ∈ open_set_hash st.
Proof.
  revert st.
  apply (loop_state_invariant g start endp
    (λ s, finite_at (g_score s) endp → endp ∈ open_set_hash s)
    (λ current _ s, current ≠ endp
       ∧ (finite_at (g_score s) endp → endp ∈ open_set_hash s))).
  - intros [z Hz]. simpl in *. rewrite lookup_insert in Hz.
    case_decide as Hp.
    + subst. by apply elem_of_singleton.
    + rewrite lookup_fmap in Hz. by destruct (cells g !! endp).
  - intros st current st1 ns _ HP Hpop Hne _.
    apply pop_Some in Hpop as (e & q' & _ & -> & _ & ->). simpl.
    split; [done|]. intros Hf. apply elem_of_difference.
    split; [by apply HP|]. intros ?%elem_of_singleton. congruence.
  - intros current ns st n st' [Hne HP] _ Hr. split; [done|].
    pose proof (relax_inv _ _ _ _ _ Hr) as (gc & gn & _ & Hgn & Hcase).
    destruct Hcase as [[_ ->]|Hcase]; [done|].
    intros Hf. destruct (decide (n = endp)) as [->|Hn].
    + destruct Hcase as [(_ & ? & ->)|(_ & _ & ->)]; simpl; [done|].
      apply elem_of_union. left. by apply elem_of_singleton.
    + assert (Hf' : finite_at (g_score st) endp).
      { destruct Hf as [z Hz]. exists z.
        destruct Hcase as [(_ & _ & ->)|(_ & _ & ->)]; simpl in Hz;
          by rewrite lookup_insert_ne in Hz. }
      destruct Hcase as [(_ & _ & ->)|(_ & _ & ->)]; simpl; [by apply HP|].
      apply elem_of_union. right. by apply HP.
  - intros current ns st [_ HP]. by destruct (decide (current = start)).
Qed.

Lemma empty_frontier_unreachable g start endp st :
  loop_state g start endp st → open_set st = [] →
  ¬ reachable g start endp.
Proof.
  intros Hls Hempty [l Hl].
  destruct (hash_inv_loop _ _ _ _ Hls) as [Hh _].
  rewrite Hempty in Hh. simpl in Hh.
  pose proof (expanded_inv_loop _ _ _ _ Hls) as Hexp.
  pose proof (end_finite_queued_loop _ _ _ _ Hls) as Hend.
  destruct (start_inv_loop _ _ _ _ Hls) as (H0 & _).
  assert (Hall : ∀ l a, finite_at (g_score st) a →
            walk (neighbour_step g) a l endp → finite_at (g_score st) endp).
  { clear l Hl. induction l as [|x l IHl]; intros a Ha; simpl.
    - by intros <-.
    - intros [(ns & Hns & Hx) Hw]. apply (IHl x); [|done].
      destruct (Hexp a Ha) as [Hin|Hnb]; [|by eapply Hnb].
      rewrite Hh in Hin. by apply elem_of_empty in Hin. }
  assert (Hf : finite_at (g_score st) endp).
  { apply (Hall l start); [by exists 0|done]. }
  apply Hend in Hf. rewrite Hh in Hf. by apply elem_of_empty in Hf.
Qed.

(** ** Termination in general *)

Lemma search_result_reachable g start endp fuel b st :
  a_star_algorithm fuel g start endp = Some (b, st) →
  b = true ↔ reachable g start endp.
Proof.
  intros Hrun.
  destruct (search_loop_result g start endp _ _ _ _ (loop_init _ _ _) Hrun)
    as (stl & Hls & Hfin).
  destruct b.
  - split; [intros _|done].
    destruct Hfin as (st1 & _ & _ & Hpop & _).
    apply pop_Some in Hpop as (e & q' & Hget & -> & _ & _).
    apply pq_get_Some in Hget as (_ & q1 & q2 & Hq12 & _).
    pose proof (reach_inv_loop _ _ _ _ Hls) as Hr.
    rewrite Forall_forall in Hr. apply Hr. rewrite Hq12.
    apply elem_of_app. right. by left.
  - split; [done|]. intros Hr. exfalso.
    destruct Hfin as [Hpop _]. apply pop_None in Hpop.
    by eapply empty_frontier_unreachable.
Qed.

Section search_total.
Variables (g : Grid) (start endp : pos).
Hypothesis lists_in_grid :
  ∀ p ns q, neighbours_of g p = Some ns → q ∈ ns → is_Some (cells g !! q).
Hypothesis start_in_grid : is_Some (cells g !! start).

Lemma score_dom_loop st :
  loop_state g start endp st →
  ∀ p, is_Some (g_score st !! p) ↔ is_Some (cells g !! p).
Proof.
  revert st.
  apply (loop_state_invariant g start endp
    (λ s, ∀ p, is_Some (g_score s !! p) ↔ is_Some (cells g !! p))
    (λ _ _ s, ∀ p, is_Some (g_score s !! p) ↔ is_Some (cells g !! p))).
  - intros p. simpl. rewrite lookup_insert. case_decide.
    + subst. split; [intros _; exact start_in_grid|]. intros _. by eexists.
    + rewrite lookup_fmap. by rewrite fmap_is_Some.
  - intros st current st1 ns _ HP Hpop _ _.
    by apply pop_Some in Hpop as (e & q' & _ & _ & _ & ->).
  - intros current ns st n st' HP _ (gc & gn & _ & Hgn & Hcase)%relax_inv.
    destruct Hcase as [[_ ->]|[(_ & _ & ->)|(_ & _ & ->)]]; [done|..];
      intros p; simpl; rewrite <- HP; apply insert_is_Some_same; by eexists.
  - intros current ns st HP. by destruct (decide (current = start)).
Qed.

Lemma grid_cells_loop st p :
  loop_state g start endp st →
  is_Some (cells (grid st) !! p) ↔ is_Some (cells g !! p).
Proof.
  intros Hls. pose proof (grid_inv_loop _ _ _ _ Hls p) as Hg.
  unfold neighbours_of in Hg.
  by rewrite <- (fmap_is_Some neighbours), Hg, fmap_is_Some.
Qed.

Lemma iteration_progress st :
  loop_state g start endp st →
  pop st = Some None
  ∨ ∃ current st1 st2,
      pop st = Some (Some (current, st1))
      ∧ expand start endp current st1 = Some st2
      ∧ lex_lt (measure st2) (measure st).
Proof.
  intros Hls.
  destruct (hash_inv_loop _ _ _ _ Hls) as [Hh _].
  pose proof (reach_inv_loop _ _ _ _ Hls) as Hreach.
  destruct (start_inv_loop _ _ _ _ Hls) as (_ & Hnn & _).
  pose proof (score_dom_loop _ Hls) as Hdom.
  pose proof (grid_inv_loop _ _ _ _ Hls) as Hgrid.
  destruct (pq_get (open_set st)) as [[e q']|] eqn:Hget; cycle 1.
  { left. unfold pop. by rewrite Hget. }
  right.
  destruct (pq_get_Some _ _ _ Hget) as (_ & q1 & q2 & Hq12 & ->).
  assert (Hin : e ∈ open_set st).
  { rewrite Hq12. apply elem_of_app. right. by left. }
  assert (Hr : reachable g start (entry_node e)).
  { rewrite Forall_forall in Hreach. by apply Hreach. }
  assert (Hcell : is_Some (cells g !! entry_node e)).
  { destruct Hr as [l Hl].
    exact (walk_ends_in_cell g lists_in_grid l start _ start_in_grid Hl). }
  assert (Hns : ∃ ns, neighbours_of g (entry_node e) = Some ns).
  { destruct Hcell as [c Hc]. exists (neighbours c).
    unfold neighbours_of. by rewrite Hc. }
  destruct Hns as [ns Hns].
  set (st1 := mkState (grid st) (count st) (q1 ++ q2) (came_from st)
                (g_score st) (f_score st)
                (open_set_hash st ∖ {[entry_node e]})
                (trace st ++ [EvGet (entry_node e)])).
  destruct (relax_all_progress endp (entry_node e) ns st1)
    as (st' & Hrel & Hle).
  { exact Hnn. }
  { by apply Hdom. }
  { apply Forall_forall. intros q Hq. apply Hdom.
    exact (lists_in_grid _ _ _ Hns Hq). }
  exists (entry_node e), st1,
    (if decide (entry_node e = start) then call_draw st'
     else mark RED (entry_node e) (call_draw st')).
  split; [|split].
  - unfold pop. rewrite Hget. rewrite decide_True; [done|].
    rewrite Hh. apply elem_of_list_to_set, list_elem_of_fmap. eauto.
  - unfold expand. simpl. rewrite Hgrid, Hns. simpl. rewrite Hrel. done.
  - assert (Hm : measure (if decide (entry_node e = start) then call_draw st'
                          else mark RED (entry_node e) (call_draw st'))
                 = measure st') by (by destruct (decide _)).
    rewrite Hm. unfold lex_le, lex_lt, measure in *. simpl in *.
    rewrite Hq12. rewrite !length_app in *. simpl. lia.
Qed.

(** When the end cell is popped, its predecessor chain leads back to the
    start and [reconstruct_path] walks it to the end. *)
Lemma reconstruct_succeeds st st1 :
  loop_state g start endp st →
  pop st = Some (Some (endp, st1)) →
  ∃ (k : nat) l st2 z,
    g_score st !! endp = Some (Fin z)
    ∧ chain k (came_from st) endp = Some l
    ∧ walk (back_step g) endp l start
    ∧ Z.of_nat (length l) ≤ z
    ∧ Forall (λ p, ∃ zp, g_score st !! p = Some (Fin zp) ∧ zp < z) l
    ∧ reconstruct_path k endp st1 = Some st2
    ∧ (∀ p, color_of (grid st2) p = path_colours l (grid st) p)
    ∧ came_from st2 = came_from st
    ∧ g_score st2 = g_score st
    ∧ ∃ evs, trace st2 = trace st ++ [EvGet endp] ++ evs
             ∧ length (filter is_draw evs) = length l
             ∧ Forall (λ ev, match ev with
                             | EvMake c q => c = PURPLE ∧ q ∈ l
                             | EvDraw _ => True
                             | _ => False
                             end) evs.
Proof.
  intros Hls Hpop.
  destruct (tree_inv_loop _ _ _ _ Hls) as (Hwalk & Hcf & Hroot).
  destruct (start_inv_loop _ _ _ _ Hls) as (_ & Hnn & Hcfs & _).
  pose proof (queued_finite_loop _ _ _ _ Hls) as Hqf.
  apply pop_Some in Hpop as (e & q' & Hget & He & _ & ->).
  apply pq_get_Some in Hget as (_ & q1 & q2 & Hq12 & ->).
  assert (Hfin : finite_at (g_score st) endp).
  { rewrite Forall_forall in Hqf. rewrite He. apply Hqf. rewrite Hq12.
    apply elem_of_app. right. by left. }
  destruct Hfin as [z Hz].
  destruct (chain_of_tree g start (came_from st) (g_score st)
              Hnn Hcf Hroot Hcfs (Z.to_nat z) endp z Hz)
    as (l & Hch & Hw & Hlen & Hall).
  { pose proof (Hnn _ _ Hz). lia. }
  set (st1 := mkState (grid st) (count st) (q1 ++ q2) (came_from st)
                (g_score st) (f_score st)
                (open_set_hash st ∖ {[endp]}) (trace st ++ [EvGet endp])).
  destruct (reconstruct_path_spec (S (Z.to_nat z)) l endp st1)
    as (st2 & Hrec & Hcol & Hcf2 & Hg2 & _ & _ & _ & evs & Htr & Hd & Hev).
  { exact Hch. }
  { intros p Hp. simpl. apply (grid_cells_loop st p Hls).
    rewrite Forall_forall in Hall. destruct (Hall p Hp) as (zp & Hzp & _).
    destruct (Hwalk _ _ Hzp) as (lp & Hlp & _).
    exact (walk_ends_in_cell g lists_in_grid lp start _ start_in_grid Hlp). }
  exists (S (Z.to_nat z)), l, st2, z.
  repeat (split; [done|]).
  exists evs. rewrite Htr. simpl. rewrite <- app_assoc. done.
Qed.

Lemma search_total_aux :
  ∀ a b st, loop_state g start endp st →
    (measure st).1 = a → (measure st).2 = b →
    ∃ fuel r, search_loop fuel start endp st = Some r.
Proof.
  induction a as [a IHa] using lt_wf_ind.
  induction b as [b IHb] using lt_wf_ind.
  intros st Hls Ha Hb.
  destruct (iteration_progress st Hls)
    as [Hnone|(current & st1 & st2 & Hpop & Hexp & Hlt)].
  - exists 1%nat, (false, st). simpl. by rewrite Hnone.
  - destruct (decide (current = endp)) as [->|Hne].
    + destruct (reconstruct_succeeds st st1 Hls Hpop)
        as (k & l & st3 & z & _ & _ & _ & _ & _ & Hrec & _).
      exists (S k), (true, mark BLUE endp st3). simpl. rewrite Hpop. simpl.
      rewrite decide_True by done. by rewrite Hrec.
    + assert (Hls2 : loop_state g start endp st2) by (by eapply loop_next).
      assert (Hrun : ∃ fuel r, search_loop fuel start endp st2 = Some r).
      { destruct Hlt as [Hlt|[Heq Hlt]].
        - apply (IHa (measure st2).1 ltac:(lia) (measure st2).2 st2); done.
        - apply (IHb (measure st2).2 ltac:(lia) st2); [done|lia|done]. }
      destruct Hrun as (fuel & r & Hrun).
      exists (S fuel), r. simpl. rewrite Hpop. simpl.
      rewrite decide_False by done. rewrite Hexp. done.
Qed.

Lemma search_total :
  ∃ fuel b st, a_star_algorithm fuel g start endp = Some (b, st).
Proof.
  destruct (search_total_aux _ _ _ (loop_init g start endp) eq_refl eq_refl)
    as (fuel & [b st] & Hrun).
  by exists fuel, b, st.
Qed.
End search_total.

(** ** Walks on the grid and walks along neighbour lists *)

Lemma up_to_date_lists_in_grid g :
  wf_grid g → neighbours_up_to_date g →
  ∀ p ns q, neighbours_of g p = Some ns → q ∈ ns → is_Some (cells g !! q).
Proof.
  intros Hwf Hup p ns q Hns Hq.
  rewrite (up_to_date_neighbours g p ns Hwf Hup Hns) in Hq.
  unfold passable_neighbours in Hq. apply list_elem_of_filter in Hq.
  apply Hwf. tauto.
Qed.

Lemma passable_step_neighbour g a b :
  wf_grid g → neighbours_up_to_date g → in_bounds g a →
  passable_step g a b → neighbour_step g a b.
Proof.
  intros Hwf Hup Ha (Hadj & Hb & Hnb).
  destruct (proj2 (Hwf a) Ha) as [n Hn].
  exists (neighbours n). split; [unfold neighbours_of; by rewrite Hn|].
  pose proof (Hup a n Hn) as Hc.
  rewrite (compute_neighbours_wf g a Hwf Ha) in Hc. injection Hc as <-.
  unfold passable_neighbours. apply list_elem_of_filter. done.
Qed.

Lemma grid_path_reachable g start l p :
  wf_grid g → neighbours_up_to_date g → in_bounds g start →
  grid_path g start l p → reachable g start p.
Proof.
  intros Hwf Hup Hs Hl. exists l. revert start Hs Hl.
  induction l as [|x l IH]; intros a Ha; simpl; [done|].
  intros [Hstep Hw]. split; [by apply passable_step_neighbour|].
  apply IH; [|done]. by destruct Hstep as (_ & ? & _).
Qed.

Lemma reachable_grid_path g start p :
  wf_grid g → neighbours_up_to_date g →
  reachable g start p → ∃ l, grid_path g start l p.
Proof.
  intros Hwf Hup [l Hl]. exists l.
  eapply walk_impl; [|exact Hl].
  intros x y. by apply neighbour_step_passable.
Qed.

Lemma tail_snoc {A} (l : list A) (x : A) :
  l ≠ [] → tail (l ++ [x]) = tail l ++ [x].
Proof. by destruct l. Qed.

Lemma walk_reverse g a l b :
  walk (back_step g) a l b →
  walk (neighbour_step g) b (forward_path a l) a.
Proof.
  unfold forward_path. revert a.
  induction l as [|x l IH]; intros a; simpl.
  - by intros ->.
  - intros [Hstep Hw]. specialize (IH x Hw).
    rewrite reverse_cons. rewrite tail_snoc; cycle 1.
    { rewrite reverse_cons. by destruct (reverse l). }
    by eapply walk_snoc.
Qed.

Lemma forward_path_length a (l : list pos) :
  length (forward_path a l) = length l.
Proof.
  unfold forward_path. rewrite reverse_cons.
  destruct (reverse l) as [|y r] eqn:Hr.
  - apply (f_equal length) in Hr. rewrite length_reverse in Hr.
    by destruct l.
  - apply (f_equal length) in Hr. rewrite length_reverse in Hr.
    simpl in *. rewrite length_app. simpl. lia.
Qed.

(** ** Runs on grids with up-to-date neighbour lists *)

(** X1: on a well-formed grid with up-to-date neighbour lists and a start
    cell inside the grid, the search ends after finitely many iterations
    without raising, and it returns [True] exactly when a barrier-free
    4-directional walk leads from start to end. *)
Theorem search_decides_reachability (g : Grid) (start endp : pos) :
  wf_grid g → neighbours_up_to_date g → in_bounds g start →
  ∃ fuel b st,
    (∀ fuel', (fuel ≤ fuel')%nat →
              a_star_algorithm fuel' g start endp = Some (b, st))
    ∧ (b = true ↔ ∃ l, grid_path g start l endp).
Proof.
  intros Hwf Hup Hs.
  destruct (search_total g start endp (up_to_date_lists_in_grid g Hwf Hup)
              (proj2 (Hwf start) Hs)) as (fuel & b & st & Hrun).
  exists fuel, b, st. split.
  - intros fuel' Hle. unfold a_star_algorithm in *.
    by eapply search_loop_mono.
  - rewrite (search_result_reachable _ _ _ _ _ _ Hrun). split.
    + by apply reachable_grid_path.
    + intros [l Hl]. by eapply grid_path_reachable.
Qed.

Lemma search_decides_reachability_witness :
  ∃ fuel st,
    a_star_algorithm fuel (ready open_grid_painted) (0,0) (2,2)
    = Some (true, st).
Proof.
  destruct open_grid_ready as (Hwf & Hup & _).
  assert (Hin : in_bounds (ready open_grid_painted) (0,0)).
  { unfold in_bounds. vm_compute. intuition discriminate. }
  destruct (search_decides_reachability _ (0,0) (2,2) Hwf Hup Hin)
    as (fuel & b & st & Hrun & Hb).
  assert (Hpath : grid_path (ready open_grid_painted) (0,0)
                    [(0,1); (0,2); (1,2); (2,2)] (2,2)).
  { apply (bool_decide_unpack _). vm_compute. reflexivity. }
  assert (Htrue : b = true) by (apply Hb; eexists; exact Hpath).
  subst b. exists fuel, st. exact (Hrun fuel (le_n _)).
Defined.

Lemma success_state g start endp fuel st :
  (∀ p ns q, neighbours_of g p = Some ns → q ∈ ns → is_Some (cells g !! q)) →
  is_Some (cells g !! start) →
  a_star_algorithm fuel g start endp = Some (true, st) →
  ∃ stl st2 (k : nat) l z,
    loop_state g start endp stl
    ∧ st = mark BLUE endp st2
    ∧ g_score stl !! endp = Some (Fin z)
    ∧ chain k (came_from stl) endp = Some l
    ∧ walk (back_step g) endp l start
    ∧ Z.of_nat (length l) ≤ z
    ∧ Forall (λ p, ∃ zp, g_score stl !! p = Some (Fin zp) ∧ zp < z) l
    ∧ (∀ p, color_of (grid st2) p = path_colours l (grid stl) p)
    ∧ came_from st2 = came_from stl
    ∧ g_score st2 = g_score stl
    ∧ ∃ evs, trace st2 = trace stl ++ [EvGet endp] ++ evs
             ∧ length (filter is_draw evs) = length l
             ∧ Forall (λ ev, match ev with
                             | EvMake c q => c = PURPLE ∧ q ∈ l
                             | EvDraw _ => True
                             | _ => False
                             end) evs.
Proof.
  intros Hlists Hstart Hrun.
  destruct (search_loop_result g start endp _ _ _ _ (loop_init _ _ _) Hrun)
    as (stl & Hls & st1 & st2 & fuel' & Hpop & Hrec & ->).
  destruct (reconstruct_succeeds g start endp Hlists Hstart stl st1 Hls Hpop)
    as (k & l & st2' & z & Hz & Hch & Hw & Hlen & Hall & Hrec' & Hrest).
  assert (st2' = st2) as ->.
  { apply (reconstruct_path_mono _ (k + fuel')) in Hrec; [|lia].
    apply (reconstruct_path_mono _ (k + fuel')) in Hrec'; [|lia].
    congruence. }
  exists stl, st2, k, l, z. done.
Qed.

(** X2: when the search returns [True], the predecessor chain from the
    end cell leads back to the start cell, each cell being in the
    neighbour list of the next; read forwards it is a barrier-free
    4-directional walk from start to end of the same number of moves,
    which is at most the gScore of the end cell. *)
Theorem success_path_is_walk (g : Grid) (start endp : pos) (fuel : nat)
    (st : SearchState) :
  wf_grid g → neighbours_up_to_date g → in_bounds g start →
  a_star_algorithm fuel g start endp = Some (true, st) →
  ∃ (k : nat) l z,
    chain k (came_from st) endp = Some l
    ∧ walk (back_step g) endp l start
    ∧ grid_path g start (forward_path endp l) endp
    ∧ length (forward_path endp l) = length l
    ∧ g_score st !! endp = Some (Fin z)
    ∧ Z.of_nat (length l) ≤ z.
Proof.
  intros Hwf Hup Hs Hrun.
  destruct (success_state g start endp fuel st
              (up_to_date_lists_in_grid g Hwf Hup) (proj2 (Hwf start) Hs) Hrun)
    as (stl & st2 & k & l & z & _ & -> & Hz & Hch & Hw & Hlen & _ & _
        & Hcf & Hg & _).
  exists k, l, z. simpl. rewrite Hcf, Hg.
  split; [done|]. split; [done|]. split; [|split; [|done]].
  - eapply walk_impl; [|by apply walk_reverse].
    intros x y. by apply neighbour_step_passable.
  - apply forward_path_length.
Qed.

Lemma success_path_is_walk_witness :
  ∃ st (k : nat) l,
    a_star_algorithm 20 (ready open_grid_painted) (0,0) (2,2)
    = Some (true, st)
    ∧ chain k (came_from st) (2,2) = Some l
    ∧ grid_path (ready open_grid_painted) (0,0) (forward_path (2,2) l) (2,2).
Proof.
  assert (Hres : fst <$> a_star_algorithm 20 (ready open_grid_painted)
                           (0,0) (2,2) = Some true)
    by (vm_compute; reflexivity).
  destruct (run_with_result _ _ Hres) as [st Hrun].
  destruct open_grid_ready as (Hwf & Hup & _).
  assert (Hin : in_bounds (ready open_grid_painted) (0,0)).
  { unfold in_bounds. vm_compute. intuition discriminate. }
  destruct (success_path_is_walk _ _ _ _ _ Hwf Hup Hin Hrun)
    as (k & l & z & Hch & _ & Hpath & _).
  exists st, k, l. split; [exact Hrun|]. split; [exact Hch|exact Hpath].
Defined.

(** ** Bookkeeping of the search state *)







(** ** Colours written by the search *)

Lemma relax_update_not_start (st : SearchState) (start n : pos) gc gn :
  g_score st !! start = Some (Fin 0) → nonneg_scores st →
  g_score st !! n = Some gn →
  (∃ current, g_score st !! current = Some gc) →
  score_ltb (score_add gc 1) gn = true → n ≠ start.
Proof.
  intros H0 Hnn Hgn [current Hgc] Hlt ->.
  rewrite H0 in Hgn. injection Hgn as <-.
  destruct gc as [c|]; simpl in Hlt; [|done].
  apply Z.ltb_lt in Hlt. pose proof (Hnn _ _ Hgc). lia.
Qed.

Lemma discovered_inv_loop g start endp st :
  loop_state g start endp st → discovered_inv start st.
Proof.
  revert st.
  apply (loop_state_invariant g start endp (discovered_inv start)
    (λ _ _ s, discovered_inv start s
              ∧ g_score s !! start = Some (Fin 0) ∧ nonneg_scores s));
    unfold discovered_inv.
  - simpl. split.
    + intros n c [p Hp]. by rewrite lookup_empty in Hp.
    + intros m ->%elem_of_singleton. by left.
  - intros st current st1 ns Hls [Hd Hh] Hpop _ _.
    destruct (start_inv_loop _ _ _ _ Hls) as (H0 & Hnn & _).
    apply pop_Some in Hpop as (e & q' & _ & _ & _ & ->). simpl.
    split; [|done]. split; [done|].
    intros m [Hm _]%elem_of_difference. by apply Hh.
  - intros current ns st n st' ([Hd Hh] & H0 & Hnn) _ Hrel.
    pose proof (relax_nonneg _ _ _ _ _ Hnn Hrel) as Hnn'.
    apply relax_inv in Hrel as (gc & gn & Hgc & Hgn & Hcase).
    destruct Hcase as [[_ ->]|Hcase]; [done|].
    assert (Hlt : score_ltb (score_add gc 1) gn = true)
      by (by destruct Hcase as [[? _]|[? _]]).
    assert (Hn : n ≠ start).
    { apply (relax_update_not_start st start n gc gn H0 Hnn Hgn); [|done].
      by exists current. }
    destruct Hcase as [(_ & Hin & ->)|(_ & Hnin & ->)]; simpl in *.
    + split; [|by rewrite lookup_insert_ne]. split.
      * intros m c. rewrite lookup_insert. case_decide as Hm; [|apply Hd].
        subst m. intros _. apply Hd.
        by destruct (Hh n Hin) as [?|?].
      * intros m Hm. rewrite lookup_insert. case_decide; [right; by eexists|].
        by apply Hh.
    + split; [|by rewrite lookup_insert_ne]. split.
      * intros m c. destruct (decide (n = m)) as [->|Hm].
        -- intros _. rewrite color_of_paint_eq.
           destruct (color_of (grid st) m); simpl; [|done].
           intros [= <-]. by left.
        -- rewrite lookup_insert_ne, color_of_paint_ne by done. apply Hd.
      * intros m. rewrite elem_of_union, elem_of_singleton, lookup_insert.
        case_decide; [intros _; right; by eexists|].
        intros [?|?]; [congruence|by apply Hh].
  - intros current ns st ([Hd Hh] & _ & _).
    destruct (decide (current = start)); simpl; [done|].
    split; [|done]. intros m c Hm.
    destruct (decide (current = m)) as [->|Hne].
    + rewrite color_of_paint_eq.
      destruct (color_of (grid st) m); simpl; [|done].
      intros [= <-]. by right.
    + rewrite color_of_paint_ne by done. by apply Hd.
Qed.

Lemma painted_inv_loop g start endp st :
  loop_state g start endp st → painted_inv g st.
Proof.
  revert st.
  apply (loop_state_invariant g start endp (painted_inv g)
    (λ _ _ s, painted_inv g s)); unfold painted_inv.
  - intros p c Hc. by left.
  - intros st current st1 ns _ HP Hpop _ _.
    by apply pop_Some in Hpop as (e & q' & _ & _ & _ & ->).
  - intros current ns st n st' HP _ (gc & gn & _ & _ & Hcase)%relax_inv.
    destruct Hcase as [[_ ->]|[(_ & _ & ->)|(_ & _ & ->)]]; [done|done|].
    simpl. intros p c. destruct (decide (n = p)) as [->|Hne].
    + rewrite color_of_paint_eq.
      destruct (color_of (grid st) p); simpl; [|done].
      intros [= <-]. right. by left.
    + rewrite color_of_paint_ne by done. apply HP.
  - intros current ns st HP.
    destruct (decide (current = start)); simpl; [done|].
    intros p c. destruct (decide (current = p)) as [->|Hne].
    + rewrite color_of_paint_eq.
      destruct (color_of (grid st) p); simpl; [|done].
      intros [= <-]. right. by right.
    + rewrite color_of_paint_ne by done. apply HP.
Qed.

Lemma barrier_at_paint c p g q :
  c ≠ BLACK → barrier_at (paint c p g) q ↔ q ≠ p ∧ barrier_at g q.
Proof.
  intros Hc. unfold barrier_at. destruct (decide (p = q)) as [->|Hne].
  - rewrite color_of_paint_eq. destruct (color_of g q); simpl; split;
      try done; try (intros [? _]; done). intros [= ?]. done.
  - rewrite color_of_paint_ne by done. split; [|tauto].
    intros ?. split; [congruence|done].
Qed.

Section barriers.
Variables (g : Grid) (start endp : pos).
Hypothesis lists_passable :
  ∀ p ns q, neighbours_of g p = Some ns → q ∈ ns → ¬ barrier_at g q.

Lemma barrier_inv_loop st :
  loop_state g start endp st → barrier_inv g start st.
Proof.
  revert st.
  apply (loop_state_invariant g start endp (barrier_inv g start)
    (λ current ns s, barrier_inv g start s
                     ∧ neighbours_of g current = Some ns
                     ∧ (current = start ∨ ¬ barrier_at g current)));
    unfold barrier_inv.
  - simpl. split; [done|]. split; [done|].
    apply Forall_singleton. by left.
  - intros st current st1 ns Hls (Ht & Hb & Hq) Hpop _ Hns.
    pose proof (grid_inv_loop _ _ _ _ Hls current) as Hg.
    apply pop_Some in Hpop as (e & q' & Hget & -> & _ & ->).
    apply pq_get_Some in Hget as (_ & q1 & q2 & Hq12 & ->). simpl in *.
    rewrite Hq12 in Hq.
    apply Forall_app in Hq as [H1 H2]. apply Forall_cons in H2 as [He H2].
    split; [|split; [congruence|done]].
    split; [done|]. split; [done|]. by apply Forall_app.
  - intros current ns st n st' ((Ht & Hb & Hq) & Hns & Hc) Hn
           (gc & gn & _ & _ & Hcase)%relax_inv.
    split; [|done].
    destruct Hcase as [[_ ->]|[(_ & _ & ->)|(_ & _ & ->)]]; [done|done|].
    simpl. split; [done|]. split.
    + intros p. rewrite barrier_at_paint by done. rewrite Hb.
      split; [tauto|]. intros Hp. split; [|done]. intros ->.
      by apply (lists_passable _ _ _ Hns Hn).
    + unfold pq_put. apply Forall_app. split; [done|].
      apply Forall_singleton. right. by apply (lists_passable _ _ _ Hns Hn).
  - intros current ns st ((Ht & Hb & Hq) & _ & Hc).
    destruct (decide (current = start)) as [|Hne]; simpl; [done|].
    split; [done|]. split; [|done].
    intros p. rewrite barrier_at_paint by done. rewrite Hb.
    split; [tauto|]. intros Hp. split; [|done]. intros ->.
    by destruct Hc.
Qed.
End barriers.

(** ** The grid after a run *)

Lemma reconstruct_path_grid fuel n st st' :
  reconstruct_path fuel n st = Some st' →
  total_rows (grid st') = total_rows (grid st)
  ∧ (∀ p, neighbours_of (grid st') p = neighbours_of (grid st) p)
  ∧ (∀ p c, color_of (grid st') p = Some c →
            color_of (grid st) p = Some c ∨ c = PURPLE).
Proof.
  revert n st. induction fuel as [|fuel IH]; intros n st; [discriminate|].
  simpl. destruct (came_from st !! n) as [prev|]; cycle 1.
  { intros [= <-]. split; [done|]. split; [done|]. intros p c ?. by left. }
  destruct (cells (grid st) !! prev) as [nd|]; simpl; [|discriminate].
  intros Hrec. destruct (IH _ _ Hrec) as (Ht & Hn & Hc).
  destruct (is_start nd); simpl in *; [done|].
  split; [done|]. split.
  - intros p. by rewrite Hn, neighbours_of_paint.
  - intros p c Hp. destruct (Hc p c Hp) as [Hp'|?]; [|by right].
    destruct (decide (prev = p)) as [->|Hne].
    + rewrite color_of_paint_eq in Hp'.
      destruct (color_of (grid st) p); simpl in Hp'; [|done].
      injection Hp' as <-. by right.
    + rewrite color_of_paint_ne in Hp' by done. by left.
Qed.

Lemma total_rows_loop g start endp st :
  loop_state g start endp st → total_rows (grid st) = total_rows g.
Proof.
  revert st.
  apply (loop_state_invariant g start endp
    (λ s, total_rows (grid s) = total_rows g)
    (λ _ _ s, total_rows (grid s) = total_rows g)).
  - done.
  - intros st current st1 ns _ HP Hpop _ _.
    by apply pop_Some in Hpop as (e & q' & _ & _ & _ & ->).
  - intros current ns st n st' HP _ (gc & gn & _ & _ & Hcase)%relax_inv.
    by destruct Hcase as [[_ ->]|[(_ & _ & ->)|(_ & _ & ->)]].
  - intros current ns st HP. by destruct (decide (current = start)).
Qed.

Lemma run_grid_shape (g : Grid) (start endp : pos) (fuel : nat)
    (b : bool) (st : SearchState) :
  a_star_algorithm fuel g start endp = Some (b, st) →
  total_rows (grid st) = total_rows g
  ∧ (∀ p, neighbours_of (grid st) p = neighbours_of g p)
  ∧ (∀ p c, color_of (grid st) p = Some c →
       color_of g p = Some c ∨ c = GREEN ∨ c = RED ∨ c = PURPLE
       ∨ (c = BLUE ∧ p = endp)).
Proof.
  intros Hrun.
  destruct (search_loop_result g start endp _ _ _ _ (loop_init _ _ _) Hrun)
    as (stl & Hls & Hfin).
  pose proof (total_rows_loop _ _ _ _ Hls) as Ht.
  pose proof (grid_inv_loop _ _ _ _ Hls) as Hn.
  pose proof (painted_inv_loop _ _ _ _ Hls) as Hp.
  destruct b.
  - destruct Hfin as (st1 & st2 & fuel' & Hpop & Hrec & ->).
    apply pop_Some in Hpop as (e & q' & _ & _ & _ & ->).
    apply reconstruct_path_grid in Hrec as (Ht2 & Hn2 & Hc2). simpl in *.
    split; [congruence|]. split.
    + intros p. by rewrite neighbours_of_paint, Hn2, Hn.
    + intros p c. destruct (decide (endp = p)) as [->|Hne].
      * rewrite color_of_paint_eq.
        destruct (color_of (grid st2) p); simpl; [|done].
        intros [= <-]. by do 4 right.
      * rewrite color_of_paint_ne by done. intros Hc.
        destruct (Hc2 p c Hc) as [Hc'|Hpu]; [|subst c; tauto].
        destruct (Hp p c Hc') as [?|[?|?]]; auto.
  - destruct Hfin as [_ ->]. split; [done|]. split; [done|].
    intros p c Hc. destruct (Hp p c Hc) as [?|[?|?]]; auto.
Qed.


(** X6: whatever the grid, a run that returns leaves the size of the grid
    and every neighbour list as they were, and a cell whose colour it
    changed is green, red or purple, or is the end cell painted blue: the
    search writes no white, black or pink. *)
Theorem search_paints_only (g : Grid) (start endp : pos) (fuel : nat)
    (b : bool) (st : SearchState) :
  a_star_algorithm fuel g start endp = Some (b, st) →
  total_rows (grid st) = total_rows g
  ∧ (∀ p, neighbours_of (grid st) p = neighbours_of g p)
  ∧ (∀ p c, color_of (grid st) p = Some c →
       color_of g p = Some c ∨ c = GREEN ∨ c = RED ∨ c = PURPLE
       ∨ (c = BLUE ∧ p = endp)).
Proof. apply run_grid_shape. Qed.

Lemma search_paints_only_witness :
  ∃ st, a_star_algorithm 20 (ready open_grid_painted) (0,0) (2,2)
        = Some (true, st)
        ∧ ∀ p, neighbours_of (grid st) p
               = neighbours_of (ready open_grid_painted) p.
Proof.
  assert (Hres : fst <$> a_star_algorithm 20 (ready open_grid_painted)
                           (0,0) (2,2) = Some true)
    by (vm_compute; reflexivity).
  destruct (run_with_result _ _ Hres) as [st Hrun].
  exists st. split; [exact Hrun|].
  exact (proj1 (proj2 (search_paints_only _ _ _ _ _ _ Hrun))).
Defined.

Lemma filter_app_nil_r {A} (P : A → Prop) `{!∀ x, Decision (P x)}
    (l k : list A) :
  filter P k = [] → filter P (l ++ k) = filter P l.
Proof. intros Hk. by rewrite filter_app, Hk, app_nil_r. Qed.

(** X7: when the search returns [True] on a well-formed grid with
    up-to-date lists, the end cell is blue, every cell of the predecessor
    chain other than the start is purple, a purple cell is on the chain
    or was purple before the run, and [draw] has been called once for
    each expansion and once more for each cell of the chain. *)
Theorem success_colours (g : Grid) (start endp : pos) (fuel : nat)
    (st : SearchState) :
  wf_grid g → neighbours_up_to_date g → in_bounds g start →
  a_star_algorithm fuel g start endp = Some (true, st) →
  ∃ (k : nat) l,
    chain k (came_from st) endp = Some l
    ∧ color_of (grid st) endp = Some BLUE
    ∧ (∀ p, p ∈ l → p ≠ start → color_of (grid st) p = Some PURPLE)
    ∧ (∀ p, color_of (grid st) p = Some PURPLE →
            p ∈ l ∨ color_of g p = Some PURPLE)
    ∧ (length (filter is_draw (trace st)) + 1
       = length (filter is_get (trace st)) + length l)%nat.
Proof.
  intros Hwf Hup Hs Hrun.
  pose proof (up_to_date_lists_in_grid g Hwf Hup) as Hlists.
  pose proof (proj2 (Hwf start) Hs) as Hstart.
  destruct (success_state g start endp fuel st Hlists Hstart Hrun)
    as (stl & st2 & k & l & z & Hls & -> & Hz & Hch & Hw & Hlen & Hall
        & Hcol & Hcf & Hg & evs & Htr & Hdraws & Hevs).
  rewrite Forall_forall in Hall.
  destruct (tree_inv_loop _ _ _ _ Hls) as (Hwalk & _ & Hroot).
  destruct (discovered_inv_loop _ _ _ _ Hls) as (Hdisc & _).
  destruct (no_path_marks_loop _ _ _ _ Hls) as (_ & Hpurple).
  assert (Hcell : ∀ p zp, g_score stl !! p = Some (Fin zp) →
            is_Some (color_of (grid stl) p)).
  { intros p zp Hp. apply color_of_is_Some.
    apply (grid_cells_loop g start endp stl p Hls).
    destruct (Hwalk _ _ Hp) as (lp & Hlp & _).
    exact (walk_ends_in_cell g Hlists lp start _ Hstart Hlp). }
  assert (Hend : endp ∉ l).
  { intros Hin. destruct (Hall _ Hin) as (zp & Hzp & Hlt).
    rewrite Hz in Hzp. injection Hzp as <-. lia. }
  exists k, l. simpl. rewrite Hcf. split; [done|]. split; [|split; [|split]].
  - rewrite color_of_paint_eq, Hcol. unfold path_colours.
    rewrite decide_False by done.
    by destruct (Hcell _ _ Hz) as [c ->].
  - intros p Hp Hne. destruct (Hall _ Hp) as (zp & Hzp & _).
    rewrite color_of_paint_ne by (intros ->; done).
    rewrite Hcol. unfold path_colours. rewrite decide_True by done.
    destruct (Hcell _ _ Hzp) as [c Hc]. rewrite Hc.
    destruct (Hroot _ _ Hzp) as [->|Hpred]; [done|].
    by destruct (Hdisc _ _ Hpred Hc) as [-> | ->].
  - intros p. destruct (decide (endp = p)) as [->|Hne].
    + rewrite color_of_paint_eq.
      by destruct (color_of (grid st2) p).
    + rewrite color_of_paint_ne by done. rewrite Hcol. unfold path_colours.
      destruct (decide (p ∈ l)); [by left|].
      intros Hp. right. by apply Hpurple.
  - rewrite Htr. rewrite <- !app_assoc.
    pose proof (loop_state_draws_gets _ _ _ _ Hls) as Hdg.
    assert (Hgets : filter is_get evs = []).
    { clear -Hevs. induction Hevs as [|ev evs Hev _ IH]; [done|].
      rewrite filter_cons, decide_False; [done|].
      destruct ev; simpl in *; tauto. }
    rewrite !filter_app, !length_app, Hgets, Hdraws, Hdg. simpl. lia.
Qed.

Lemma success_colours_witness :
  ∃ st, a_star_algorithm 20 (ready open_grid_painted) (0,0) (2,2)
        = Some (true, st)
        ∧ color_of (grid st) (2,2) = Some BLUE.
Proof.
  assert (Hres : fst <$> a_star_algorithm 20 (ready open_grid_painted)
                           (0,0) (2,2) = Some true)
    by (vm_compute; reflexivity).
  destruct (run_with_result _ _ Hres) as [st Hrun].
  destruct open_grid_ready as (Hwf & Hup & _).
  assert (Hin : in_bounds (ready open_grid_painted) (0,0)).
  { unfold in_bounds. vm_compute. intuition discriminate. }
  destruct (success_colours _ _ _ _ _ Hwf Hup Hin Hrun)
    as (k & l & _ & Hblue & _).
  exists st. split; [exact Hrun|exact Hblue].
Defined.

Lemma try_append_barrier_ext g g' inb q acc :
  (is_Some (cells g' !! q) ↔ is_Some (cells g !! q)) →
  (barrier_at g' q ↔ barrier_at g q) →
  try_append g' inb q acc = try_append g inb q acc.
Proof.
  unfold try_append, barrier_at, color_of, is_barrier. intros Hd Hb.
  destruct inb; [|done].
  destruct (cells g' !! q) as [n'|], (cells g !! q) as [n|]; simpl in *.
  - f_equal. destruct (decide (color n = BLACK)) as [Hn|Hn].
    + rewrite (bool_decide_eq_true_2 _ Hn).
      rewrite bool_decide_eq_true_2; [done|].
      assert (Some (color n') = Some BLACK) as [= ?]; [|done].
      apply Hb. by rewrite Hn.
    + rewrite (bool_decide_eq_false_2 _ Hn).
      rewrite bool_decide_eq_false_2; [done|].
      intros Hn'. apply Hn.
      assert (Some (color n) = Some BLACK) as [= ?]; [|done].
      apply Hb. by rewrite Hn'.
  - destruct (proj1 Hd) as [? ?]; [by eexists|done].
  - destruct (proj2 Hd) as [? ?]; [by eexists|done].
  - done.
Qed.

Lemma compute_neighbours_barrier_ext g g' p :
  total_rows g' = total_rows g →
  (∀ q, is_Some (cells g' !! q) ↔ is_Some (cells g !! q)) →
  (∀ q, barrier_at g' q ↔ barrier_at g q) →
  compute_neighbours g' p = compute_neighbours g p.
Proof.
  intros Ht Hd Hb. destruct p as [r c]. unfold compute_neighbours.
  rewrite Ht.
  rewrite (try_append_barrier_ext g g' _ (r + 1, c)) by done.
  destruct (try_append g _ (r + 1, c) []) as [l1|]; simpl; [|done].
  rewrite (try_append_barrier_ext g g' _ (r - 1, c)) by done.
  destruct (try_append g _ (r - 1, c) l1) as [l2|]; simpl; [|done].
  rewrite (try_append_barrier_ext g g' _ (r, c + 1)) by done.
  destruct (try_append g _ (r, c + 1) l2) as [l3|]; simpl; [|done].
  by apply try_append_barrier_ext.
Qed.

Lemma grid_shape_transfer g g' :
  total_rows g' = total_rows g →
  (∀ p, neighbours_of g' p = neighbours_of g p) →
  (∀ q, barrier_at g' q ↔ barrier_at g q) →
  wf_grid g → neighbours_up_to_date g →
  wf_grid g' ∧ neighbours_up_to_date g'.
Proof.
  intros Ht Hn Hb Hwf Hup.
  assert (Hd : ∀ q, is_Some (cells g' !! q) ↔ is_Some (cells g !! q)).
  { intros q. specialize (Hn q). unfold neighbours_of in Hn.
    by rewrite <- (fmap_is_Some neighbours), Hn, fmap_is_Some. }
  split.
  - intros p. rewrite Hd, (Hwf p). unfold in_bounds. by rewrite Ht.
  - intros p n' Hn'.
    rewrite (compute_neighbours_barrier_ext g g' p Ht Hd Hb).
    specialize (Hn p). unfold neighbours_of in Hn. rewrite Hn' in Hn.
    destruct (cells g !! p) as [n|] eqn:Hg; simpl in Hn; [|discriminate].
    injection Hn as ->. by apply Hup.
Qed.

Lemma run_preserves_barriers (g : Grid) (start endp : pos) (fuel : nat)
    (b : bool) (st : SearchState) :
  wf_grid g → neighbours_up_to_date g → in_bounds g start →
  ¬ barrier_at g start →
  a_star_algorithm fuel g start endp = Some (b, st) →
  (∀ p, barrier_at (grid st) p ↔ barrier_at g p)
  ∧ wf_grid (grid st) ∧ neighbours_up_to_date (grid st).
Proof.
  intros Hwf Hup Hs Hsb Hrun.
  destruct (run_grid_shape _ _ _ _ _ _ Hrun) as (Ht & Hn & _).
  assert (Hbar : ∀ p, barrier_at (grid st) p ↔ barrier_at g p);
    [|split; [done|by apply (grid_shape_transfer g)]].
  pose proof (up_to_date_lists_in_grid g Hwf Hup) as Hlists.
  pose proof (proj2 (Hwf start) Hs) as Hstart.
  assert (Hpass : ∀ p ns q, neighbours_of g p = Some ns → q ∈ ns →
                            ¬ barrier_at g q).
  { intros p ns q Hns Hq.
    rewrite (up_to_date_neighbours g p ns Hwf Hup Hns) in Hq.
    unfold passable_neighbours in Hq. apply list_elem_of_filter in Hq. tauto. }
  destruct b; cycle 1.
  { destruct (search_loop_result g start endp _ _ _ _ (loop_init _ _ _) Hrun)
      as (stl & Hls & _ & ->).
    by destruct (barrier_inv_loop g start endp Hpass _ Hls) as (_ & ? & _). }
  destruct (success_state g start endp fuel st Hlists Hstart Hrun)
    as (stl & st2 & k & l & z & Hls & -> & Hz & Hch & Hw & Hlen & Hall
        & Hcol & _).
  rewrite Forall_forall in Hall.
  destruct (barrier_inv_loop g start endp Hpass _ Hls) as (_ & Hb & Hq).
  destruct (tree_inv_loop _ _ _ _ Hls) as (_ & Hcf & Hroot).
  assert (Hfree : ∀ p zp, g_score stl !! p = Some (Fin zp) → ¬ barrier_at g p).
  { intros p zp Hp. destruct (Hroot _ _ Hp) as [->|[q Hq']]; [done|].
    destruct (Hcf _ _ Hq') as ((ns & Hns & Hin) & _). by eapply Hpass. }
  intros p. simpl. rewrite barrier_at_paint by done.
  unfold barrier_at at 1. rewrite Hcol. unfold path_colours.
  rewrite <- Hb. unfold barrier_at.
  destruct (decide (p ∈ l)) as [Hin|Hnin].
  - destruct (Hall _ Hin) as (zp & Hzp & _).
    pose proof (Hfree _ _ Hzp) as Hnb. rewrite <- Hb in Hnb.
    unfold barrier_at in Hnb.
    destruct (color_of (grid stl) p) as [[]|]; split;
      try done; try (intros [_ ?]; done).
  - split; [tauto|]. intros Hp. split; [|done]. intros ->.
    apply (Hfree _ _ Hz). by apply Hb.
Qed.

(** X8: on a well-formed grid with up-to-date lists and a start cell that
    is not a barrier, a run that returns has neither made nor removed a
    barrier, so the grid it leaves is still well formed and its
    neighbour lists are still up to date. *)
Theorem search_preserves_barriers (g : Grid) (start endp : pos) (fuel : nat)
    (b : bool) (st : SearchState) :
  wf_grid g → neighbours_up_to_date g → in_bounds g start →
  ¬ barrier_at g start →
  a_star_algorithm fuel g start endp = Some (b, st) →
  (∀ p, barrier_at (grid st) p ↔ barrier_at g p)
  ∧ wf_grid (grid st) ∧ neighbours_up_to_date (grid st).
Proof. apply run_preserves_barriers. Qed.

Lemma search_preserves_barriers_witness :
  ∃ st, a_star_algorithm 5 (ready enclosed_grid_painted) (0,0) (2,2)
        = Some (false, st)
        ∧ neighbours_up_to_date (grid st).
Proof.
  assert (Hres : fst <$> a_star_algorithm 5 (ready enclosed_grid_painted)
                           (0,0) (2,2) = Some false)
    by (vm_compute; reflexivity).
  destruct (run_with_result _ _ Hres) as [st Hrun].
  destruct enclosed_grid_ready as (Hwf & Hup & _).
  assert (Hin : in_bounds (ready enclosed_grid_painted) (0,0)).
  { unfold in_bounds. vm_compute. intuition discriminate. }
  assert (Hnb : ¬ barrier_at (ready enclosed_grid_painted) (0,0)).
  { unfold barrier_at. vm_compute. discriminate. }
  destruct (search_preserves_barriers _ _ _ _ _ _ Hwf Hup Hin Hnb Hrun)
    as (_ & _ & Hup').
  exists st. split; [exact Hrun|exact Hup'].
Defined.

(** ** [reconstruct_path] on its own *)

(** X9: if the predecessor chain from [n] ends (it is [l]) and its cells
    are cells of the grid, [reconstruct_path] returns; it has painted
    purple exactly the cells of [l] that were not pink, called [draw]
    once per cell of [l], done nothing else to the trace, and left the
    predecessor map, the scores and the frontier alone. *)
Theorem reconstruct_path_paints_chain (fuel : nat) (l : list pos) (n : pos)
    (st : SearchState) :
  chain fuel (came_from st) n = Some l →
  (∀ p, p ∈ l → is_Some (cells (grid st) !! p)) →
  ∃ st', reconstruct_path fuel n st = Some st'
    ∧ (∀ p, color_of (grid st') p = path_colours l (grid st) p)
    ∧ came_from st' = came_from st
    ∧ g_score st' = g_score st
    ∧ f_score st' = f_score st
    ∧ open_set st' = open_set st
    ∧ count st' = count st
    ∧ (∃ evs, trace st' = trace st ++ evs
              ∧ length (filter is_draw evs) = length l
              ∧ Forall (λ ev, match ev with
                              | EvMake c q => c = PURPLE ∧ q ∈ l
                              | EvDraw _ => True
                              | _ => False
                              end) evs).
Proof. apply reconstruct_path_spec. Qed.

Lemma reconstruct_path_paints_chain_witness :
  let st := mkState (create_grid 2) 0 [] {[ (1,1) := (0,1); (0,1) := (0,0) ]}
                    ∅ ∅ ∅ [] in
  ∃ st', reconstruct_path 3 (1,1) st = Some st'
         ∧ color_of (grid st') (0,1) = Some PURPLE.
Proof.
  intros st.
  assert (Hch : chain 3 (came_from st) (1,1) = Some [(0,1); (0,0)])
    by reflexivity.
  assert (Hcells : ∀ p, p ∈ [(0,1); (0,0)] →
                        is_Some (cells (grid st) !! p)).
  { intros p Hp. apply (wf_create_grid 2).
    rewrite !elem_of_cons, elem_of_nil in Hp.
    destruct Hp as [->|[->|[]]]; unfold in_bounds; simpl; lia. }
  destruct (reconstruct_path_paints_chain 3 _ (1,1) st Hch Hcells)
    as (st' & Hrec & Hcol & _).
  exists st'. split; [exact Hrec|].
  etransitivity; [apply Hcol|]. reflexivity.
Defined.

(** ** Start and end the same cell *)



(** ** Mouse position to cell *)

Lemma floor_div_spec a b q : 0 < b → Z.div a b = q ↔ q * b ≤ a < q * b + b.
Proof.
  intros Hb. split.
  - intros <-. pose proof (Z.div_mod a b ltac:(lia)).
    pose proof (Z.mod_pos_bound a b Hb). nia.
  - intros H. symmetry. apply (Z.div_unique_pos a b q (a - q * b)); lia.
Qed.

(** X11: when the gap [width // rows] is positive, [get_clicked_pos]
    returns the cell [p] exactly for the pixels of the square that
    [Node.draw] fills for [p]: it inverts the layout of [Node.__init__]. *)
Theorem get_clicked_pos_inverts_layout (rows width gap : Z) (px p : Z * Z) :
  floordiv width rows = Some gap → 0 < gap →
  get_clicked_pos px rows width = Some p ↔ in_node_rect gap p px.
Proof.
  intros Hg Hpos. unfold get_clicked_pos. rewrite Hg. simpl.
  destruct px as [y x], p as [r c]. unfold floordiv.
  rewrite !decide_False by lia. simpl.
  unfold in_node_rect, node_x, node_y. simpl.
  rewrite <- (floor_div_spec y gap r Hpos), <- (floor_div_spec x gap c Hpos).
  split.
  - by intros [= <- <-].
  - by intros [-> ->].
Qed.

Lemma get_clicked_pos_inverts_layout_witness :
  get_clicked_pos (35, 790) 50 800 = Some (2, 49)
  ∧ in_node_rect 16 (2, 49) (35, 790).
Proof.
  assert (Hg : floordiv 800 50 = Some 16) by reflexivity.
  assert (Hpos : 0 < 16) by lia.
  assert (Hget : get_clicked_pos (35, 790) 50 800 = Some (2, 49))
    by reflexivity.
  split; [exact Hget|].
  exact (proj1 (get_clicked_pos_inverts_layout 50 800 16 (35, 790) (2, 49)
                  Hg Hpos) Hget).
Defined.

Lemma get_clicked_pos_cases (rows width : Z) (px : Z * Z) :
  (get_clicked_pos px rows width = None
   ↔ rows = 0 ∨ Z.div width rows = 0)
  ∧ (0 < rows → (Z.div width rows = 0 ↔ 0 ≤ width < rows))
  ∧ (∀ gap, 0 < rows → floordiv width rows = Some gap → 0 < gap →
       ∃ p, get_clicked_pos px rows width = Some p
            ∧ (0 ≤ px.1 < gap * rows → 0 ≤ p.1 < rows)
            ∧ (0 ≤ px.2 < gap * rows → 0 ≤ p.2 < rows)
            ∧ (gap * rows ≤ px.1 → rows ≤ p.1)).
Proof.
  split; [|split].
  - unfold get_clicked_pos, floordiv. destruct px as [y x].
    destruct (decide (rows = 0)) as [->|Hr]; simpl; [tauto|].
    destruct (decide (Z.div width rows = 0)) as [Hz|Hz]; simpl; [tauto|].
    split; [done|]. tauto.
  - intros Hr. rewrite Z.div_small_iff by lia. lia.
  - intros gap Hr Hg Hpos. unfold get_clicked_pos. rewrite Hg. simpl.
    destruct px as [y x]. unfold floordiv. rewrite !decide_False by lia.
    simpl. eexists. split; [reflexivity|]. simpl.
    pose proof (proj1 (floor_div_spec y gap _ Hpos) eq_refl).
    pose proof (proj1 (floor_div_spec x gap _ Hpos) eq_refl).
    repeat split; intros; nia.
Qed.

(** X12: [get_clicked_pos] raises [ZeroDivisionError] exactly when [rows]
    is [0] or the gap [width // rows] is [0]; for a positive number of
    rows the gap is [0] exactly when [0 ≤ width < rows].  With a positive
    gap, a pixel with both coordinates in [[0, gap * rows)] gives a cell
    inside the grid, and a first coordinate of [gap * rows] or more gives
    a row outside it (the strip left over when [rows] does not divide
    [width]). *)
Theorem get_clicked_pos_bounds (rows width : Z) (px : Z * Z) :
  (get_clicked_pos px rows width = None
   ↔ rows = 0 ∨ Z.div width rows = 0)
  ∧ (0 < rows → (Z.div width rows = 0 ↔ 0 ≤ width < rows))
  ∧ (∀ gap, 0 < rows → floordiv width rows = Some gap → 0 < gap →
       ∃ p, get_clicked_pos px rows width = Some p
            ∧ (0 ≤ px.1 < gap * rows → 0 ≤ p.1 < rows)
            ∧ (0 ≤ px.2 < gap * rows → 0 ≤ p.2 < rows)
            ∧ (gap * rows ≤ px.1 → rows ≤ p.1)).
Proof. apply get_clicked_pos_cases. Qed.

Lemma get_clicked_pos_bounds_witness :
  ∃ p, get_clicked_pos (799, 0) 50 800 = Some p ∧ 0 ≤ p.1 < 50.
Proof.
  assert (Hr : 0 < 50) by lia.
  assert (Hg : floordiv 800 50 = Some 16) by reflexivity.
  assert (Hpos : 0 < 16) by lia.
  destruct (proj2 (proj2 (get_clicked_pos_bounds 50 800 (799, 0)))
              16 Hr Hg Hpos) as (p & Hp & Hrow & _).
  exists p. split; [exact Hp|]. apply Hrow. simpl. lia.
Defined.

(** ** The heuristic as a metric *)

Lemma adjacent_cases a x :
  adjacent a x ↔
  x = (a.1 + 1, a.2) ∨ x = (a.1 - 1, a.2)
  ∨ x = (a.1, a.2 + 1) ∨ x = (a.1, a.2 - 1).
Proof.
  unfold adjacent, orthogonal. rewrite !elem_of_cons, elem_of_nil. tauto.
Qed.

(** X13: the heuristic is a metric on cells (zero exactly on equal
    cells, symmetric, triangle inequality), and one orthogonal move
    changes the heuristic to any target by exactly 1. *)
Theorem heuristic_metric :
  (∀ a b, 0 ≤ heuristic a b)
  ∧ (∀ a b, heuristic a b = 0 ↔ a = b)
  ∧ (∀ a b, heuristic a b = heuristic b a)
  ∧ (∀ a b c, heuristic a c ≤ heuristic a b + heuristic b c)
  ∧ (∀ a x b, adjacent a x → Z.abs (heuristic a b - heuristic x b) = 1).
Proof.
  repeat split.
  - destruct a, b; simpl; lia.
  - destruct a, b; simpl. intros H. f_equal; lia.
  - intros <-. destruct a; simpl; lia.
  - destruct a, b; simpl; lia.
  - destruct a, b, c; simpl; lia.
  - intros a x b Hadj. apply adjacent_cases in Hadj.
    destruct a as [r c], b as [r2 c2]. simpl in Hadj.
    destruct Hadj as [-> | [-> | [-> | ->]]]; simpl; lia.
Qed.

Lemma heuristic_metric_witness :
  adjacent (0,0) (1,0) ∧ Z.abs (heuristic (0,0) (3,4) - heuristic (1,0) (3,4)) = 1.
Proof.
  assert (Hadj : adjacent (0,0) (1,0)) by (apply adjacent_cases; by left).
  split; [exact Hadj|].
  exact (proj2 (proj2 (proj2 (proj2 heuristic_metric))) (0,0) (1,0) (3,4) Hadj).
Defined.

(** X14: between any two cells there is a walk of orthogonal moves whose
    number of moves is the heuristic: on a grid without barriers and
    without borders the heuristic is the true distance. *)
Theorem heuristic_is_distance (a b : pos) :
  ∃ l, walk adjacent a l b ∧ Z.of_nat (length l) = heuristic a b.
Proof.
  remember (Z.to_nat (heuristic a b)) as n eqn:Hn.
  revert a Hn. induction n as [|n IH]; intros a Hn.
  - exists []. destruct a as [r c], b as [r2 c2]. simpl in *.
    split; [f_equal; lia|lia].
  - destruct a as [r c], b as [r2 c2].
    assert (Hx : ∃ x, adjacent (r, c) x
                      ∧ heuristic x (r2, c2) = heuristic (r, c) (r2, c2) - 1).
    { simpl in Hn.
      destruct (decide (r < r2)); [exists (r + 1, c)|
        destruct (decide (r2 < r)); [exists (r - 1, c)|
          destruct (decide (c < c2)); [exists (r, c + 1)|exists (r, c - 1)]]];
        (split; [apply adjacent_cases; simpl; tauto|simpl; lia]). }
    destruct Hx as (x & Hadj & Hh).
    destruct (IH x) as (l & Hl & Hlen); [lia|].
    exists (x :: l). split; [done|]. simpl length. lia.
Qed.

(** ** Shape of a neighbour list *)

Lemma try_append_cases g inb q acc l :
  try_append g inb q acc = Some l → l = acc ∨ l = acc ++ [q].
Proof.
  unfold try_append. destruct inb; [|intros [= <-]; by left].
  destruct (cells g !! q) as [n|]; simpl; [|discriminate].
  destruct (is_barrier n); intros [= <-]; [by left|by right].
Qed.

Lemma compute_neighbours_sublist g p l :
  compute_neighbours g p = Some l → l `sublist_of` orthogonal p.
Proof.
  destruct p as [r c]. unfold compute_neighbours, orthogonal. simpl.
  destruct (try_append g _ (r + 1, c) []) as [l1|] eqn:H1; simpl;
    [|discriminate].
  destruct (try_append g _ (r - 1, c) l1) as [l2|] eqn:H2; simpl;
    [|discriminate].
  destruct (try_append g _ (r, c + 1) l2) as [l3|] eqn:H3; simpl;
    [|discriminate].
  intros H4.
  apply try_append_cases in H1, H2, H3, H4.
  destruct H1 as [-> | ->], H2 as [-> | ->], H3 as [-> | ->],
    H4 as [-> | ->]; simpl;
    repeat first [apply sublist_nil | apply sublist_skip | apply sublist_cons].
Qed.

Lemma orthogonal_NoDup p : NoDup (orthogonal p) ∧ p ∉ orthogonal p.
Proof.
  destruct p as [r c]. unfold orthogonal. simpl.
  rewrite !NoDup_cons, !elem_of_cons, !elem_of_nil.
  repeat split; try apply NoDup_nil_2; intros H;
    repeat destruct H as [H|H]; try done; inversion H; lia.
Qed.

(** X15: whatever the grid, the list [update_neighbours] stores for a cell
    is a sub-list of (down, up, right, left) in that order: it has no
    duplicate, never holds the cell itself, and has at most 4 entries. *)
Theorem neighbour_list_shape (g g' : Grid) (p : pos) (l : list pos) :
  update_neighbours g p = Some g' → neighbours_of g' p = Some l →
  l `sublist_of` orthogonal p ∧ NoDup l ∧ (p ∉ l) ∧ (length l ≤ 4)%nat.
Proof.
  intros (l0 & Hl0 & ->)%update_neighbours_Some Hl.
  unfold neighbours_of in Hl. simpl in Hl. rewrite lookup_alter_eq in Hl.
  destruct (cells g !! p) as [n|]; simpl in Hl; [|discriminate].
  injection Hl as <-.
  pose proof (compute_neighbours_sublist g p l0 Hl0) as Hsub.
  destruct (orthogonal_NoDup p) as [Hnd Hp].
  split; [done|]. split; [by eapply sublist_NoDup|]. split.
  - intros Hin. apply Hp. by eapply elem_of_sublist.
  - by apply sublist_length in Hsub.
Qed.

Lemma neighbour_list_shape_witness :
  ∃ g' l, update_neighbours (make_barrier (0,1) (create_grid 3)) (0,0) = Some g'
          ∧ neighbours_of g' (0,0) = Some l ∧ NoDup l.
Proof.
  assert (Hu : update_neighbours (make_barrier (0,1) (create_grid 3)) (0,0)
               = Some (mkGrid 3 (alter (set_neighbours [(1,0)]) (0,0)
                    (cells (make_barrier (0,1) (create_grid 3))))))
    by reflexivity.
  assert (Hn : neighbours_of (mkGrid 3 (alter (set_neighbours [(1,0)]) (0,0)
                    (cells (make_barrier (0,1) (create_grid 3))))) (0,0)
               = Some [(1,0)]) by reflexivity.
  eexists _, _. split; [exact Hu|]. split; [exact Hn|].
  exact (proj1 (proj2 (neighbour_list_shape _ _ _ _ Hu Hn))).
Defined.

(** ** Symmetry of the neighbour lists *)

Lemma adjacent_sym a b : adjacent a b → adjacent b a.
Proof.
  intros H. apply adjacent_cases in H. apply adjacent_cases.
  destruct a as [r c]. simpl in *.
  destruct H as [-> | [-> | [-> | ->]]]; simpl;
    [right; left|left|right; right; right|right; right; left];
    f_equal; lia.
Qed.

(** X16: on a grid whose lists are up to date no list holds a barrier,
    and the lists of the cells that are not barriers are symmetric: if
    [b] is in the list of [a] and [a] is not a barrier, [a] is in the
    list of [b]. *)
Theorem neighbours_symmetric (g : Grid) (a b : pos) :
  wf_grid g → neighbours_up_to_date g → neighbour_step g a b →
  ¬ barrier_at g b ∧ (¬ barrier_at g a → neighbour_step g b a).
Proof.
  intros Hwf Hup Hstep.
  destruct (neighbour_step_passable g a b Hwf Hup Hstep) as (Hadj & Hb & Hnb).
  split; [done|]. intros Ha.
  apply passable_step_neighbour; [done..|].
  split; [by apply adjacent_sym|]. split; [|done].
  destruct Hstep as (ns & Hns & _). apply Hwf.
  unfold neighbours_of in Hns. by destruct (cells g !! a).
Qed.

Lemma neighbours_symmetric_witness :
  neighbour_step (ready open_grid_painted) (0,0) (1,0)
  ∧ neighbour_step (ready open_grid_painted) (1,0) (0,0).
Proof.
  destruct open_grid_ready as (Hwf & Hup & _).
  assert (Hstep : neighbour_step (ready open_grid_painted) (0,0) (1,0)).
  { eexists. split; [vm_compute; reflexivity|]. by left. }
  split; [exact Hstep|].
  apply (proj2 (neighbours_symmetric _ (0,0) (1,0) Hwf Hup Hstep)).
  unfold barrier_at. vm_compute. discriminate.
Defined.

(** ** The pass over all cells *)

Lemma update_neighbours_fixed g p :
  wf_grid g → neighbours_up_to_date g → in_bounds g p →
  update_neighbours g p = Some g.
Proof.
  intros Hwf Hup Hp. destruct (proj2 (Hwf p) Hp) as [n Hn].
  unfold update_neighbours. rewrite (Hup p n Hn). simpl. f_equal.
  destruct g as [t cs]; simpl in *. f_equal. apply map_eq. intros q.
  destruct (decide (p = q)) as [<-|Hne].
  - rewrite lookup_alter_eq, Hn. simpl. by destruct n.
  - by rewrite lookup_alter_ne.
Qed.

Lemma update_all_fixed ps g :
  wf_grid g → neighbours_up_to_date g → Forall (in_bounds g) ps →
  update_all ps g = Some g.
Proof.
  intros Hwf Hup. induction 1 as [|p ps Hp _ IH]; simpl; [done|].
  by rewrite update_neighbours_fixed.
Qed.

Lemma update_all_total ps g :
  wf_grid g → Forall (in_bounds g) ps → is_Some (update_all ps g).
Proof.
  revert g. induction ps as [|p ps IH]; intros g Hwf Hall; simpl; [by eexists|].
  apply Forall_cons in Hall as [Hp Hall].
  destruct (update_neighbours g p) as [g1|] eqn:Hu; cycle 1.
  { unfold update_neighbours in Hu.
    by rewrite (compute_neighbours_wf g p Hwf Hp) in Hu. }
  simpl. apply IH; [by eapply wf_update_neighbours|].
  apply update_neighbours_Some in Hu as (l & _ & ->).
  eapply Forall_impl; [exact Hall|]. done.
Qed.

Lemma all_positions_in_bounds g :
  Forall (in_bounds g) (all_positions (total_rows g)).
Proof. apply Forall_forall. intros p. by rewrite elem_of_all_positions. Qed.

Lemma recompute_neighbours_total g :
  wf_grid g →
  ∃ g', recompute_neighbours g = Some g'
    ∧ wf_grid g' ∧ neighbours_up_to_date g'
    ∧ total_rows g' = total_rows g
    ∧ (∀ q, color_of g' q = color_of g q)
    ∧ recompute_neighbours g' = Some g'.
Proof.
  intros Hwf.
  destruct (update_all_total _ g Hwf (all_positions_in_bounds g)) as [g' Hg'].
  exists g'. split; [done|].
  destruct (recompute_neighbours_up_to_date g g' Hwf Hg') as (Hwf' & Hup & Hc).
  pose proof (update_all_spec _ _ _ Hg') as (Ht & _).
  do 4 (split; [done|]).
  apply update_all_fixed; [done..|apply all_positions_in_bounds].
Qed.

(** X17: on a grid with a cell at every position in bounds, the pass of
    [main] over all cells raises nothing; afterwards every list is up to
    date, no colour has changed, and a second pass changes nothing. *)
Theorem neighbour_pass (g : Grid) :
  wf_grid g →
  ∃ g', recompute_neighbours g = Some g'
    ∧ wf_grid g' ∧ neighbours_up_to_date g'
    ∧ total_rows g' = total_rows g
    ∧ (∀ q, color_of g' q = color_of g q)
    ∧ recompute_neighbours g' = Some g'.
Proof. apply recompute_neighbours_total. Qed.

Lemma neighbour_pass_witness :
  ∃ g', recompute_neighbours (create_grid 3) = Some g'
        ∧ recompute_neighbours g' = Some g'.
Proof.
  destruct (neighbour_pass (create_grid 3) (wf_create_grid 3))
    as (g' & H1 & _ & _ & _ & _ & H2).
  exists g'. split; [exact H1|exact H2].
Defined.

(** X18: painting a cell black does not touch any list: a cell that was
    in the list of [p] is still there as a barrier, so the lists are out
    of date until the next pass. *)
Theorem stale_after_barrier (g : Grid) (p q : pos) :
  wf_grid g → neighbours_up_to_date g → neighbour_step g p q →
  neighbour_step (make_barrier q g) p q
  ∧ barrier_at (make_barrier q g) q
  ∧ ¬ neighbours_up_to_date (make_barrier q g).
Proof.
  intros Hwf Hup Hstep.
  destruct (neighbour_step_passable g p q Hwf Hup Hstep) as (Hadj & Hq & Hnb).
  assert (Hs' : neighbour_step (make_barrier q g) p q).
  { destruct Hstep as (ns & Hns & Hin). exists ns. split; [|done].
    unfold make_barrier. by rewrite neighbours_of_paint. }
  assert (Hb : barrier_at (make_barrier q g) q).
  { unfold barrier_at, make_barrier. rewrite color_of_paint_eq.
    destruct (proj2 (Hwf q) Hq) as [n Hn]. unfold color_of. by rewrite Hn. }
  split; [done|]. split; [done|]. intros Hup'.
  by destruct (neighbour_step_passable _ p q (wf_paint BLACK q g Hwf) Hup' Hs')
    as (_ & _ & Hnb').
Qed.

Lemma stale_after_barrier_witness :
  barrier_at (make_barrier (1,0) (ready open_grid_painted)) (1,0)
  ∧ neighbour_step (make_barrier (1,0) (ready open_grid_painted)) (0,0) (1,0).
Proof.
  destruct open_grid_ready as (Hwf & Hup & _).
  assert (Hstep : neighbour_step (ready open_grid_painted) (0,0) (1,0)).
  { eexists. split; [vm_compute; reflexivity|]. by left. }
  destruct (stale_after_barrier _ (0,0) (1,0) Hwf Hup Hstep) as (H1 & H2 & _).
  split; [exact H2|exact H1].
Defined.

(** ** The grid [create_grid] builds *)

Lemma lookup_const_map (l : list pos) (v : Node) (p : pos) :
  (list_to_map ((λ q, (q, v)) <$> l) : gmap pos Node) !! p
  = if decide (p ∈ l) then Some v else None.
Proof.
  induction l as [|a l IH].
  - rewrite decide_False by apply not_elem_of_nil. done.
  - rewrite fmap_cons, list_to_map_cons.
    destruct (decide (p = a)) as [->|Hne].
    + rewrite lookup_insert_eq. rewrite decide_True; [done|by left].
    + rewrite lookup_insert_ne by done. rewrite IH.
      destruct (decide (p ∈ l)) as [Hin|Hin].
      * rewrite decide_True; [done|by right].
      * rewrite decide_False; [done|]. by intros [?|?]%elem_of_cons.
Qed.

Lemma create_grid_lookup (rows : Z) (q : pos) :
  cells (create_grid rows) !! q
  = if decide (0 ≤ q.1 < rows ∧ 0 ≤ q.2 < rows)
    then Some (mkNode WHITE []) else None.
Proof.
  unfold create_grid. simpl. rewrite lookup_const_map.
  pose proof (elem_of_all_positions rows q).
  repeat case_decide; try reflexivity; tauto.
Qed.

Lemma create_grid_w_Some (rows width : Z) :
  rows ≠ 0 → create_grid_w rows width = Some (create_grid rows).
Proof.
  intros Hr. unfold create_grid_w, floordiv. by rewrite decide_False.
Qed.

Lemma fresh_grid_stale (rows : Z) :
  2 ≤ rows → ¬ neighbours_up_to_date (create_grid rows).
Proof.
  intros Hrows Hup.
  specialize (Hup (0,0) (mkNode WHITE [])).
  rewrite create_grid_lookup in Hup.
  rewrite decide_True in Hup by (simpl; lia).
  specialize (Hup eq_refl).
  rewrite (compute_neighbours_wf _ (0,0) (wf_create_grid rows)) in Hup
    by (unfold in_bounds; simpl; lia).
  injection Hup as Hup.
  assert (Hin : (1,0) ∈ passable_neighbours (create_grid rows) (0,0)).
  { unfold passable_neighbours. apply list_elem_of_filter. split; [|by left].
    split; [unfold in_bounds; simpl; lia|].
    unfold barrier_at, color_of. rewrite create_grid_lookup.
    rewrite decide_True by (simpl; lia). simpl. discriminate. }
  rewrite Hup in Hin. simpl in Hin. by apply elem_of_nil in Hin.
Qed.

(** X19: [create_grid] raises [ZeroDivisionError] exactly for [rows = 0].
    Otherwise the grid has a cell exactly at the positions with both
    coordinates in [[0, rows)], every cell white with an empty neighbour
    list; so with 2 rows or more the lists of a fresh grid are not up to
    date. *)
Theorem create_grid_cells (rows width : Z) :
  (create_grid_w rows width = None ↔ rows = 0)
  ∧ (∀ g, create_grid_w rows width = Some g →
       total_rows g = rows
       ∧ (∀ p, cells g !! p
               = if decide (0 ≤ p.1 < rows ∧ 0 ≤ p.2 < rows)
                 then Some (mkNode WHITE []) else None)
       ∧ (2 ≤ rows → ¬ neighbours_up_to_date g)).
Proof.
  split.
  - unfold create_grid_w, floordiv. by case_decide.
  - intros g Hg. destruct (decide (rows = 0)) as [->|Hr]; [discriminate|].
    rewrite create_grid_w_Some in Hg by done. injection Hg as <-.
    split; [done|]. split; [apply create_grid_lookup|apply fresh_grid_stale].
Qed.

Lemma create_grid_cells_witness :
  ∃ g, create_grid_w 50 800 = Some g
       ∧ cells g !! (49, 0) = Some (mkNode WHITE [])
       ∧ cells g !! (50, 0) = None.
Proof.
  assert (Hg : create_grid_w 50 800 = Some (create_grid 50)) by reflexivity.
  destruct (proj2 (create_grid_cells 50 800) _ Hg) as (_ & Hcells & _).
  exists (create_grid 50). split; [exact Hg|]. split.
  - exact (Hcells (49, 0)).
  - exact (Hcells (50, 0)).
Defined.

(** ** The event loop of [main] *)

Lemma color_of_paint_iff c node g p c' :
  is_Some (cells g !! node) →
  color_of (paint c node g) p = Some c'
  ↔ (p = node ∧ c' = c) ∨ (p ≠ node ∧ color_of g p = Some c').
Proof.
  intros [n Hn]. destruct (decide (node = p)) as [<-|Hne].
  - rewrite color_of_paint_eq. unfold color_of. rewrite Hn. simpl.
    split; [intros [= <-]; by left|]. intros [[_ ->]|[? _]]; done.
  - rewrite color_of_paint_ne by done. split; [by right|].
    intros [[-> _]|[_ ?]]; done.
Qed.

Lemma app_inv_fresh r :
  app_inv (mkApp (create_grid main_rows) None None r false false).
Proof.
  assert (Hw : ∀ p c, color_of (create_grid main_rows) p = Some c → c = WHITE).
  { intros p c. unfold color_of. rewrite create_grid_lookup.
    case_decide; simpl; [by intros [= <-]|done]. }
  unfold app_inv. cbn [app_grid start_node end_node started path_found].
  split; [apply wf_create_grid|]. split; [reflexivity|].
  split; [|split].
  - intros p. split; intros H; [apply Hw in H|]; discriminate H.
  - intros p. split; intros H; [apply Hw in H|]; discriminate H.
  - intros H. discriminate H.
Qed.

Lemma restart_inv width a :
  ∃ a', restart width a = Some a' ∧ app_inv a'.
Proof.
  unfold restart. rewrite create_grid_w_Some by done. simpl.
  eexists. split; [done|]. apply app_inv_fresh.
Qed.

Lemma py_index_in_range n i : 0 ≤ i < n → py_index n i = Some i.
Proof. intros H. unfold py_index. by rewrite decide_True. Qed.

Lemma clicked_node width mpos a :
  app_inv a → over_grid width mpos →
  ∃ rc, get_clicked_pos mpos main_rows width = Some rc
        ∧ node_at (app_grid a) rc.1 rc.2 = Some rc
        ∧ is_Some (cells (app_grid a) !! rc).
Proof.
  intros (Hwf & Ht & _) [H1 H2].
  assert (Hgap : 0 < Z.div width main_rows) by (unfold main_rows in *; lia).
  assert (Hg : floordiv width main_rows = Some (Z.div width main_rows)).
  { unfold floordiv. by rewrite decide_False. }
  destruct (proj2 (proj2 (get_clicked_pos_cases main_rows width mpos))
              _ ltac:(done) Hg Hgap) as (rc & Hrc & Hr & Hc & _).
  exists rc. split; [done|].
  assert (Hin : in_bounds (app_grid a) rc).
  { unfold in_bounds. rewrite Ht. split; [apply Hr|apply Hc]; lia. }
  pose proof (proj2 (Hwf rc) Hin) as Hcell.
  split; [|done]. unfold node_at. rewrite Ht.
  destruct Hin as [Hi1 Hi2]. rewrite Ht in Hi1, Hi2.
  rewrite !py_index_in_range by done. simpl.
  destruct rc as [r c]. simpl. destruct Hcell as [n Hn].
  assert (Hq : cells (app_grid a) !! ((r, c) : pos) ≫= (λ _, Some (r, c))
               = Some (r, c)) by (by rewrite Hn).
  exact Hq.
Qed.

Lemma left_click_inv width mpos a :
  app_inv a → over_grid width mpos →
  ∃ a', left_click width mpos a = Some a' ∧ app_inv a'
        ∧ started a' = started a ∧ path_found a' = path_found a.
Proof.
  intros Hinv Hpos.
  destruct (clicked_node width mpos a Hinv Hpos) as (node & Hrc & Hnode & Hcell).
  destruct Hinv as (Hwf & Ht & Hpink & Hblue & Hpf).
  unfold left_click. rewrite Hrc. simpl. rewrite Hnode. simpl.
  repeat case_decide; (eexists; split; [reflexivity|]);
    (split; [|done]); unfold app_inv; simpl;
    try (split; [by apply wf_paint|]; split; [done|]);
    try done;
    (split; [|split; [|done]]); intros p;
    unfold make_start, make_end, make_barrier;
    rewrite color_of_paint_iff by done;
    specialize (Hpink p); specialize (Hblue p);
    pose proof (Hpink) as Hpink'; pose proof (Hblue) as Hblue';
    destruct (decide (p = node)) as [->|Hne];
    intuition congruence.
Qed.

Lemma right_click_inv width mpos a :
  app_inv a → over_grid width mpos →
  ∃ a', right_click width mpos a = Some a' ∧ app_inv a'
        ∧ started a' = started a ∧ path_found a' = path_found a.
Proof.
  intros Hinv Hpos.
  destruct (clicked_node width mpos a Hinv Hpos) as (node & Hrc & Hnode & Hcell).
  destruct Hinv as (Hwf & Ht & Hpink & Hblue & Hpf).
  unfold right_click. rewrite Hrc. simpl. rewrite Hnode. simpl.
  repeat case_decide; (eexists; split; [reflexivity|]);
    (split; [|done]); unfold app_inv; simpl;
    (split; [by apply wf_paint|]; split; [done|]);
    (split; [|split; [|done]]); intros p;
    unfold reset;
    rewrite color_of_paint_iff by done;
    assert (Hpn : color_of (app_grid a) node = Some PINK
                  ↔ Some node = start_node a)
      by (rewrite Hpink; split; intros HH; by symmetry);
    assert (Hbn : color_of (app_grid a) node = Some BLUE
                  ↔ Some node = end_node a)
      by (rewrite Hblue; split; intros HH; by symmetry);
    specialize (Hpink p); specialize (Hblue p);
    destruct (decide (p = node)) as [->|Hne];
    intuition congruence.
Qed.

Lemma wf_same_lists g g' :
  total_rows g' = total_rows g →
  (∀ p, neighbours_of g' p = neighbours_of g p) →
  wf_grid g → wf_grid g'.
Proof.
  intros Ht Hn Hwf p. unfold in_bounds. rewrite Ht. rewrite <- (Hwf p).
  specialize (Hn p). unfold neighbours_of in Hn.
  by rewrite <- (fmap_is_Some neighbours), Hn, fmap_is_Some.
Qed.

Lemma run_endpoint_colours g s e fuel b st :
  wf_grid g → neighbours_up_to_date g → in_bounds g s → in_bounds g e →
  s ≠ e → color_of g s = Some PINK →
  a_star_algorithm fuel g s e = Some (b, st) →
  color_of (grid st) s = Some PINK
  ∧ color_of (grid st) e = if b then Some BLUE else color_of g e.
Proof.
  intros Hwf Hup Hs He Hne Hpink Hrun.
  pose proof (up_to_date_lists_in_grid g Hwf Hup) as Hlists.
  pose proof (proj2 (Hwf s) Hs) as Hstart.
  destruct b.
  - destruct (success_state g s e fuel st Hlists Hstart Hrun)
      as (stl & st2 & k & l & z & Hls & -> & _ & _ & _ & _ & _ & Hcol & _).
    destruct (start_inv_loop _ _ _ _ Hls) as (_ & _ & _ & _ & _ & Hsc).
    simpl. split.
    + rewrite color_of_paint_ne by done. rewrite Hcol. unfold path_colours.
      rewrite Hsc, Hpink. by case_decide.
    + rewrite color_of_paint_eq, Hcol. unfold path_colours.
      assert (Hcell : is_Some (color_of (grid stl) e)).
      { apply color_of_is_Some. apply (grid_cells_loop g s e stl e Hls).
        by apply Hwf. }
      destruct Hcell as [c ->]. case_decide; [by destruct c|done].
  - destruct (search_loop_result g s e _ _ _ _ (loop_init _ _ _) Hrun)
      as (stl & Hls & Hpop & ->).
    destruct (start_inv_loop _ _ _ _ Hls) as (_ & _ & _ & _ & _ & Hsc).
    split; [by rewrite Hsc|].
    destruct (end_queued_or_untouched _ _ _ _ Hls) as [(x & Hx & _)|[_ Hc]];
      [|done].
    apply pop_None in Hpop. rewrite Hpop in Hx. by apply elem_of_nil in Hx.
Qed.

Lemma passable_step_ext g g' x y :
  total_rows g' = total_rows g →
  (∀ q, color_of g' q = color_of g q) →
  passable_step g x y → passable_step g' x y.
Proof.
  intros Ht Hc (Hadj & Hin & Hnb). split; [done|].
  unfold in_bounds, barrier_at in *. by rewrite Ht, Hc.
Qed.

Lemma space_inv width a s e :
  app_inv a → start_node a = Some s → end_node a = Some e →
  ∃ fuel0 a',
    (∀ fuel, (fuel0 ≤ fuel)%nat → on_keydown fuel width K_SPACE a = Some a')
    ∧ app_inv a'
    ∧ started a' = true
    ∧ start_node a' = Some s ∧ end_node a' = Some e ∧ run a' = run a
    ∧ (path_found a' = true ↔ ∃ l, grid_path (app_grid a) s l e)
    ∧ (∀ p, barrier_at (app_grid a') p ↔ barrier_at (app_grid a) p).
Proof.
  intros (Hwf & Ht & Hpink & Hblue & Hpf) Hs He.
  destruct (recompute_neighbours_total _ Hwf)
    as (g1 & Hg1 & Hwf1 & Hup1 & Ht1 & Hc1 & _).
  assert (Hsp : color_of g1 s = Some PINK) by (rewrite Hc1; by apply Hpink).
  assert (Heb : color_of g1 e = Some BLUE) by (rewrite Hc1; by apply Hblue).
  assert (Hsin : in_bounds g1 s).
  { apply Hwf1. apply color_of_is_Some. rewrite Hsp. by eexists. }
  assert (Hein : in_bounds g1 e).
  { apply Hwf1. apply color_of_is_Some. rewrite Heb. by eexists. }
  assert (Hne : s ≠ e) by (intros ->; congruence).
  destruct (search_total g1 s e (up_to_date_lists_in_grid g1 Hwf1 Hup1)
              (proj2 (Hwf1 s) Hsin)) as (fuel0 & b & st & Hrun).
  destruct (run_grid_shape _ _ _ _ _ _ Hrun) as (Hrt & Hrn & Hrc).
  destruct (run_endpoint_colours g1 s e fuel0 b st Hwf1 Hup1 Hsin Hein Hne
              Hsp Hrun) as (Hfs & Hfe).
  assert (Hsb : ¬ barrier_at g1 s) by (unfold barrier_at; congruence).
  destruct (run_preserves_barriers g1 s e fuel0 b st Hwf1 Hup1 Hsin Hsb Hrun)
    as (Hbar & _ & _).
  exists fuel0, (mkApp (grid st) (Some s) (Some e) (run a) true b).
  split.
  { intros fuel Hle. unfold on_keydown. rewrite Hs, He, Hg1. simpl.
    unfold a_star_algorithm in *.
    rewrite (search_loop_mono _ fuel _ _ _ _ Hrun Hle). done. }
  split.
  { split; [by apply (wf_same_lists g1)|]. split; [simpl; congruence|].
    simpl. split; [|split; [|done]]; intros p; split.
    - intros Hp. destruct (Hrc p _ Hp) as [Hp'|[?|[?|[?|[? _]]]]];
        try discriminate.
      rewrite Hc1 in Hp'. apply Hpink in Hp'. congruence.
    - intros [= <-]. done.
    - intros Hp. destruct (Hrc p _ Hp) as [Hp'|[?|[?|[?|[_ ->]]]]];
        try discriminate; [|done].
      rewrite Hc1 in Hp'. apply Hblue in Hp'. congruence.
    - intros [= <-]. rewrite Hfe. by destruct b. }
  split; [done|]. split; [done|]. split; [done|]. split; [done|]. split.
  - simpl. rewrite (search_result_reachable _ _ _ _ _ _ Hrun). split.
    + intros [l Hl]%(reachable_grid_path g1 s e Hwf1 Hup1). exists l.
      eapply walk_impl; [|exact Hl]. intros x y.
      apply passable_step_ext; [done|]. intros q. by rewrite Hc1.
    + intros [l Hl]. apply (grid_path_reachable g1 s l e Hwf1 Hup1 Hsin).
      eapply walk_impl; [|exact Hl]. intros x y.
      by apply passable_step_ext.
  - intros p. simpl. rewrite Hbar. unfold barrier_at. by rewrite Hc1.
Qed.

Lemma on_keydown_inv width key a :
  app_inv a →
  ∃ fuel0 a',
    (∀ fuel, (fuel0 ≤ fuel)%nat → on_keydown fuel width key a = Some a')
    ∧ app_inv a'.
Proof.
  intros Hinv. destruct key.
  - destruct (start_node a) as [s|] eqn:Hs; cycle 1.
    { exists 0%nat, a. split; [|done]. intros fuel _. unfold on_keydown.
      by rewrite Hs. }
    destruct (end_node a) as [e|] eqn:He; cycle 1.
    { exists 0%nat, a. split; [|done]. intros fuel _. unfold on_keydown.
      by rewrite Hs, He. }
    destruct (space_inv width a s e Hinv Hs He) as (fuel0 & a' & Hrun & Hi & _).
    by exists fuel0, a'.
  - destruct (restart_inv width a) as (a' & Hr & Hi).
    exists 0%nat, a'. split; [|done]. by intros fuel _.
  - exists 0%nat, a. split; [|done]. by intros fuel _.
Qed.

Lemma on_button_inv width mpos a :
  app_inv a → ∃ a', on_button width mpos a = Some a' ∧ app_inv a'.
Proof.
  intros Hinv. unfold on_button. repeat case_decide.
  - apply restart_inv.
  - eexists. split; [done|]. exact Hinv.
  - by exists a.
Qed.

Lemma handle_event_inv width i a :
  app_inv a → clicks_over_grid width i →
  ∃ fuel0 a',
    (∀ fuel, (fuel0 ≤ fuel)%nat → handle_event fuel width i a = Some a')
    ∧ app_inv a'.
Proof.
  intros Hinv Hclick. unfold handle_event.
  set (a0 := match ev_type i with
             | QUIT => mkApp (app_grid a) (start_node a) (end_node a) false
                             (started a) (path_found a)
             | _ => a
             end).
  assert (Hinv0 : app_inv a0) by (subst a0; by destruct (ev_type i)).
  clearbody a0. clear Hinv a.
  destruct (started a0 && negb (path_found a0)).
  { exists 0%nat, a0. split; [|done]. by intros fuel _. }
  assert (H1 : ∃ a1, (if pressed_left i then left_click width (click_pos i) a0
                      else if pressed_right i
                           then right_click width (click_pos i) a0
                           else Some a0) = Some a1 ∧ app_inv a1).
  { unfold clicks_over_grid in Hclick.
    destruct (pressed_left i).
    - destruct (left_click_inv width (click_pos i) a0 Hinv0 (Hclick eq_refl))
        as (a1 & ? & ? & _). by exists a1.
    - destruct (pressed_right i); [|by exists a0].
      destruct (right_click_inv width (click_pos i) a0 Hinv0 (Hclick eq_refl))
        as (a1 & ? & ? & _). by exists a1. }
  destruct H1 as (a1 & -> & Hinv1). simpl.
  assert (H2 : ∃ fuel0 a2,
             (∀ fuel, (fuel0 ≤ fuel)%nat →
                match ev_type i with
                | KEYDOWN key => on_keydown fuel width key a1
                | _ => Some a1
                end = Some a2) ∧ app_inv a2).
  { destruct (ev_type i) as [|key| |];
      try (exists 0%nat, a1; split; [by intros fuel _|done]).
    by apply on_keydown_inv. }
  destruct H2 as (fuel0 & a2 & Hrun & Hinv2).
  assert (H3 : ∃ a3,
             (if path_found a2 then
                match ev_type i with
                | MOUSEBUTTONDOWN button =>
                    if decide (button = 1)
                    then on_button width (button_pos i) a2
                    else Some a2
                | _ => Some a2
                end
              else Some a2) = Some a3 ∧ app_inv a3).
  { destruct (path_found a2); [|by exists a2].
    destruct (ev_type i) as [| |button|]; try by exists a2.
    case_decide; [|by exists a2]. by apply on_button_inv. }
  destruct H3 as (a3 & H3 & Hinv3).
  exists fuel0, a3. split; [|done]. intros fuel Hle.
  rewrite (Hrun fuel Hle). simpl. exact H3.
Qed.

Lemma handle_events_inv width evs a :
  app_inv a → Forall (clicks_over_grid width) evs →
  ∃ fuel0 a',
    (∀ fuel, (fuel0 ≤ fuel)%nat → handle_events fuel width evs a = Some a')
    ∧ app_inv a'.
Proof.
  intros Hinv Hall. revert a Hinv.
  induction Hall as [|i evs Hi _ IH]; intros a Hinv.
  { exists 0%nat, a. split; [|done]. by intros fuel _. }
  destruct (handle_event_inv width i a Hinv Hi) as (f1 & a1 & H1 & Hinv1).
  destruct (IH a1 Hinv1) as (f2 & a2 & H2 & Hinv2).
  exists (f1 `max` f2)%nat, a2. split; [|done]. intros fuel Hle. simpl.
  rewrite H1 by lia. simpl. apply H2. lia.
Qed.

Lemma main_loop_inv width batches a :
  app_inv a → Forall (Forall (clicks_over_grid width)) batches →
  ∃ fuel0 a',
    (∀ fuel, (fuel0 ≤ fuel)%nat → main_loop fuel width batches a = Some a')
    ∧ app_inv a'.
Proof.
  intros Hinv Hall. revert a Hinv.
  induction Hall as [|evs batches Hevs _ IH]; intros a Hinv.
  { exists 0%nat, a. split; [|done]. by intros fuel _. }
  simpl. destruct (run a).
  - destruct (handle_events_inv width evs a Hinv Hevs)
      as (f1 & a1 & H1 & Hinv1).
    destruct (IH a1 Hinv1) as (f2 & a2 & H2 & Hinv2).
    exists (f1 `max` f2)%nat, a2. split; [|done]. intros fuel Hle.
    rewrite H1 by lia. simpl. apply H2. lia.
  - exists 0%nat, a. split; [|done]. by intros fuel _.
Qed.

(** X20: as long as every mouse position read for a click is over the
    grid, [main] raises nothing on any sequence of events (given enough
    iterations for its searches), and after the last event the grid still
    has its 50 by 50 cells, the only pink cell is [start_node] and the
    only blue cell is [end_node]. *)
Theorem main_keeps_invariant (width : Z) (batches : list (list Input)) :
  Forall (Forall (clicks_over_grid width)) batches →
  ∃ fuel0 a',
    (∀ fuel, (fuel0 ≤ fuel)%nat → main fuel width batches = Some a')
    ∧ app_inv a'.
Proof.
  intros Hall. unfold main. rewrite create_grid_w_Some by done. simpl.
  apply main_loop_inv; [apply app_inv_fresh|done].
Qed.

Lemma main_keeps_invariant_witness :
  ∃ fuel0 a',
    main fuel0 800
      [[mkInput OTHER true false (100, 100) (0, 0)];
       [mkInput OTHER true false (300, 100) (0, 0)];
       [mkInput (KEYDOWN K_SPACE) false false (0, 0) (0, 0)]] = Some a'
    ∧ app_inv a'.
Proof.
  assert (Hall : Forall (Forall (clicks_over_grid 800))
            [[mkInput OTHER true false (100, 100) (0, 0)];
             [mkInput OTHER true false (300, 100) (0, 0)];
             [mkInput (KEYDOWN K_SPACE) false false (0, 0) (0, 0)]]).
  { repeat first [apply Forall_nil_2 | apply Forall_cons_2];
      intros _; unfold over_grid, main_rows; simpl fst; simpl snd;
      change (Z.div 800 50) with 16; lia. }
  destruct (main_keeps_invariant 800 _ Hall) as (fuel0 & a' & Hrun & Hinv).
  exists fuel0, a'. split; [exact (Hrun fuel0 (le_n _))|exact Hinv].
Defined.

(** ** After a search without a path *)

Lemma handle_event_frozen fuel width i a :
  frozen a →
  ∃ a', handle_event fuel width i a = Some a'
    ∧ frozen a'
    ∧ app_grid a' = app_grid a
    ∧ start_node a' = start_node a ∧ end_node a' = end_node a
    ∧ (run a' = true ↔ run a = true ∧ ev_type i ≠ QUIT).
Proof.
  intros [Hs Hp]. unfold handle_event, frozen.
  destruct a as [g s e r st pf].
  cbn [started path_found] in Hs, Hp. subst st pf.
  destruct (ev_type i);
    cbn [started path_found run app_grid start_node end_node andb negb];
    (eexists; split; [reflexivity|]);
    cbn [started path_found run app_grid start_node end_node];
    (split; [done|]); do 3 (split; [done|]);
    (split; [intros H; first [discriminate H|split; [done|discriminate]]
            |intros [H1 H2]; first [done|by destruct H2]]).
Qed.

Lemma handle_events_frozen fuel width evs a :
  frozen a →
  ∃ a', handle_events fuel width evs a = Some a'
    ∧ frozen a'
    ∧ app_grid a' = app_grid a
    ∧ start_node a' = start_node a ∧ end_node a' = end_node a
    ∧ (run a' = true
       ↔ run a = true ∧ Forall (λ i, ev_type i ≠ QUIT) evs).
Proof.
  revert a. induction evs as [|i evs IH]; intros a Hf.
  { exists a. do 5 (split; [done|]).
    split; [intros H; split; [done|constructor]|by intros [? _]]. }
  destruct (handle_event_frozen fuel width i a Hf)
    as (a1 & H1 & Hf1 & Hg1 & Hs1 & He1 & Hr1).
  destruct (IH a1 Hf1) as (a2 & H2 & Hf2 & Hg2 & Hs2 & He2 & Hr2).
  exists a2. simpl. rewrite H1. simpl. split; [done|]. split; [done|].
  split; [congruence|]. split; [congruence|]. split; [congruence|].
  rewrite Hr2, Hr1, Forall_cons. tauto.
Qed.

Lemma main_loop_frozen fuel width batches a :
  frozen a →
  ∃ a', main_loop fuel width batches a = Some a'
    ∧ frozen a'
    ∧ app_grid a' = app_grid a
    ∧ start_node a' = start_node a ∧ end_node a' = end_node a
    ∧ (run a' = true
       ↔ run a = true
         ∧ Forall (Forall (λ i, ev_type i ≠ QUIT)) batches).
Proof.
  revert a. induction batches as [|evs batches IH]; intros a Hf.
  { exists a. do 5 (split; [done|]).
    split; [intros H; split; [done|constructor]|by intros [? _]]. }
  simpl. destruct (run a) eqn:Hrun.
  - destruct (handle_events_frozen fuel width evs a Hf)
      as (a1 & H1 & Hf1 & Hg1 & Hs1 & He1 & Hr1).
    destruct (IH a1 Hf1) as (a2 & H2 & Hf2 & Hg2 & Hs2 & He2 & Hr2).
    exists a2. rewrite H1. simpl. split; [done|]. split; [done|].
    split; [congruence|]. split; [congruence|]. split; [congruence|].
    rewrite Hr2, Hr1, Forall_cons, Hrun. tauto.
  - exists a. split; [done|]. split; [done|]. do 3 (split; [done|]).
    rewrite Hrun. split; [done|]. by intros [? _].
Qed.

(** X21: once a search has run without finding a path ([started] set,
    [path_found] not), [main] ignores every event but [QUIT]: whatever
    the clicks and keys, the [r] key included, the grid, the start and
    the end stay as they are, nothing is raised, and the loop goes on
    exactly as long as no [QUIT] event comes. *)
Theorem failed_search_freezes (fuel : nat) (width : Z)
    (batches : list (list Input)) (a : App) :
  frozen a →
  ∃ a', main_loop fuel width batches a = Some a'
    ∧ frozen a'
    ∧ app_grid a' = app_grid a
    ∧ start_node a' = start_node a ∧ end_node a' = end_node a
    ∧ (run a' = true
       ↔ run a = true
         ∧ Forall (Forall (λ i, ev_type i ≠ QUIT)) batches).
Proof. apply main_loop_frozen. Qed.

Lemma failed_search_freezes_witness :
  let a := mkApp (create_grid 2) (Some (0,0)) (Some (1,1)) true true false in
  ∃ a', main_loop 0 800
          [[mkInput (KEYDOWN K_r) true false (5, 5) (0, 0)]] a = Some a'
        ∧ app_grid a' = create_grid 2.
Proof.
  intros a.
  assert (Hf : frozen a) by (split; reflexivity).
  destruct (failed_search_freezes 0 800
              [[mkInput (KEYDOWN K_r) true false (5, 5) (0, 0)]] a Hf)
    as (a' & Hrun & _ & Hg & _).
  exists a'. split; [exact Hrun|exact Hg].
Defined.

(** ** The space key *)

(** X22: with start and end set and the program not frozen, the space
    key runs the pass over the lists and the search to their end;
    [path_found] is set exactly when the grid as coloured at that moment
    has a walk of orthogonal moves from start to end over cells that are
    not barriers.  No barrier has changed, and the program is frozen
    afterwards exactly when there is no such walk. *)
Theorem space_decides_path (width : Z) (a : App) (s e : pos)
    (cp bp : Z * Z) :
  app_inv a → ¬ frozen a →
  start_node a = Some s → end_node a = Some e →
  ∃ fuel0 a',
    (∀ fuel, (fuel0 ≤ fuel)%nat →
       handle_event fuel width
         (mkInput (KEYDOWN K_SPACE) false false cp bp) a = Some a')
    ∧ app_inv a'
    ∧ started a' = true
    ∧ (path_found a' = true ↔ ∃ l, grid_path (app_grid a) s l e)
    ∧ (frozen a' ↔ ¬ ∃ l, grid_path (app_grid a) s l e)
    ∧ (∀ p, barrier_at (app_grid a') p ↔ barrier_at (app_grid a) p)
    ∧ start_node a' = Some s ∧ end_node a' = Some e.
Proof.
  intros Hinv Hnf Hs He.
  destruct (space_inv width a s e Hinv Hs He)
    as (fuel0 & a' & Hrun & Hinv' & Hst & Hs' & He' & _ & Hpf & Hbar).
  exists fuel0, a'. split.
  { intros fuel Hle. unfold handle_event.
    cbn [ev_type pressed_left pressed_right click_pos button_pos].
    assert (Hfz : started a && negb (path_found a) = false).
    { unfold frozen in Hnf.
      destruct (started a), (path_found a); simpl; try done.
      by destruct Hnf. }
    rewrite Hfz. cbn [mbind option_bind]. rewrite (Hrun fuel Hle).
    cbn [mbind option_bind]. by destruct (path_found a'). }
  split; [done|]. split; [done|]. split; [done|]. split.
  { unfold frozen. rewrite <- Hpf, Hst.
    destruct (path_found a'); split.
    - intros [_ H]. discriminate H.
    - intros H. by destruct H.
    - intros _ H. discriminate H.
    - intros _. by split. }
  done.
Qed.

Lemma create_grid_white rows p c :
  color_of (create_grid rows) p = Some c → c = WHITE.
Proof.
  unfold color_of. rewrite create_grid_lookup.
  case_decide; simpl; [by intros [= <-]|done].
Qed.

Lemma app_inv_marked (G : Grid) (s e : pos) (r : bool) :
  wf_grid G → total_rows G = main_rows →
  (∀ p c, color_of G p = Some c → c = WHITE) →
  in_bounds G s → in_bounds G e → s ≠ e →
  app_inv (mkApp (make_end e (make_start s G)) (Some s) (Some e) r false false).
Proof.
  intros Hwf Ht Hw Hs He Hne.
  assert (Hcs : is_Some (cells G !! s)) by (by apply Hwf).
  assert (Hce : is_Some (cells (make_start s G) !! e)).
  { apply cells_paint_is_Some. by apply Hwf. }
  unfold app_inv. cbn [app_grid start_node end_node started path_found].
  split; [by apply wf_paint, wf_paint|]. split; [exact Ht|].
  unfold make_end, make_start in *.
  split; [|split; [|intros H; discriminate H]]; intros p;
    rewrite !color_of_paint_iff by assumption; split.
  - intros [[-> H]|[Hpe [[-> _]|[_ H]]]]; [discriminate H|reflexivity|].
    apply Hw in H. discriminate H.
  - intros [= <-]. right. split; [exact Hne|]. by left.
  - intros [[-> _]|[Hpe [[-> H]|[_ H]]]]; [reflexivity|discriminate H|].
    apply Hw in H. discriminate H.
  - intros [= <-]. by left.
Qed.

Lemma space_decides_path_witness :
  let a := mkApp (make_end (1,1) (make_start (0,0) (create_grid main_rows)))
                 (Some (0,0)) (Some (1,1)) true false false in
  ∃ fuel0 a',
    handle_event fuel0 800
      (mkInput (KEYDOWN K_SPACE) false false (0, 0) (0, 0)) a = Some a'
    ∧ started a' = true.
Proof.
  intros a.
  assert (Hin : ∀ p : pos, 0 ≤ p.1 < 50 ∧ 0 ≤ p.2 < 50 →
                           in_bounds (create_grid main_rows) p).
  { intros p Hp. exact Hp. }
  assert (Hinv : app_inv a).
  { apply app_inv_marked.
    - apply wf_create_grid.
    - reflexivity.
    - apply create_grid_white.
    - apply Hin. cbn [fst snd]. lia.
    - apply Hin. cbn [fst snd]. lia.
    - intros H. discriminate H. }
  assert (Hnf : ¬ frozen a) by (intros [H _]; discriminate H).
  destruct (space_decides_path 800 a (0,0) (1,1) (0,0) (0,0) Hinv Hnf
              eq_refl eq_refl) as (fuel0 & a' & Hrun & _ & Hst & _).
  exists fuel0, a'. split; [exact (Hrun fuel0 (le_n _))|exact Hst].
Defined.
